(** * ExamHelper: the text-analysis pipeline of [src/ExamHelper.js]

    A shallow embedding of the four pure stages of the component
    ([extractKeyTerms], [generateSummary], [generateMCQs], [generateQnA]),
    of [processDocument] and of [handleFileUpload], followed by the
    properties of the specification that were checked against them.

    Conventions of the embedding.
    - A JavaScript string is a [string]: a sequence of code units, here the
      code units 0..255 (Latin-1).  [toLowerCase], [trim] and the regular
      expression classes [\w] and [\s] are written out for that range.
    - An object used as a dictionary is an association list in creation
      order ([Obj]); enumeration puts array-index keys first, as the
      language does.
    - [Array.prototype.sort] is stable; with a consistent comparator its
      result is fixed by the language, and is computed here by a stable
      insertion sort.  A comparator that returns [NaN] is not consistent,
      and the language leaves the order to the engine: the one sort of the
      component that can meet this case, in [extractKeyTerms], takes the
      order of the engine as a parameter, [engineOrder].  [engineSort] is
      one such engine, run by the examples.
    - The scores of the summarizer are the doubles 3, 2, 1.5 and 1 times an
      integer; they are kept doubled, as naturals.  [index < n * 0.1] and
      [index > n * 0.8] are decided on integers as [10 * index < n] and
      [8 * n < 10 * index]: the rounded products [n * 0.1] and [n * 0.8]
      are the exact integer when [n / 10] (resp. [4 * n / 5]) is one, and
      lie strictly between two integers otherwise.
    - React state is a record; a handler reads the fields of the render it
      was created in (the snapshot) and its setters build the next state. *)

From Stdlib Require Import Bool Arith Lia List String Ascii ZArith.
From Stdlib Require Import Permutation Sorted DecimalString.
Import ListNotations.
Open Scope string_scope.
Open Scope list_scope.
Open Scope nat_scope.

(* ================================================================== *)
(** ** JavaScript string primitives                                    *)
(* ================================================================== *)

Module JS.

Definition code (c : ascii) : nat := nat_of_ascii c.

(** [\s], and the characters removed by [trim]: TAB, LF, VT, FF, CR, SP and
    NBSP. *)
Definition is_space (c : ascii) : bool :=
  let n := code c in
  ((9 <=? n) && (n <=? 13)) || (n =? 32) || (n =? 160).

(** [\w] is [A-Za-z0-9_]. *)
Definition is_word (c : ascii) : bool :=
  let n := code c in
  ((48 <=? n) && (n <=? 57)) || ((65 <=? n) && (n <=? 90))
  || (n =? 95) || ((97 <=? n) && (n <=? 122)).

Definition is_digit (c : ascii) : bool :=
  let n := code c in (48 <=? n) && (n <=? 57).

(** The character class [[.!?]]. *)
Definition is_sentence_end (c : ascii) : bool :=
  let n := code c in (n =? 46) || (n =? 33) || (n =? 63).

Definition lower_char (c : ascii) : ascii :=
  let n := code c in
  if ((65 <=? n) && (n <=? 90))
     || ((192 <=? n) && (n <=? 222) && negb (n =? 215))
  then ascii_of_nat (n + 32) else c.

Fixpoint map_chars (f : ascii -> ascii) (s : string) : string :=
  match s with
  | EmptyString => EmptyString
  | String c s' => String (f c) (map_chars f s')
  end.

Fixpoint filter_chars (f : ascii -> bool) (s : string) : string :=
  match s with
  | EmptyString => EmptyString
  | String c s' => if f c then String c (filter_chars f s') else filter_chars f s'
  end.

Fixpoint forall_chars (f : ascii -> bool) (s : string) : bool :=
  match s with
  | EmptyString => true
  | String c s' => f c && forall_chars f s'
  end.

Definition toLowerCase (s : string) : string := map_chars lower_char s.

Fixpoint trimStart (s : string) : string :=
  match s with
  | EmptyString => EmptyString
  | String c s' => if is_space c then trimStart s' else s
  end.

Fixpoint trimEnd (s : string) : string :=
  match s with
  | EmptyString => EmptyString
  | String c s' =>
      match trimEnd s' with
      | EmptyString => if is_space c then EmptyString else String c EmptyString
      | t => String c t
      end
  end.

Definition trim (s : string) : string := trimEnd (trimStart s).

(** [s.includes(t)]. *)
Fixpoint includes (s t : string) : bool :=
  prefix t s ||
  match s with
  | EmptyString => false
  | String _ s' => includes s' t
  end.

(** [s.split(/[d]+/)] for a character class [d]: the pieces between the
    maximal runs of [d], with an empty first (last) piece when [s] starts
    (ends) with a run.  The result is never empty. *)
Fixpoint split_on (d : ascii -> bool) (s : string) : list string :=
  match s with
  | EmptyString => [EmptyString]
  | String c s' =>
      if d c then
        match s' with
        | String c' _ => if d c' then split_on d s' else EmptyString :: split_on d s'
        | EmptyString => EmptyString :: split_on d s'
        end
      else
        match split_on d s' with
        | p :: ps => String c p :: ps
        | [] => [String c EmptyString]
        end
  end.

(** [l.join(sep)]. *)
Definition join (sep : string) (l : list string) : string := String.concat sep l.

(** [l.indexOf(x)], with -1 when [x] is absent. *)
Fixpoint indexOf (l : list string) (x : string) : Z :=
  match l with
  | [] => (-1)%Z
  | y :: l' =>
      if String.eqb y x then 0%Z
      else let r := indexOf l' x in
           if (r <? 0)%Z then (-1)%Z else (r + 1)%Z
  end.

(** [l[i]] for a number [i]; [None] stands for [undefined]. *)
Definition at_index {A : Type} (l : list A) (i : Z) : option A :=
  if (i <? 0)%Z then None else nth_error l (Z.to_nat i).

(** [l.slice(-n)]: the last [n] elements. *)
Definition lastn {A : Type} (n : nat) (l : list A) : list A :=
  skipn (List.length l - n) l.

End JS.

Import JS.

(** The sentence list, computed by the same expression in the summarizer,
    the MCQ generator and the Q&A generator:
    [text.split(/[.!?]+/).filter(s => s.trim().length > 0)]. *)
Definition splitSentences (text : string) : list string :=
  filter (fun s => 0 <? String.length (trim s)) (split_on is_sentence_end text).

(* ================================================================== *)
(** ** Arrays: indexed map and the stable sort                         *)
(* ================================================================== *)

Section Arrays.
Context {A B : Type}.

(** [l.map((x, index) => f x index)], counting from [i]. *)
Fixpoint mapi_from (i : nat) (f : A -> nat -> B) (l : list A) : list B :=
  match l with
  | [] => []
  | x :: l' => f x i :: mapi_from (S i) f l'
  end.

Definition mapi (f : A -> nat -> B) (l : list A) : list B := mapi_from 0 f l.

(** [l.sort(compareFn)] where [le x y] decides [compareFn(x, y) <= 0]:
    each element is put in front of the first already sorted element it
    does not have to follow, so equal elements keep their order. *)
Variable le : A -> A -> bool.

Fixpoint insert (x : A) (l : list A) : list A :=
  match l with
  | [] => [x]
  | y :: l' => if le x y then x :: l else y :: insert x l'
  end.

Fixpoint sort (l : list A) : list A :=
  match l with
  | [] => []
  | x :: l' => insert x (sort l')
  end.
End Arrays.

(** The order of a sorted array: by the comparator [le], and where the
    comparator says "equal" by [before], the order of the places in the
    array that was sorted. *)
Definition stable_lt {A : Type} (le : A -> A -> bool) (before : A -> A -> Prop)
           (x y : A) : Prop :=
  le x y = true /\ (le y x = true -> before x y).

(* ================================================================== *)
(** ** Arrays: the sort as an engine runs it                           *)
(* ================================================================== *)

(** What an engine does when it is handed a comparator, consistent or
    not.  This is the sort of V8 on an array of fewer than 64 elements:
    the run that starts the array is measured, and reversed when it
    descends; the elements that follow it are put in place one by one, the
    place found by a binary search.  [compare a b] is the number the
    engine reads from the comparator, [+0] where the comparator returned
    [NaN].  (V8 cuts a longer array into several runs and merges them;
    that part is not written here.) *)
Section EngineSort.
Context {A : Type}.
Variable compare : A -> A -> Z.

(** The loop that measures the run: the number of elements after
    [previousElement] that continue it. *)
Fixpoint runTail (isDescending : bool) (previousElement : A) (rest : list A) : nat :=
  match rest with
  | [] => 0
  | currentElement :: rest' =>
      let order := compare currentElement previousElement in
      if isDescending then
        if (0 <=? order)%Z then 0 else S (runTail isDescending currentElement rest')
      else
        if (order <? 0)%Z then 0 else S (runTail isDescending currentElement rest')
  end.

(** The run, in ascending order, and the elements after it. *)
Definition countAndMakeRun (l : list A) : list A * list A :=
  match l with
  | elementHigh :: elementLow :: rest =>
      let isDescending := (compare elementLow elementHigh <? 0)%Z in
      let runLength := 2 + runTail isDescending elementLow rest in
      let run := firstn runLength l in
      (if isDescending then rev run else run, skipn runLength l)
  | _ => (l, [])
  end.

(** The binary search [while (left < right)]; it ends within
    [right - left] halvings. *)
Fixpoint insertionPoint (fuel : nat) (sorted : list A) (pivot : A) (left right : nat) : nat :=
  match fuel with
  | 0 => left
  | S fuel' =>
      if left <? right then
        let mid := left + (right - left) / 2 in
        if (compare pivot (nth mid sorted pivot) <? 0)%Z
        then insertionPoint fuel' sorted pivot left mid
        else insertionPoint fuel' sorted pivot (mid + 1) right
      else left
  end.

Definition binaryInsert (sorted : list A) (pivot : A) : list A :=
  let left := insertionPoint (List.length sorted) sorted pivot 0 (List.length sorted) in
  firstn left sorted ++ pivot :: skipn left sorted.

Definition binaryInsertionSort (run rest : list A) : list A :=
  fold_left binaryInsert rest run.

Definition engineSort (l : list A) : list A :=
  let (run, rest) := countAndMakeRun l in binaryInsertionSort run rest.

(** Insertion from the left: [x] goes after the elements it does not
    have to precede. *)
Fixpoint insertAfter (x : A) (l : list A) : list A :=
  match l with
  | [] => [x]
  | y :: l' => if (compare x y <? 0)%Z then x :: l else y :: insertAfter x l'
  end.
End EngineSort.

(** The two orders of a run, for elements compared by a rank. *)
Definition rankUp {A : Type} (rank : A -> Z) (a b : A) : Prop := (rank a <= rank b)%Z.
Definition rankDown {A : Type} (rank : A -> Z) (a b : A) : Prop := (rank b < rank a)%Z.

(* ================================================================== *)
(** ** Objects used as dictionaries                                    *)
(* ================================================================== *)

Module Obj.

(** The names every object inherits from [Object.prototype]. *)
Definition inherited_names : list string :=
  [ "constructor"; "__defineGetter__"; "__defineSetter__"; "hasOwnProperty";
    "__lookupGetter__"; "__lookupSetter__"; "isPrototypeOf";
    "propertyIsEnumerable"; "toString"; "valueOf"; "__proto__";
    "toLocaleString" ].

Definition inherited (k : string) : bool := existsb (String.eqb k) inherited_names.

Fixpoint digits_value (s : string) (acc : N) : N :=
  match s with
  | EmptyString => acc
  | String c s' => digits_value s' (10 * acc + N.of_nat (code c - 48))%N
  end.

(** A key is an array index when it is the canonical decimal form of an
    integer below 2^32 - 1. *)
Definition array_index (k : string) : option N :=
  match k with
  | EmptyString => None
  | String c rest =>
      if forall_chars is_digit k && (negb (code c =? 48) || String.eqb rest EmptyString)
         && (String.length k <=? 10)
      then let n := digits_value k 0 in
           if (n <? 4294967295)%N then Some n else None
      else None
  end.

Section WithValue.
Context {V : Type}.

(** Own properties, in creation order. *)
Definition t := list (string * V).

Fixpoint get (o : t) (k : string) : option V :=
  match o with
  | [] => None
  | (k', v) :: o' => if String.eqb k' k then Some v else get o' k
  end.

(** Defining an own property: an existing key keeps its place. *)
Fixpoint set (o : t) (k : string) (v : V) : t :=
  match o with
  | [] => [(k, v)]
  | (k', v') :: o' =>
      if String.eqb k' k then (k', v) :: o' else (k', v') :: set o' k v
  end.

(** [o[k] = v] for an array [v]: the key [__proto__] reaches the
    inherited setter, which replaces the prototype and adds no own
    property. *)
Definition assign (o : t) (k : string) (v : V) : t :=
  if String.eqb k "__proto__" then o else set o k v.

Definition index_le (a b : N * (string * V)) : bool := (fst a <=? fst b)%N.

Fixpoint indexed (o : t) : list (N * (string * V)) :=
  match o with
  | [] => []
  | (k, v) :: o' =>
      match array_index k with
      | Some n => (n, (k, v)) :: indexed o'
      | None => indexed o'
      end
  end.

Definition named (o : t) : t :=
  filter (fun kv => match array_index (fst kv) with Some _ => false | None => true end) o.

(** [Object.entries(o)]: array-index keys in ascending numeric order, then
    the other keys in creation order. *)
Definition entries (o : t) : list (string * V) :=
  map snd (sort index_le (indexed o)) ++ named o.

Definition keys (o : t) : list string := map fst (entries o).

(** [{...a, ...b}]. *)
Definition spread (a b : t) : t :=
  fold_left (fun o kv => set o (fst kv) (snd kv)) (entries a ++ entries b) [].
End WithValue.

Arguments t : clear implicits.

End Obj.

(* ================================================================== *)
(** ** Term extraction                                                 *)
(* ================================================================== *)

Definition stopWords : list string :=
  [ "the"; "a"; "an"; "and"; "or"; "but"; "is"; "in"; "it"; "to"; "i"; "that"; "had";
    "on"; "for"; "were"; "was"; "of"; "be"; "this"; "with"; "by"; "as"; "at"; "from";
    "they"; "are"; "have"; "has"; "been"; "not"; "their"; "there"; "which"; "when"; "who";
    "what"; "where"; "why"; "how"; "all"; "any"; "both"; "each"; "few"; "more"; "most";
    "some"; "such"; "than"; "too"; "very"; "can"; "will"; "just"; "should"; "now" ].

Definition isStopWord (w : string) : bool := existsb (String.eqb w) stopWords.

(** The value of a counter: a number, or the string that [+ 1] builds when
    the name read was an inherited one. *)
Inductive Count : Type :=
| Num (n : nat)
| Text.

(** [o[k] = (o[k] || 0) + w]. *)
Definition bump (o : Obj.t Count) (k : string) (w : nat) : Obj.t Count :=
  match Obj.get o k with
  | Some (Num n) => Obj.set o k (Num (n + w))
  | Some Text => Obj.set o k Text
  | None =>
      if String.eqb k "__proto__" then o
      else if Obj.inherited k then Obj.set o k Text
      else Obj.set o k (Num w)
  end.

Definition qualifies (w : string) : bool := 3 <? String.length w.

(** The template literals that build the phrase keys. *)
Definition bigram (w0 w1 : string) : string := (w0 ++ " " ++ w1)%string.
Definition trigram (w0 w1 w2 : string) : string := (w0 ++ " " ++ w1 ++ " " ++ w2)%string.

Definition countWords (words : list string) : Obj.t Count :=
  fold_left
    (fun wordCounts word =>
       if negb (isStopWord word) && qualifies word then bump wordCounts word 1
       else wordCounts)
    words [].

(** The loop [for (let i = 0; i < words.length - 1; i++)]: [w0], [w1] and
    [w2] are [words[i]], [words[i+1]] and [words[i+2]]. *)
Fixpoint countPhrases (words : list string) (phrases : Obj.t Count) : Obj.t Count :=
  match words with
  | w0 :: ((w1 :: rest) as tl) =>
      let phrases1 :=
        if qualifies w0 && qualifies w1
           && negb (isStopWord w0) && negb (isStopWord w1)
        then bump phrases (bigram w0 w1) 1
        else phrases in
      let phrases2 :=
        match rest with
        | w2 :: _ =>
            if qualifies w0 && qualifies w1 && qualifies w2
               && negb (isStopWord w0) && negb (isStopWord w2)
            then bump phrases1 (trigram w0 w1 w2) 3
            else phrases1
        | [] => phrases1
        end in
      countPhrases tl phrases2
  | _ => phrases
  end.

Definition is_text (kv : string * Count) : bool :=
  match snd kv with Text => true | Num _ => false end.

Definition score (kv : string * Count) : nat :=
  match snd kv with Num n => n | Text => 0 end.

(** [(a, b) => b[1] - a[1]] is at most 0 when [a] scores at least [b]. *)
Definition byScoreDesc (a b : string * Count) : bool := score b <=? score a.

Definition tokenize (text : string) : list string :=
  let cleanText := filter_chars (fun c => is_word c || is_space c) (toLowerCase text) in
  filter (fun word => 0 <? String.length word) (split_on is_space cleanText).

(** The number [sort] reads from [(a, b) => b[1] - a[1]]: the difference
    of two numbers, and [+0] for the [NaN] that a counter holding a string
    gives. *)
Definition compareEntries (a b : string * Count) : Z :=
  match snd a, snd b with
  | Num x, Num y => Z.of_nat y - Z.of_nat x
  | _, _ => 0%Z
  end.

Section Terms.
(** The order in which the engine leaves the entries when the comparator
    is not consistent. *)
Variable engineOrder : list (string * Count) -> list (string * Count).

(** [entries.sort((a, b) => b[1] - a[1])].  When every counter is a
    number the differences are numbers, the comparator is consistent and
    the result is the one the language fixes.  When a counter holds a
    string (the text has the word `constructor`) the differences taken
    with it are [NaN], the comparator is not consistent, and the order is
    the engine's. *)
Definition sortByScore (es : list (string * Count)) : list (string * Count) :=
  if existsb is_text es then engineOrder es else sort byScoreDesc es.

Definition extractKeyTerms (text : string) : list string :=
  let words := tokenize text in
  let wordCounts := countWords words in
  let phrases := countPhrases words [] in
  let combined := Obj.spread wordCounts phrases in
  let sortedTerms := map fst (firstn 20 (sortByScore (Obj.entries combined))) in
  sortedTerms.
End Terms.

(** The order of the engine written above. *)
Definition engineSortOrder : list (string * Count) -> list (string * Count) :=
  engineSort compareEntries.

(* ================================================================== *)
(** ** Summarizer                                                      *)
(* ================================================================== *)

(** Twice the position score: 3, 2, 1.5 and 1 in the source. *)
Definition positionScore (n index : nat) : nat :=
  if index <? 3 then 6
  else if 10 * index <? n then 4
  else if 8 * n <? 10 * index then 3
  else 2.

Definition termScore (keyTerms : list string) (sentence : string) : nat :=
  fold_left
    (fun score term => if includes (toLowerCase sentence) term then score + 1 else score)
    keyTerms 0.

Definition positionScores (sentences : list string) : list nat :=
  mapi (fun _ index => positionScore (List.length sentences) index) sentences.

Definition termScores (keyTerms sentences : list string) : list nat :=
  map (termScore keyTerms) sentences.

Definition combinedScores (keyTerms sentences : list string) : list nat :=
  mapi (fun _ index =>
          nth index (positionScores sentences) 0
          * (nth index (termScores keyTerms sentences) 0 + 1))
       sentences.

(** [Math.max(Math.ceil(n * 0.25), 3)]. *)
Definition summaryLength (n : nat) : nat := Nat.max ((n + 3) / 4) 3.

(** An item [{ score, index }]. *)
Definition higherScoreFirst (a b : nat * nat) : bool := fst b <=? fst a.

Definition indexedScores (keyTerms sentences : list string) : list (nat * nat) :=
  mapi (fun score index => (score, index)) (combinedScores keyTerms sentences).

(** [indexedScores.sort((a, b) => b.score - a.score)]. *)
Definition rankedScores (keyTerms sentences : list string) : list (nat * nat) :=
  sort higherScoreFirst (indexedScores keyTerms sentences).

(** [.slice(0, summaryLength)]. *)
Definition keptScores (keyTerms sentences : list string) : list (nat * nat) :=
  firstn (summaryLength (List.length sentences)) (rankedScores keyTerms sentences).

(** [.map(item => item.index).sort((a, b) => a - b)]. *)
Definition topIndexes (keyTerms sentences : list string) : list nat :=
  sort Nat.leb (map snd (keptScores keyTerms sentences)).

(** [keyTerms] is not a parameter of the source function: it is the state
    field of the enclosing component, as the render that created the
    function saw it. *)
Definition generateSummary (keyTerms : list string) (text : string) : string :=
  let sentences := splitSentences text in
  if List.length sentences <=? 3 then (join ". " sentences ++ ".")%string
  else
    let summarySentences :=
      map (fun index => nth index sentences EmptyString) (topIndexes keyTerms sentences) in
    (join ". " summarySentences ++ ".")%string.

(* ================================================================== *)
(** ** MCQ generator                                                   *)
(* ================================================================== *)

Record MCQ : Type := mkMCQ {
  mcq_id : nat;
  mcq_question : string;
  mcq_options : list string;
  mcq_correctAnswer : Z;
  mcq_context : string
}.

(** [sentence.toLowerCase().includes(term.toLowerCase())]. *)
Definition mentions (term sentence : string) : bool :=
  includes (toLowerCase sentence) (toLowerCase term).

(** The body of [keyTerms.forEach(term => ...)]. *)
Definition storeTerm (sentences : list string)
           (termSentences : Obj.t (list string)) (term : string)
  : Obj.t (list string) :=
  let matchingSentences := filter (mentions term) sentences in
  if 0 <? List.length matchingSentences
  then Obj.assign termSentences term matchingSentences
  else termSentences.

Definition termSentencesOf (sentences keyTerms : list string) : Obj.t (list string) :=
  fold_left (storeTerm sentences) keyTerms [].

Definition phraseOptions (term targetSentence : string) : list string :=
  [ trim targetSentence;
    (term ++ " refers to an unrelated concept not covered in this document.")%string;
    (term ++ " is a contradictory element in the document.")%string;
    (term ++ " is mentioned but not significant to the main topic.")%string ].

Definition wordOptions (term targetSentence : string) : list string :=
  [ trim targetSentence;
    (term ++ " is not relevant to the main subject of this document.")%string;
    (term ++ " represents an opposing viewpoint to the document's main argument.")%string;
    (term ++ " is a minor concept that appears only once in the document.")%string ].

Definition dquote : string := String (ascii_of_nat 34) EmptyString.

(** [term.split(' ').length > 1]. *)
Definition isPhrase (term : string) : bool := includes term " ".

Section MCQ.
(** [_.shuffle]: the [index]-th call of the run rearranges its argument. *)
Variable shuffle : nat -> list string -> list string.

Definition makeMCQ (sentences : list string)
           (termSentences : Obj.t (list string)) (term : string) (index : nat) : MCQ :=
  (* [termSentences[term]]: [term] is an own key, and has a value *)
  let relatedSentences :=
    match Obj.get termSentences term with Some l => l | None => [] end in
  let targetSentence := hd EmptyString relatedSentences in
  let sentenceIndex := indexOf sentences targetSentence in
  let context :=
    if ((0 <? sentenceIndex)%Z
        && (sentenceIndex <? Z.of_nat (List.length sentences) - 1)%Z)%bool
    then (nth (Z.to_nat (sentenceIndex - 1)) sentences EmptyString ++ ". "
          ++ targetSentence ++ ". "
          ++ nth (Z.to_nat (sentenceIndex + 1)) sentences EmptyString)%string
    else targetSentence in
  let correctAnswer := 0 in
  let question :=
    if isPhrase term
    then ("Which of the following best describes " ++ dquote ++ term
          ++ dquote ++ " as mentioned in the document?")%string
    else ("According to the document, what is true about " ++ term ++ "?")%string in
  let options :=
    if isPhrase term then phraseOptions term targetSentence
    else wordOptions term targetSentence in
  let shuffledOptions := shuffle index options in
  let newCorrectIndex :=
    indexOf shuffledOptions (nth correctAnswer options EmptyString) in
  mkMCQ (index + 1) question shuffledOptions newCorrectIndex context.

Definition generateMCQs (text : string) (keyTerms : list string) : list MCQ :=
  let sentences := splitSentences text in
  let questionsCount := Nat.min (List.length keyTerms) 10 in
  let termSentences := termSentencesOf sentences keyTerms in
  let selectedTerms := firstn questionsCount (Obj.keys termSentences) in
  mapi (makeMCQ sentences termSentences) selectedTerms.
End MCQ.

(* ================================================================== *)
(** ** Q&A generator                                                   *)
(* ================================================================== *)

Record QnA : Type := mkQnA {
  qna_id : nat;
  qna_question : string;
  qna_answer : string
}.

Definition newline : string := String (ascii_of_nat 10) EmptyString.

(** The loop that groups the sentences; [currentParagraph] is the
    paragraph being filled. *)
Fixpoint groupParagraphs (sentences currentParagraph : list string)
  : list (list string) :=
  match sentences with
  | [] => if 0 <? List.length currentParagraph then [currentParagraph] else []
  | sentence :: rest =>
      let currentParagraph := currentParagraph ++ [sentence] in
      if includes sentence newline || (String.length sentence <? 20) then
        if 0 <? List.length currentParagraph
        then currentParagraph :: groupParagraphs rest []
        else groupParagraphs rest currentParagraph
      else groupParagraphs rest currentParagraph
  end.

Definition questionVariants (term : string) : list string :=
  [ ("What is explained about " ++ term ++ " in the document?")%string;
    ("How does the document describe " ++ term ++ "?")%string;
    ("What information does the document provide about " ++ term ++ "?")%string;
    ("What role does " ++ term ++ " play according to the text?")%string ].

Definition mainTopicQuestion : string := "What is the main topic of this document?".
Definition conclusionQuestion : string := "What conclusion can be drawn from this document?".

(** The body of [keyTerms.slice(0, 8).forEach((term, termIndex) => ...)]:
    the item pushed for [term], if any. *)
Definition termQnA (paragraphs : list (list string)) (term : string) (termIndex : nat)
  : option QnA :=
  let relevantParagraphs :=
    filter (fun para => existsb (mentions term) para) paragraphs in
  match relevantParagraphs with
  | paragraph :: _ =>
      let answer := join " " paragraph in
      Some (mkQnA (termIndex + 1)
                  (nth (termIndex mod List.length (questionVariants term))
                       (questionVariants term) EmptyString)
                  (trim answer))
  | [] => None
  end.

Fixpoint somes {A : Type} (l : list (option A)) : list A :=
  match l with
  | [] => []
  | Some x :: l' => x :: somes l'
  | None :: l' => somes l'
  end.

Definition generateQnA (text : string) (keyTerms : list string) : list QnA :=
  let sentences := splitSentences text in
  let paragraphs := groupParagraphs sentences [] in
  let result := somes (mapi (termQnA paragraphs) (firstn 8 keyTerms)) in
  if 5 <? List.length sentences then
    let result :=
      result ++ [mkQnA (List.length result + 1) mainTopicQuestion
                       (join " " (firstn 3 sentences))] in
    if 10 <? List.length sentences then
      result ++ [mkQnA (List.length result + 1) conclusionQuestion
                       (join " " (lastn 3 sentences))]
    else result
  else result.

(* ================================================================== *)
(** ** Component state and handlers                                    *)
(* ================================================================== *)

(** An uploaded file: its declared type, and what the reader for that
    type (FileReader, Papa, mammoth, pdf.js) yields, the text or the
    message of the error it raises. *)
Record File : Type := mkFile {
  file_type : string;
  file_text : string + string
}.

(** The fields of the component the handlers below set, but for the
    progress bar and the status line, which follow a timer and the
    readers. *)
Record State : Type := mkState {
  file : option File;
  isLoading : bool;
  summary : string;
  mcqs : list MCQ;
  qna : list QnA;
  errorMessage : string;
  processingStage : string;
  documentTitle : string;
  keyTerms : list string
}.

Definition initialState : State :=
  mkState None false EmptyString [] [] EmptyString EmptyString EmptyString [].

Definition setFile v (s : State) : State :=
  mkState v (isLoading s) (summary s) (mcqs s) (qna s) (errorMessage s)
          (processingStage s) (documentTitle s) (keyTerms s).
Definition setIsLoading v (s : State) : State :=
  mkState (file s) v (summary s) (mcqs s) (qna s) (errorMessage s)
          (processingStage s) (documentTitle s) (keyTerms s).
Definition setSummary v (s : State) : State :=
  mkState (file s) (isLoading s) v (mcqs s) (qna s) (errorMessage s)
          (processingStage s) (documentTitle s) (keyTerms s).
Definition setMcqs v (s : State) : State :=
  mkState (file s) (isLoading s) (summary s) v (qna s) (errorMessage s)
          (processingStage s) (documentTitle s) (keyTerms s).
Definition setQna v (s : State) : State :=
  mkState (file s) (isLoading s) (summary s) (mcqs s) v (errorMessage s)
          (processingStage s) (documentTitle s) (keyTerms s).
Definition setErrorMessage v (s : State) : State :=
  mkState (file s) (isLoading s) (summary s) (mcqs s) (qna s) v
          (processingStage s) (documentTitle s) (keyTerms s).
Definition setProcessingStage v (s : State) : State :=
  mkState (file s) (isLoading s) (summary s) (mcqs s) (qna s) (errorMessage s)
          v (documentTitle s) (keyTerms s).
Definition setDocumentTitle v (s : State) : State :=
  mkState (file s) (isLoading s) (summary s) (mcqs s) (qna s) (errorMessage s)
          (processingStage s) v (keyTerms s).
Definition setKeyTerms v (s : State) : State :=
  mkState (file s) (isLoading s) (summary s) (mcqs s) (qna s) (errorMessage s)
          (processingStage s) (documentTitle s) v.

(** Setter calls in program order. *)
Notation "s '|>' f" := (f s) (at level 45, left associativity, only parsing).

Section Handlers.
Variable engineOrder : list (string * Count) -> list (string * Count).
Variable shuffle : nat -> list string -> list string.

(** [snapshot] is the state of the render the handler belongs to: the
    only field read is [keyTerms], by [generateSummary].  [st] is the
    state the setters act on.  None of the four stages throws, so the
    [catch] block is never entered. *)
Definition processDocument (snapshot st : State) (text : string) : State :=
  let st := st |> setProcessingStage "Analyzing document content..." in
  let terms := extractKeyTerms engineOrder text in
  let st := st |> setKeyTerms terms in
  let st := st |> setProcessingStage "Generating summary..." in
  let summaryText := generateSummary (keyTerms snapshot) text in
  let st := st |> setSummary summaryText in
  let st := st |> setProcessingStage "Creating multiple choice questions..." in
  let generatedMcqs := generateMCQs shuffle text terms in
  let st := st |> setMcqs generatedMcqs in
  let st := st |> setProcessingStage "Preparing questions and answers..." in
  let generatedQna := generateQnA text terms in
  let st := st |> setQna generatedQna in
  st |> setIsLoading false |> setProcessingStage EmptyString.

Definition validTypes : list string :=
  [ "text/plain";
    "application/pdf";
    "application/vnd.openxmlformats-officedocument.wordprocessingml.document";
    "text/csv" ].

(** The first statements of [handleFileUpload]. *)
Definition resetAll (st : State) : State :=
  st |> setErrorMessage EmptyString |> setProcessingStage EmptyString
     |> setSummary EmptyString |> setMcqs [] |> setQna [] |> setKeyTerms [].

(** [text.split('\n')]. *)
Fixpoint lines (text : string) : list string :=
  match text with
  | EmptyString => [EmptyString]
  | String c text' =>
      if code c =? 10 then EmptyString :: lines text'
      else match lines text' with
           | l :: ls => String c l :: ls
           | [] => [String c EmptyString]
           end
  end.

(** The text of the file, or the error rethrown by the handler of
    [extractTextFromFile]. *)
Definition extractTextFromFile (st : State) (uploadedFile : File)
  : State * (string + string) :=
  let fileType := file_type uploadedFile in
  match file_text uploadedFile with
  | inl text =>
      let nonEmpty := filter (fun line => 0 <? String.length (trim line)) (lines text) in
      let st := match nonEmpty with
                | line :: _ => st |> setDocumentTitle (trim line)
                | [] => st
                end in
      (st, inl text)
  | inr message =>
      (st, inr ("Failed to extract text from " ++ fileType ++ " file: " ++ message)%string)
  end.

(** [const [ setFileContent] = useState('')] binds the name to the state
    value, the empty string; the call [setFileContent(text)] raises a
    [TypeError] with this message (V8's wording). *)
Definition setFileContentError : string := "setFileContent is not a function".

(** [event] is [event.target.files[0]], [None] when the dialog was
    cancelled. *)
Definition handleFileUpload (st : State) (event : option File) : State :=
  let st := resetAll st in
  match event with
  | None => st
  | Some uploadedFile =>
      if negb (existsb (String.eqb (file_type uploadedFile)) validTypes) then
        st |> setErrorMessage "Please upload a text, PDF, Word document, or CSV file"
      else
        let st := st |> setFile (Some uploadedFile) |> setIsLoading true in
        let st := st |> setProcessingStage "Extracting text..." in
        match extractTextFromFile st uploadedFile with
        | (st, inl text) =>
            (* setFileContent(text) throws before processDocument is reached *)
            let message :=
              if 0 <? String.length setFileContentError then setFileContentError
              else "Error processing file" in
            st |> setErrorMessage message |> setIsLoading false
        | (st, inr message) =>
            let message :=
              if 0 <? String.length message then message
              else "Error processing file" in
            st |> setErrorMessage message |> setIsLoading false
        end
  end.
End Handlers.

(* ================================================================== *)
(** ** Vocabulary of the properties                                    *)
(* ================================================================== *)

Definition not_sentence_end (c : ascii) : bool := negb (is_sentence_end c).

Definition piece_of (text s : string) : Prop :=
  exists pre post, text = (pre ++ s ++ post)%string.

(** [s.split(/[d]/)]: the text cut at every delimiter, so that two
    delimiters in a row have an empty piece between them. *)
Fixpoint splitEach (d : ascii -> bool) (s : string) : list string :=
  match s with
  | EmptyString => [EmptyString]
  | String c s' =>
      if d c then EmptyString :: splitEach d s'
      else match splitEach d s' with
           | p :: ps => String c p :: ps
           | [] => [String c EmptyString]
           end
  end.

(** The key term has a sentence that mentions it. *)
Definition matched (sentences : list string) (term : string) : bool :=
  existsb (mentions term) sentences.

(** The key term gets an own entry in [termSentences]. *)
Definition stored (sentences : list string) (term : string) : bool :=
  matched sentences term && negb (String.eqb term "__proto__").

(** What [termSentences] holds under a key: the sentences that mention
    it, at least one. *)
Definition well_stored (sentences : list string) (o : Obj.t (list string)) : Prop :=
  forall k v, Obj.get o k = Some v ->
              v = filter (mentions k) sentences /\ v <> [].

Definition questionAbout (term : string) : string :=
  if isPhrase term
  then ("Which of the following best describes " ++ dquote ++ term
        ++ dquote ++ " as mentioned in the document?")%string
  else ("According to the document, what is true about " ++ term ++ "?")%string.

Definition asks (question : string) (q : QnA) : bool :=
  String.eqb (qna_question q) question.

Definition no_space (k : string) : bool := forall_chars (fun c => negb (is_space c)) k.

(** The two phrase counters of a text made of one word. *)
Definition phraseCounts (lw : string) (a b : nat) : Obj.t Count :=
  [(bigram lw lw, Num a); (trigram lw lw lw, Num b)].

Definition uploadRejected : string :=
  "Please upload a text, PDF, Word document, or CSV file".

Definition sampleText : string :=
  "A cat is in. It is on a mat. We see it. Mammals have warm blood.".

Definition reverseShuffle (index : nat) (l : list string) : list string := rev l.

Definition sampleState : State :=
  mkState None false "An earlier summary."
          [mkMCQ 1 "Earlier question?" ["a"; "b"; "c"; "d"] 2 "a"]
          [mkQnA 1 "Earlier question?" "Earlier answer"]
          EmptyString EmptyString "Earlier title" ["earlier"].

Ltac by_cases_on_char c :=
  destruct c as [[] [] [] [] [] [] [] []]; vm_compute; try reflexivity; try discriminate.

(* ================================================================== *)
(** ** Vocabulary of the further properties                            *)
(* ================================================================== *)

(** A character that belongs to no sentence: white space or one of the
    delimiters. *)
Definition blank_or_delim (c : ascii) : bool := is_space c || is_sentence_end c.

(** The four options of an item, before the shuffle. *)
Definition optionsFor (term targetSentence : string) : list string :=
  if isPhrase term then phraseOptions term targetSentence
  else wordOptions term targetSentence.

(** A sentence after which [generateQnA] closes the paragraph. *)
Definition closesParagraph (sentence : string) : bool :=
  includes sentence newline || (String.length sentence <? 20).

(** The items [generateQnA] pushes for the key terms, and the number of
    generic items that follow them. *)
Definition termItems (sentences keyTerms : list string) : list QnA :=
  somes (mapi (termQnA (groupParagraphs sentences [])) (firstn 8 keyTerms)).

Definition genericCount (n : nat) : nat :=
  (if 5 <? n then 1 else 0) + (if 10 <? n then 1 else 0).

Definition isGeneric (q : QnA) : bool :=
  asks mainTopicQuestion q || asks conclusionQuestion q.

Definition mentionedIn (term : string) (paragraph : list string) : bool :=
  existsb (mentions term) paragraph.

(** Every counter that holds a string belongs to an inherited name. *)
Definition texts_inherited (o : Obj.t Count) : Prop :=
  forall k, In (k, Text) o -> Obj.inherited k = true.

(** The test that [countWords] applies to a word. *)
Definition counted (word : string) : bool := negb (isStopWord word) && qualifies word.

(** A string that [toLowerCase] leaves unchanged, character by character. *)
Definition lowercase (s : string) : bool :=
  forall_chars (fun c => Ascii.eqb (lower_char c) c) s.

(** A word, or two or three words that each pass the length test, joined
    by single spaces. *)
Definition madeOf (words : list string) (term : string) : Prop :=
  (In term words /\ isPhrase term = false)
  \/ (exists w0 w1,
         In w0 words /\ In w1 words /\ qualifies w0 = true /\ qualifies w1 = true
         /\ term = bigram w0 w1)
  \/ (exists w0 w1 w2,
         In w0 words /\ In w1 words /\ In w2 words
         /\ qualifies w0 = true /\ qualifies w1 = true /\ qualifies w2 = true
         /\ term = trigram w0 w1 w2).

(* ================================================================== *)
(** ** Export and rendering                                            *)
(* ================================================================== *)

(** [String.fromCharCode(n)]: the code unit [n] modulo 2^16; [None] when
    it is above 255, outside the strings modelled here. *)
Definition fromCharCode (n : Z) : option string :=
  let unit := (n mod 65536)%Z in
  if (unit <? 256)%Z
  then Some (String (ascii_of_nat (Z.to_nat unit)) EmptyString)
  else None.

(** An id inside a template literal: its decimal form. *)
Definition decimal (n : nat) : string := NilEmpty.string_of_uint (Nat.to_uint n).

(** [s || fallback] for a string [s]. *)
Definition orElse (s fallback : string) : string :=
  if 0 <? String.length s then s else fallback.

Fixpoint allSome {A : Type} (l : list (option A)) : option (list A) :=
  match l with
  | [] => Some []
  | None :: _ => None
  | Some x :: l' =>
      match allSome l' with
      | Some xs => Some (x :: xs)
      | None => None
      end
  end.

(** The line of an option, with its letter. *)
Definition optionLine (opt : string) (i : nat) : option string :=
  match fromCharCode (65 + Z.of_nat i) with
  | Some letter => Some ("   " ++ letter ++ ". " ++ opt)%string
  | None => None
  end.

Definition mcqBlock (mcq : MCQ) : option string :=
  match allSome (mapi optionLine (mcq_options mcq)),
        fromCharCode (65 + mcq_correctAnswer mcq) with
  | Some optionLines, Some letter =>
      Some (decimal (mcq_id mcq) ++ ". " ++ mcq_question mcq ++ newline
            ++ join newline optionLines ++ newline ++ newline
            ++ "Correct Answer: " ++ letter ++ newline)%string
  | _, _ => None
  end.

Definition qnaBlock (item : QnA) : string :=
  (decimal (qna_id item) ++ ". " ++ qna_question item ++ newline ++ newline
   ++ "Answer: " ++ qna_answer item ++ newline)%string.

(** The content and the name of the file that [downloadContent] hands to
    the browser. *)
Definition downloadContent (st : State) (activeTab : string) : option (string * string) :=
  let title := orElse (documentTitle st) "Untitled Document" in
  if String.eqb activeTab "summary" then
    Some (("DOCUMENT SUMMARY: " ++ title ++ newline ++ newline ++ summary st
           ++ newline ++ newline ++ "KEY TERMS:" ++ newline
           ++ join ", " (keyTerms st))%string,
          "document-summary.txt")
  else if String.eqb activeTab "mcqs" then
    match allSome (map mcqBlock (mcqs st)) with
    | Some blocks =>
        Some (("MULTIPLE CHOICE QUESTIONS FOR: " ++ title ++ newline ++ newline
               ++ join newline blocks)%string,
              "mcq-questions.txt")
    | None => None
    end
  else if String.eqb activeTab "qna" then
    Some (("QUESTIONS AND ANSWERS FOR: " ++ title ++ newline ++ newline
           ++ join newline (map qnaBlock (qna st)))%string,
          "question-answers.txt")
  else Some (EmptyString, EmptyString).

(** What the component renders of the upload area: the conditions of the
    JSX blocks. *)
Definition hasFile (st : State) : bool :=
  match file st with Some _ => true | None => false end.

Definition uploadBoxShown (st : State) : bool := negb (hasFile st) && negb (isLoading st).
Definition errorShown (st : State) : bool := 0 <? String.length (errorMessage st).
Definition loadingShown (st : State) : bool := isLoading st.
Definition documentShown (st : State) : bool := hasFile st && negb (isLoading st).

(** The component between two events: its state and the active tab. *)
Record UI : Type := mkUI {
  ui_state : State;
  ui_activeTab : string
}.

Definition initialUI : UI := mkUI initialState "summary".

Definition tabNames : list string := ["summary"; "mcqs"; "qna"].

(** What the user can do: choose a file in the upload box (or close the
    dialog), press one of the three tab buttons, press the download button
    of the active tab. *)
Inductive Event : Type :=
| SelectFile (chosen : option File)
| SelectTab (tab : string)
| Download.

(** The control of the event is rendered. *)
Definition enabled (ui : UI) (e : Event) : bool :=
  match e with
  | SelectFile _ => uploadBoxShown (ui_state ui)
  | SelectTab tab => documentShown (ui_state ui) && existsb (String.eqb tab) tabNames
  | Download =>
      documentShown (ui_state ui) && existsb (String.eqb (ui_activeTab ui)) tabNames
  end.

Definition react (ui : UI) (e : Event) : UI :=
  match e with
  | SelectFile chosen => mkUI (handleFileUpload (ui_state ui) chosen) (ui_activeTab ui)
  | SelectTab tab => mkUI (ui_state ui) tab
  | Download => ui
  end.

(** A sequence of events, each on a control that is rendered when it
    happens. *)
Fixpoint session (ui : UI) (events : list Event) : option UI :=
  match events with
  | [] => Some ui
  | e :: rest => if enabled ui e then session (react ui e) rest else None
  end.

Definition noOutput (st : State) : Prop :=
  summary st = EmptyString /\ mcqs st = [] /\ qna st = [] /\ keyTerms st = [].

Definition nonBlank (line : string) : bool := 0 <? String.length (trim line).

Definition optionLetters : list string := ["A"; "B"; "C"; "D"].

(** What holds between any two events of a session that starts with the
    component as mounted. *)
Definition quiet (ui : UI) : Prop :=
  noOutput (ui_state ui)
  /\ isLoading (ui_state ui) = false
  /\ In (ui_activeTab ui) tabNames
  /\ (hasFile (ui_state ui) = true -> errorShown (ui_state ui) = true).

Definition sampleSession : list Event :=
  [ SelectFile None;
    SelectFile (Some (mkFile "image/png" (inl "pixels")));
    SelectFile (Some (mkFile "text/plain" (inl sampleText)));
    SelectTab "mcqs";
    Download;
    SelectTab "qna" ].

(* ================================================================== *)
(** * Properties                                                       *)
(* ================================================================== *)

(** ** Strings *)

Lemma append_empty_r (s : string) : (s ++ EmptyString)%string = s.
Proof. induction s as [|c s IH]; simpl; [reflexivity | now rewrite IH]. Qed.

Lemma append_assoc (a b c : string) :
  ((a ++ b) ++ c)%string = (a ++ (b ++ c))%string.
Proof. induction a as [|x a IH]; simpl; [reflexivity | now rewrite IH]. Qed.

Lemma length_append (a b : string) :
  String.length (a ++ b) = String.length a + String.length b.
Proof. induction a as [|x a IH]; simpl; [reflexivity | now rewrite IH]. Qed.

Lemma forall_chars_append f (a b : string) :
  forall_chars f (a ++ b) = forall_chars f a && forall_chars f b.
Proof.
  induction a as [|x a IH]; simpl; [reflexivity|].
  now rewrite IH, andb_assoc.
Qed.

Lemma map_chars_append f (a b : string) :
  map_chars f (a ++ b) = (map_chars f a ++ map_chars f b)%string.
Proof. induction a as [|x a IH]; simpl; [reflexivity | now rewrite IH]. Qed.

Lemma filter_chars_append f (a b : string) :
  filter_chars f (a ++ b) = (filter_chars f a ++ filter_chars f b)%string.
Proof.
  induction a as [|x a IH]; simpl; [reflexivity|].
  destruct (f x); simpl; now rewrite IH.
Qed.

Lemma filter_chars_all f (s : string) :
  forall_chars f s = true -> filter_chars f s = s.
Proof.
  induction s as [|c s IH]; simpl; [reflexivity|].
  intros H. apply andb_prop in H as [Hc Hs]. rewrite Hc. now rewrite IH.
Qed.

Lemma forall_chars_impl (f g : ascii -> bool) (s : string) :
  (forall c, f c = true -> g c = true) ->
  forall_chars f s = true -> forall_chars g s = true.
Proof.
  intros Hfg. induction s as [|c s IH]; simpl; [reflexivity|].
  intros H. apply andb_prop in H as [Hc Hs]. now rewrite (Hfg _ Hc), IH.
Qed.

(** ** Sentence splitting *)

Lemma split_on_delim_head d c (s : string) :
  d c = true -> exists ps, split_on d (String c s) = EmptyString :: ps.
Proof.
  revert c. induction s as [|c' s' IH]; intros c Hd; simpl; rewrite Hd.
  - now eexists.
  - destruct (d c') eqn:Hd'; [|now eexists].
    destruct (IH c' Hd') as [ps Hps]. simpl in Hps. rewrite Hd' in Hps.
    now exists ps.
Qed.

(** The first piece of a split is a prefix of the text. *)
Lemma split_on_head d (s : string) :
  exists p ps post,
    split_on d s = p :: ps /\ s = (p ++ post)%string
    /\ forall_chars (fun c => negb (d c)) p = true.
Proof.
  induction s as [|c s IH].
  - exists EmptyString, [], EmptyString. now simpl.
  - destruct (d c) eqn:Hd.
    + destruct (split_on_delim_head d c s Hd) as [ps Hps].
      exists EmptyString, ps, (String c s). now rewrite Hps.
    + destruct IH as (p & ps & post & Hsplit & Hs & Hp). simpl.
      rewrite Hd, Hsplit. exists (String c p), ps, post.
      simpl. rewrite Hd, Hp, Hs. now simpl.
Qed.

Lemma piece_of_cons c text s : piece_of text s -> piece_of (String c text) s.
Proof. intros (pre & post & ->). now exists (String c pre), post. Qed.

Lemma split_on_pieces d (text : string) :
  Forall (fun s => forall_chars (fun c => negb (d c)) s = true /\ piece_of text s)
         (split_on d text).
Proof.
  induction text as [|c s IH].
  - simpl. constructor; [|constructor]. split; [reflexivity|].
    now exists EmptyString, EmptyString.
  - assert (IH' : Forall (fun p => forall_chars (fun c => negb (d c)) p = true
                                   /\ piece_of (String c s) p) (split_on d s)).
    { eapply Forall_impl; [|exact IH]. intros a [Ha Hp]. split; [assumption|].
      now apply piece_of_cons. }
    assert (Hempty : forall_chars (fun c => negb (d c)) EmptyString = true
                     /\ piece_of (String c s) EmptyString).
    { split; [reflexivity|]. now exists EmptyString, (String c s). }
    simpl. destruct (d c) eqn:Hd.
    + destruct s as [|c' s'].
      * constructor; assumption.
      * destruct (d c'); [assumption | constructor; assumption].
    + destruct (split_on_head d s) as (p & ps & post & Hsplit & Hs & Hp).
      rewrite Hsplit in *. inversion IH' as [|? ? _ Hps]; subst.
      constructor; [|exact Hps]. split.
      * simpl. now rewrite Hd, Hp.
      * exists EmptyString, post. reflexivity.
Qed.

Lemma trim_blank (s : string) :
  (0 <? String.length (trim s)) = true -> trim s <> EmptyString.
Proof. destruct (trim s); simpl; [discriminate | discriminate]. Qed.

Example splitSentences_ex :
  splitSentences "Cats purr. Dogs bark!  ?" = ["Cats purr"; " Dogs bark"].
Proof. reflexivity. Qed.

(** C7, as stated, fails: the sentences are filtered on their trimmed
    form but kept as they were cut, so the second sentence of this text
    keeps the space that follows the full stop. *)
Lemma splitSentences_not_trimmed :
  ~ Forall (fun s => trim s = s) (splitSentences "Cats purr. Dogs bark.").
Proof.
  intros H. vm_compute in H.
  inversion H as [|? ? _ H']; subst. inversion H' as [|? ? E _]; subst.
  discriminate E.
Qed.

Lemma splitSentences_pieces_of (text : string) :
  Forall (fun s => forall_chars not_sentence_end s = true
                   /\ trim s <> EmptyString
                   /\ piece_of text s)
         (splitSentences text).
Proof.
  unfold splitSentences. apply Forall_forall. intros s Hs.
  apply filter_In in Hs as [Hin Hblank].
  pose proof (split_on_pieces is_sentence_end text) as Hall.
  rewrite Forall_forall in Hall. destruct (Hall s Hin) as [Hd Hp].
  repeat split; [exact Hd | now apply trim_blank | exact Hp].
Qed.

Lemma splitEach_head d (s : string) : exists p ps, splitEach d s = p :: ps.
Proof.
  induction s as [|c s (p & ps & IH)]; simpl; [now do 2 eexists|].
  destruct (d c); [now do 2 eexists|]. rewrite IH. now do 2 eexists.
Qed.

(** Cutting at every delimiter goes through a delimiter. *)
Lemma splitEach_app d (a : string) c (b : string) :
  d c = true ->
  splitEach d (a ++ String c b) = splitEach d a ++ splitEach d b.
Proof.
  intros Hc. induction a as [|x a IH]; simpl.
  - now rewrite Hc.
  - destruct (d x); [now rewrite IH|]. rewrite IH.
    destruct (splitEach_head d a) as (p & ps & ->). reflexivity.
Qed.

(** Cutting at the runs of delimiters and cutting at every delimiter
    differ by empty pieces only. *)
Lemma split_on_splitEach d (f : string -> bool) (s : string) :
  f EmptyString = false ->
  exists p ps qs,
    split_on d s = p :: ps /\ splitEach d s = p :: qs /\ filter f ps = filter f qs.
Proof.
  intros Hf. induction s as [|c s IH].
  - exists EmptyString, [], []. now simpl.
  - destruct IH as (p & ps & qs & E1 & E2 & E3).
    assert (Hcons : filter f (p :: ps) = filter f (p :: qs))
      by (simpl; now rewrite E3).
    cbn [splitEach split_on]. destruct (d c) eqn:Hc.
    + rewrite E2. destruct s as [|c' s'].
      * rewrite E1. now exists EmptyString, (p :: ps), (p :: qs).
      * destruct (d c') eqn:Hc'.
        -- destruct (split_on_delim_head d c' s' Hc') as [ps0 Hps0].
           rewrite Hps0 in E1. injection E1 as <- <-.
           exists EmptyString, ps0, (EmptyString :: qs). repeat split.
           ++ exact Hps0.
           ++ simpl. now rewrite Hf.
        -- rewrite E1. now exists EmptyString, (p :: ps), (p :: qs).
    + rewrite E1, E2. now exists (String c p), ps, qs.
Qed.

Lemma splitSentences_each (text : string) :
  splitSentences text = filter nonBlank (splitEach is_sentence_end text).
Proof.
  unfold splitSentences.
  change (fun s : string => 0 <? String.length (trim s)) with nonBlank.
  destruct (split_on_splitEach is_sentence_end nonBlank text eq_refl)
    as (p & ps & qs & -> & -> & E).
  simpl. now rewrite E.
Qed.

Lemma split_on_free d (s : string) :
  forall_chars (fun c => negb (d c)) s = true -> split_on d s = [s].
Proof.
  induction s as [|c s IH]; simpl; [reflexivity|].
  intros H. apply andb_prop in H as [Hc Hs]. apply negb_true_iff in Hc.
  now rewrite Hc, (IH Hs).
Qed.

Lemma splitSentences_free (s : string) :
  forall_chars not_sentence_end s = true ->
  splitSentences s = if nonBlank s then [s] else [].
Proof.
  intros H. unfold splitSentences. rewrite (split_on_free _ _ H). reflexivity.
Qed.

Lemma splitSentences_app (a : string) c (b : string) :
  is_sentence_end c = true ->
  splitSentences (a ++ String c b) = splitSentences a ++ splitSentences b.
Proof.
  intros Hc. rewrite !splitSentences_each, (splitEach_app _ _ _ _ Hc).
  apply filter_app.
Qed.

(** C7, amended: the sentence list is the text cut at the delimiters
    [.], [!] and [?], with the blank pieces dropped and the others kept as
    they are, white space at their ends included.  A text [s] without
    delimiter is its own and only sentence, unless it is blank.  A
    delimiter [c] separates: the sentences of [a c b] are those of [a]
    followed by those of [b].  So the piece [s] between two delimiters is
    a sentence, as it stands, exactly when it is not blank.  These
    equations fix the list for every text.  Every sentence of a text holds
    no delimiter, has a character that is not white space, and is a
    substring of the text. *)
Theorem splitSentences_segments (text s a b : string) (c c' : ascii) :
  forall_chars not_sentence_end s = true ->
  is_sentence_end c = true ->
  is_sentence_end c' = true ->
  splitSentences s = (if nonBlank s then [s] else [])
  /\ splitSentences (a ++ String c b) = splitSentences a ++ splitSentences b
  /\ splitSentences (a ++ String c (s ++ String c' b))
     = splitSentences a ++ (if nonBlank s then [s] else []) ++ splitSentences b
  /\ Forall (fun sentence =>
               forall_chars not_sentence_end sentence = true
               /\ trim sentence <> EmptyString
               /\ piece_of text sentence)
            (splitSentences text).
Proof.
  intros Hs Hc Hc'. repeat split.
  - now apply splitSentences_free.
  - now apply splitSentences_app.
  - rewrite (splitSentences_app a c _ Hc), (splitSentences_app s c' b Hc').
    now rewrite (splitSentences_free s Hs).
  - apply splitSentences_pieces_of.
Qed.

Lemma splitSentences_segments_witness :
  splitSentences " Dogs bark" = [" Dogs bark"]
  /\ splitSentences "Cats purr. Birds sing?"
     = splitSentences "Cats purr" ++ splitSentences " Birds sing?"
  /\ splitSentences "Cats purr. Dogs bark! Birds sing?"
     = splitSentences "Cats purr" ++ [" Dogs bark"] ++ splitSentences " Birds sing?"
  /\ Forall (fun sentence =>
               forall_chars not_sentence_end sentence = true
               /\ trim sentence <> EmptyString
               /\ piece_of "Cats purr. Dogs bark! Birds sing?" sentence)
            (splitSentences "Cats purr. Dogs bark! Birds sing?").
Proof.
  apply (splitSentences_segments "Cats purr. Dogs bark! Birds sing?" " Dogs bark"
                                 "Cats purr" " Birds sing?" "."%char "!"%char);
    reflexivity.
Defined.

(** ** Arrays *)

Section MapiFacts.
Context {A B : Type}.

Lemma mapi_from_length (f : A -> nat -> B) l i :
  List.length (mapi_from i f l) = List.length l.
Proof. revert i. induction l as [|x l IH]; intros i; simpl; [reflexivity | now rewrite IH]. Qed.

Lemma mapi_length (f : A -> nat -> B) l : List.length (mapi f l) = List.length l.
Proof. apply mapi_from_length. Qed.

Lemma in_mapi_from (f : A -> nat -> B) l i y :
  In y (mapi_from i f l) <->
  exists k x, nth_error l k = Some x /\ y = f x (i + k).
Proof.
  revert i. induction l as [|a l IH]; intros i; simpl.
  - split; [contradiction|]. intros (k & x & H & _). now destruct k.
  - rewrite IH. split.
    + intros [<- | (k & x & Hk & ->)].
      * exists 0, a. now rewrite Nat.add_0_r.
      * exists (S k), x. split; [assumption|]. f_equal. lia.
    + intros (k & x & Hk & ->). destruct k as [|k]; simpl in Hk.
      * left. injection Hk as ->. now rewrite Nat.add_0_r.
      * right. exists k, x. split; [assumption|]. f_equal. lia.
Qed.

Lemma in_mapi (f : A -> nat -> B) l y :
  In y (mapi f l) <-> exists k x, nth_error l k = Some x /\ y = f x k.
Proof. unfold mapi. now rewrite in_mapi_from. Qed.

Lemma nth_mapi_from (f : A -> nat -> B) l i k d x :
  nth_error l k = Some x -> nth k (mapi_from i f l) d = f x (i + k).
Proof.
  revert i k. induction l as [|a l IH]; intros i [|k]; simpl; try discriminate.
  - intros [= ->]. now rewrite Nat.add_0_r.
  - intros H. rewrite (IH _ _ H). f_equal. lia.
Qed.
End MapiFacts.

Section SortFacts.
Context {A : Type}.
Variable le : A -> A -> bool.

Lemma insert_perm x l : Permutation (insert le x l) (x :: l).
Proof.
  induction l as [|y l IH]; simpl; [reflexivity|].
  destruct (le x y); [reflexivity|].
  rewrite IH. apply perm_swap.
Qed.

Lemma sort_perm l : Permutation (sort le l) l.
Proof.
  induction l as [|x l IH]; simpl; [reflexivity|].
  rewrite insert_perm. now constructor.
Qed.

Lemma sort_length l : List.length (sort le l) = List.length l.
Proof. apply Permutation_length, sort_perm. Qed.

Lemma sort_In x l : In x (sort le l) <-> In x l.
Proof.
  split; apply Permutation_in; [apply sort_perm | symmetry; apply sort_perm].
Qed.

Hypothesis le_total : forall x y, le x y = true \/ le y x = true.
Hypothesis le_trans : forall x y z, le x y = true -> le y z = true -> le x z = true.

(** [before x y]: [x] stood before [y] in the array that is sorted. *)
Variable before : A -> A -> Prop.

Lemma insert_sorted x l :
  StronglySorted (stable_lt le before) l -> Forall (before x) l ->
  StronglySorted (stable_lt le before) (insert le x l).
Proof.
  induction l as [|y l IH]; intros Hs Hb; simpl.
  - constructor; constructor.
  - apply StronglySorted_inv in Hs as [Hs Hy].
    inversion Hb as [|? ? Hxy Hbl]; subst.
    destruct (le x y) eqn:Hle.
    + constructor; [constructor; assumption|].
      constructor; [split; auto|].
      rewrite Forall_forall in *. intros z Hz. split.
      * apply le_trans with y; [assumption | apply (Hy z Hz)].
      * intros _. now apply Hbl.
    + constructor; [now apply IH|].
      rewrite Forall_forall in *. intros z Hz.
      apply (Permutation_in _ (insert_perm x l)) in Hz as [<- | Hz].
      * split; [|congruence]. destruct (le_total y x); congruence.
      * now apply Hy.
Qed.

Lemma sort_sorted l :
  StronglySorted before l -> StronglySorted (stable_lt le before) (sort le l).
Proof.
  induction l as [|x l IH]; intros Hs; simpl; [constructor|].
  apply StronglySorted_inv in Hs as [Hs Hx].
  apply insert_sorted; [now apply IH|].
  rewrite Forall_forall in *. intros z Hz. apply Hx. now apply sort_In.
Qed.
End SortFacts.

(** ** The sort of the engine *)

Section EngineSortFacts.
Context {A : Type}.
Variable compare : A -> A -> Z.

Lemma insertAt_perm (i : nat) (x : A) (l : list A) :
  Permutation (firstn i l ++ x :: skipn i l) (x :: l).
Proof.
  rewrite <- Permutation_middle. now rewrite firstn_skipn.
Qed.

Lemma binaryInsert_perm (sorted : list A) (pivot : A) :
  Permutation (binaryInsert compare sorted pivot) (pivot :: sorted).
Proof. apply insertAt_perm. Qed.

Lemma binaryInsertionSort_perm (rest run : list A) :
  Permutation (binaryInsertionSort compare run rest) (run ++ rest).
Proof.
  unfold binaryInsertionSort. revert run.
  induction rest as [|x rest IH]; intros run; simpl.
  - now rewrite app_nil_r.
  - rewrite IH, binaryInsert_perm. simpl. apply Permutation_middle.
Qed.

Lemma countAndMakeRun_perm (l : list A) :
  Permutation (fst (countAndMakeRun compare l) ++ snd (countAndMakeRun compare l)) l.
Proof.
  destruct l as [|a [|b rest]]; [reflexivity | reflexivity |].
  unfold countAndMakeRun. cbv zeta.
  destruct (compare b a <? 0)%Z; cbn [fst snd].
  - rewrite <- Permutation_rev. now rewrite firstn_skipn.
  - now rewrite firstn_skipn.
Qed.

(** The engine's sort rearranges the array, whatever the comparator. *)
Lemma engineSort_perm (l : list A) : Permutation (engineSort compare l) l.
Proof.
  unfold engineSort. pose proof (countAndMakeRun_perm l) as H.
  destruct (countAndMakeRun compare l) as [run rest]. simpl in H.
  now rewrite binaryInsertionSort_perm.
Qed.

(** *** With a consistent comparator *)

Variable P : A -> Prop.
Variable rank : A -> Z.
Variable le : A -> A -> bool.
Hypothesis compare_rank :
  forall x y, P x -> P y -> (compare x y < 0 <-> rank x < rank y)%Z.
Hypothesis le_rank :
  forall x y, P x -> P y -> (le x y = true <-> rank x <= rank y)%Z.

Lemma insertAfter_In x l z : In z (insertAfter compare x l) <-> z = x \/ In z l.
Proof.
  induction l as [|y l IH]; simpl; [intuition|].
  destruct (compare x y <? 0)%Z; simpl; [intuition | rewrite IH; intuition].
Qed.

Lemma insert_In x l z : In z (insert le x l) <-> z = x \/ In z l.
Proof.
  induction l as [|y l IH]; simpl; [intuition|].
  destruct (le x y); simpl; [intuition | rewrite IH; intuition].
Qed.

Lemma insertAfter_P x l : P x -> Forall P l -> Forall P (insertAfter compare x l).
Proof.
  intros Hx Hl. apply Forall_forall. intros z Hz.
  apply insertAfter_In in Hz as [-> | Hz]; [exact Hx|].
  rewrite Forall_forall in Hl. now apply Hl.
Qed.

Lemma ltb_rank x y : P x -> P y -> (compare x y <? 0)%Z = (rank x <? rank y)%Z.
Proof.
  intros Hx Hy. pose proof (compare_rank x y Hx Hy).
  destruct (compare x y <? 0)%Z eqn:E1, (rank x <? rank y)%Z eqn:E2; try reflexivity;
    rewrite ?Z.ltb_lt, ?Z.ltb_ge in *; lia.
Qed.

Lemma leb_rank x y : P x -> P y -> le x y = (rank x <=? rank y)%Z.
Proof.
  intros Hx Hy. pose proof (le_rank x y Hx Hy) as H.
  destruct (le x y) eqn:E1; symmetry.
  - apply Z.leb_le. now apply H.
  - apply Z.leb_gt. destruct (Z.le_gt_cases (rank x) (rank y)) as [L|G]; [|lia].
    apply H in L. congruence.
Qed.

(** An element that came first and an element that came later can be
    inserted in either order. *)
Lemma insert_insertAfter x y s :
  P x -> P y -> Forall P s ->
  insertAfter compare y (insert le x s) = insert le x (insertAfter compare y s).
Proof.
  intros Hx Hy Hs. induction s as [|z s IH]; simpl.
  - rewrite (ltb_rank y x), (leb_rank x y) by assumption.
    destruct (rank y <? rank x)%Z eqn:E1, (rank x <=? rank y)%Z eqn:E2; try reflexivity;
      rewrite ?Z.ltb_lt, ?Z.ltb_ge, ?Z.leb_le, ?Z.leb_gt in *; lia.
  - inversion Hs as [|? ? Hz Hs']; subst. specialize (IH Hs').
    rewrite (leb_rank x z), (ltb_rank y z) by assumption.
    destruct (rank x <=? rank z)%Z eqn:E1, (rank y <? rank z)%Z eqn:E2; simpl;
      rewrite ?(ltb_rank y x), ?(leb_rank x y), ?(leb_rank x z), ?(ltb_rank y z)
        by assumption;
      rewrite ?E1, ?E2;
      rewrite ?Z.ltb_lt, ?Z.ltb_ge, ?Z.leb_le, ?Z.leb_gt in E1, E2.
    + destruct (rank y <? rank x)%Z eqn:E3, (rank x <=? rank y)%Z eqn:E4; try reflexivity;
        rewrite ?Z.ltb_lt, ?Z.ltb_ge, ?Z.leb_le, ?Z.leb_gt in *; lia.
    + replace (rank y <? rank x)%Z with false by (symmetry; apply Z.ltb_ge; lia).
      reflexivity.
    + replace (rank x <=? rank y)%Z with false by (symmetry; apply Z.leb_gt; lia).
      reflexivity.
    + now rewrite IH.
Qed.

Lemma fold_insertAfter_P l s :
  Forall P l -> Forall P s -> Forall P (fold_left (fun acc y => insertAfter compare y acc) l s).
Proof.
  revert s. induction l as [|y l IH]; intros s Hl Hs; simpl; [exact Hs|].
  inversion Hl; subst. apply IH; [assumption|]. now apply insertAfter_P.
Qed.

Lemma insert_fold_insertAfter x l s :
  P x -> Forall P l -> Forall P s ->
  fold_left (fun acc y => insertAfter compare y acc) l (insert le x s)
  = insert le x (fold_left (fun acc y => insertAfter compare y acc) l s).
Proof.
  intros Hx. revert s. induction l as [|y l IH]; intros s Hl Hs; simpl; [reflexivity|].
  inversion Hl as [|? ? Hy Hl']; subst.
  rewrite insert_insertAfter by assumption.
  apply IH; [assumption|]. now apply insertAfter_P.
Qed.

(** Inserting the elements from left to right, each after its equals,
    gives the array that [sort] gives. *)
Lemma fold_insertAfter_sort l :
  Forall P l -> fold_left (fun acc y => insertAfter compare y acc) l [] = sort le l.
Proof.
  induction l as [|x l IH]; intros Hl; [reflexivity|].
  inversion Hl as [|? ? Hx Hl']; subst. simpl.
  change [x] with (insert le x []).
  rewrite insert_fold_insertAfter by (assumption || constructor).
  now rewrite IH.
Qed.

Lemma insertAfter_end x s :
  P x -> Forall P s -> Forall (fun z => rankUp rank z x) s -> insertAfter compare x s = s ++ [x].
Proof.
  intros Hx Hs Hup. induction s as [|z s IH]; [reflexivity|]. simpl.
  inversion Hs; subst. inversion Hup as [|? ? Hz Hup']; subst.
  rewrite ltb_rank by assumption. unfold rankUp in Hz.
  replace (rank x <? rank z)%Z with false by (symmetry; apply Z.ltb_ge; lia).
  now rewrite IH.
Qed.

Lemma sorted_app_inv (R : A -> A -> Prop) (l1 l2 : list A) :
  StronglySorted R (l1 ++ l2) ->
  StronglySorted R l1 /\ StronglySorted R l2
  /\ forall a b, In a l1 -> In b l2 -> R a b.
Proof.
  induction l1 as [|x l1 IH]; simpl; intros H.
  - repeat split; [constructor | exact H | intros a b []].
  - apply StronglySorted_inv in H as [H Hx]. destruct (IH H) as (H1 & H2 & H3).
    rewrite Forall_forall in Hx. repeat split; try assumption.
    + constructor; [assumption|]. apply Forall_forall. intros z Hz.
      apply Hx. apply in_or_app. now left.
    + intros a b [<- | Ha] Hb; [apply Hx, in_or_app; now right | now apply H3].
Qed.

Lemma sorted_app (R : A -> A -> Prop) (l1 l2 : list A) :
  StronglySorted R l1 -> StronglySorted R l2 ->
  (forall a b, In a l1 -> In b l2 -> R a b) ->
  StronglySorted R (l1 ++ l2).
Proof.
  intros H1 H2 H. induction l1 as [|x l1 IH]; simpl; [exact H2|].
  apply StronglySorted_inv in H1 as [H1 Hx]. constructor.
  - apply IH; [assumption|]. intros a b Ha Hb. apply H; [now right | assumption].
  - apply Forall_app. split; [assumption|]. apply Forall_forall. intros b Hb.
    apply H; [now left | assumption].
Qed.

(** An ascending run is left as it is. *)
Lemma fold_insertAfter_up l s :
  Forall P (s ++ l) -> StronglySorted (rankUp rank) (s ++ l) ->
  fold_left (fun acc y => insertAfter compare y acc) l s = s ++ l.
Proof.
  revert s. induction l as [|y l IH]; intros s HP Hs; simpl; [now rewrite app_nil_r|].
  apply Forall_app in HP as HP'. destruct HP' as [HPs HPl].
  inversion HPl as [|? ? Hy HPl']; subst.
  destruct (sorted_app_inv _ _ _ Hs) as (_ & _ & Hcross).
  rewrite insertAfter_end; try assumption.
  - rewrite IH; rewrite <- app_assoc; simpl; [reflexivity | assumption | assumption].
  - apply Forall_forall. intros z Hz. apply Hcross; [assumption | now left].
Qed.

(** A strictly descending run is reversed. *)
Lemma fold_insertAfter_down l s :
  Forall P (rev s ++ l) -> StronglySorted (rankDown rank) (rev s ++ l) ->
  fold_left (fun acc y => insertAfter compare y acc) l s = rev l ++ s.
Proof.
  revert s. induction l as [|y l IH]; intros s HP Hs; simpl; [reflexivity|].
  assert (E : insertAfter compare y s = y :: s).
  { destruct s as [|z s']; [reflexivity|]. simpl.
    destruct (sorted_app_inv _ _ _ Hs) as (_ & _ & Hcross).
    assert (Hzy : rankDown rank z y).
    { apply Hcross; [|now left]. simpl. apply in_or_app. right. now left. }
    rewrite Forall_forall in HP.
    rewrite ltb_rank.
    - unfold rankDown in Hzy.
      now replace (rank y <? rank z)%Z with true by (symmetry; apply Z.ltb_lt; lia).
    - apply HP. apply in_or_app. right. now left.
    - apply HP. apply in_or_app. left. simpl. apply in_or_app. right. now left. }
  rewrite E, IH.
  - now rewrite <- app_assoc.
  - simpl. now rewrite <- app_assoc.
  - simpl. now rewrite <- app_assoc.
Qed.

Lemma rankUp_trans : Relation_Definitions.transitive A (rankUp rank).
Proof. unfold rankUp. intros x y z. lia. Qed.

Lemma rankDown_trans : Relation_Definitions.transitive A (rankDown rank).
Proof. unfold rankDown. intros x y z. lia. Qed.

Lemma runTail_up previous rest :
  Forall P (previous :: rest) ->
  Sorted (rankUp rank) (previous :: firstn (runTail compare false previous rest) rest).
Proof.
  revert previous. induction rest as [|current rest IH]; intros previous HP; simpl.
  - repeat constructor.
  - inversion HP as [|? ? Hp HP']; subst. inversion HP' as [|? ? Hc _]; subst.
    rewrite ltb_rank by assumption.
    destruct (rank current <? rank previous)%Z eqn:E; simpl.
    + repeat constructor.
    + constructor; [now apply IH|]. constructor. unfold rankUp.
      apply Z.ltb_ge in E. lia.
Qed.

Lemma runTail_down previous rest :
  Forall P (previous :: rest) ->
  Sorted (rankDown rank) (previous :: firstn (runTail compare true previous rest) rest).
Proof.
  revert previous. induction rest as [|current rest IH]; intros previous HP; simpl.
  - repeat constructor.
  - inversion HP as [|? ? Hp HP']; subst. inversion HP' as [|? ? Hc _]; subst.
    replace (0 <=? compare current previous)%Z
      with (negb (compare current previous <? 0)%Z)
      by (destruct (compare current previous <? 0)%Z eqn:E1,
                   (0 <=? compare current previous)%Z eqn:E2; try reflexivity;
          rewrite ?Z.ltb_lt, ?Z.ltb_ge, ?Z.leb_le, ?Z.leb_gt in *; lia).
    rewrite ltb_rank by assumption.
    destruct (rank current <? rank previous)%Z eqn:E; simpl.
    + constructor; [now apply IH|]. constructor. unfold rankDown.
      apply Z.ltb_lt in E. lia.
    + repeat constructor.
Qed.

(** The run made by [countAndMakeRun] is what inserting its elements one
    by one gives. *)
Lemma countAndMakeRun_fold (l : list A) :
  Forall P l ->
  let (run, rest) := countAndMakeRun compare l in
  fold_left (fun acc y => insertAfter compare y acc) l []
  = fold_left (fun acc y => insertAfter compare y acc) rest run.
Proof.
  intros HP. destruct l as [|a [|b rest]]; [reflexivity | reflexivity |].
  unfold countAndMakeRun. cbv zeta.
  set (n := 2 + runTail compare (compare b a <? 0)%Z b rest).
  rewrite <- (firstn_skipn n (a :: b :: rest)) at 1.
  rewrite fold_left_app. f_equal.
  assert (HPn : Forall P (firstn n (a :: b :: rest))).
  { apply Forall_forall. intros z Hz. rewrite Forall_forall in HP. apply HP.
    rewrite <- (firstn_skipn n (a :: b :: rest)). apply in_or_app. now left. }
  inversion HP as [|? ? Ha HP']; subst. inversion HP' as [|? ? Hb _]; subst.
  destruct (compare b a <? 0)%Z eqn:E.
  - rewrite (fold_insertAfter_down _ []); [now rewrite app_nil_r | exact HPn |].
    subst n. cbn [plus firstn rev app].
    apply Sorted_StronglySorted; [apply rankDown_trans|].
    constructor; [now apply runTail_down|]. constructor. unfold rankDown.
    rewrite ltb_rank in E by assumption. now apply Z.ltb_lt in E.
  - apply (fold_insertAfter_up _ []); [exact HPn|].
    subst n. cbn [plus firstn app].
    apply Sorted_StronglySorted; [apply rankUp_trans|].
    constructor; [now apply runTail_up|]. constructor. unfold rankUp.
    rewrite ltb_rank in E by assumption. apply Z.ltb_ge in E. lia.
Qed.

Lemma insertAfter_up x s :
  P x -> Forall P s -> StronglySorted (rankUp rank) s -> StronglySorted (rankUp rank) (insertAfter compare x s).
Proof.
  intros Hx Hs Hup. induction s as [|z s IH]; simpl; [repeat constructor|].
  inversion Hs as [|? ? Hz Hs']; subst.
  apply StronglySorted_inv in Hup as [Hup Hzs].
  rewrite ltb_rank by assumption.
  destruct (rank x <? rank z)%Z eqn:E.
  - apply Z.ltb_lt in E. constructor; [now constructor|].
    constructor; [unfold rankUp; lia|].
    rewrite Forall_forall in *. intros w Hw. specialize (Hzs w Hw).
    unfold rankUp in *. lia.
  - apply Z.ltb_ge in E. constructor; [now apply IH|].
    apply Forall_forall. intros w Hw. apply insertAfter_In in Hw as [-> | Hw].
    + exact E.
    + rewrite Forall_forall in Hzs. now apply Hzs.
Qed.

Lemma half_lt n : 0 < n -> n / 2 < n.
Proof. intros H. apply Nat.div_lt; lia. Qed.

Lemma up_nth (l : list A) (d : A) i j :
  StronglySorted (rankUp rank) l -> i <= j -> j < List.length l ->
  rankUp rank (nth i l d) (nth j l d).
Proof.
  intros Hs. revert i j. induction Hs as [|x l Hs IH Hx]; intros i j Hij Hj.
  - simpl in Hj. lia.
  - destruct j as [|j]; [replace i with 0 by lia; unfold rankUp; simpl; lia|].
    destruct i as [|i]; simpl in *.
    + rewrite Forall_forall in Hx. apply Hx. apply nth_In. lia.
    + apply IH; lia.
Qed.

Lemma insertionPoint_spec (sorted : list A) (pivot : A) fuel left right :
  Forall P sorted -> P pivot -> StronglySorted (rankUp rank) sorted ->
  left <= right -> right <= List.length sorted -> right - left <= fuel ->
  (forall j, j < left -> rankUp rank (nth j sorted pivot) pivot) ->
  (forall j, right <= j -> j < List.length sorted ->
             (rank pivot < rank (nth j sorted pivot))%Z) ->
  let i := insertionPoint compare fuel sorted pivot left right in
  i <= List.length sorted
  /\ (forall j, j < i -> rankUp rank (nth j sorted pivot) pivot)
  /\ (forall j, i <= j -> j < List.length sorted ->
                (rank pivot < rank (nth j sorted pivot))%Z).
Proof.
  intros HP Hp Hs. revert left right.
  induction fuel as [|fuel IH]; intros left right Hlr Hr Hfuel Hlow Hhigh;
    cbn [insertionPoint]; cbv zeta.
  - assert (left = right) by lia. subst. repeat split; [lia | assumption | assumption].
  - destruct (left <? right) eqn:E.
    2:{ apply Nat.ltb_ge in E. assert (left = right) by lia. subst.
        repeat split; [lia | assumption | assumption]. }
    apply Nat.ltb_lt in E.
    pose proof (half_lt (right - left) ltac:(lia)) as Hhalf.
    set (mid := left + (right - left) / 2) in *.
    assert (Hmid : left <= mid /\ mid < right) by (subst mid; lia).
    assert (HPm : P (nth mid sorted pivot)).
    { rewrite Forall_forall in HP. apply HP. apply nth_In. lia. }
    rewrite ltb_rank by assumption.
    destruct (rank pivot <? rank (nth mid sorted pivot))%Z eqn:Ec.
    + apply Z.ltb_lt in Ec. apply IH; try lia; [assumption|].
      intros j Hj Hjl.
      pose proof (up_nth sorted pivot mid j Hs Hj Hjl) as Hup. unfold rankUp in Hup. lia.
    + apply Z.ltb_ge in Ec. apply IH; try lia; [|assumption].
      intros j Hj.
      pose proof (up_nth sorted pivot j mid Hs ltac:(lia) ltac:(lia)) as Hup.
      unfold rankUp in *. lia.
Qed.

Lemma insertAfter_at (l : list A) (x : A) i :
  P x -> Forall P l -> i <= List.length l ->
  (forall j, j < i -> rankUp rank (nth j l x) x) ->
  (forall j, i <= j -> j < List.length l -> (rank x < rank (nth j l x))%Z) ->
  insertAfter compare x l = firstn i l ++ x :: skipn i l.
Proof.
  intros Hx. revert i. induction l as [|y l IH]; intros i HP Hi Hlow Hhigh.
  - simpl in Hi. now replace i with 0 by lia.
  - inversion HP as [|? ? Hy HP']; subst. simpl. rewrite ltb_rank by assumption.
    destruct i as [|i].
    + specialize (Hhigh 0 ltac:(lia) ltac:(simpl; lia)). simpl in Hhigh.
      now replace (rank x <? rank y)%Z with true by (symmetry; apply Z.ltb_lt; lia).
    + pose proof (Hlow 0 ltac:(lia)) as H0. unfold rankUp in H0. simpl in H0.
      replace (rank x <? rank y)%Z with false by (symmetry; apply Z.ltb_ge; lia).
      simpl. f_equal. apply IH; [assumption | simpl in Hi; lia | |].
      * intros j Hj. apply (Hlow (S j)). lia.
      * intros j Hj Hjl. apply (Hhigh (S j)); simpl; lia.
Qed.

(** In a sorted array the binary search finds the place the linear
    search finds. *)
Lemma binaryInsert_insertAfter (sorted : list A) (pivot : A) :
  Forall P sorted -> P pivot -> StronglySorted (rankUp rank) sorted ->
  binaryInsert compare sorted pivot = insertAfter compare pivot sorted.
Proof.
  intros HP Hp Hs. unfold binaryInsert.
  destruct (insertionPoint_spec sorted pivot (List.length sorted) 0 (List.length sorted)
              HP Hp Hs) as (Hi & Hlow & Hhigh); try lia.
  cbv zeta. symmetry. now apply insertAfter_at.
Qed.

Lemma binaryInsertionSort_fold (rest run : list A) :
  Forall P run -> Forall P rest -> StronglySorted (rankUp rank) run ->
  binaryInsertionSort compare run rest
  = fold_left (fun acc y => insertAfter compare y acc) rest run.
Proof.
  unfold binaryInsertionSort. revert run.
  induction rest as [|y rest IH]; intros run HPr HPt Hs; simpl; [reflexivity|].
  inversion HPt as [|? ? Hy HPt']; subst.
  rewrite binaryInsert_insertAfter by assumption.
  apply IH; [now apply insertAfter_P | assumption | now apply insertAfter_up].
Qed.

Lemma fold_insertAfter_sorted l s :
  Forall P l -> Forall P s -> StronglySorted (rankUp rank) s ->
  StronglySorted (rankUp rank) (fold_left (fun acc y => insertAfter compare y acc) l s).
Proof.
  revert s. induction l as [|y l IH]; intros s Hl HPs Hs; simpl; [exact Hs|].
  inversion Hl; subst.
  apply IH; [assumption | now apply insertAfter_P | now apply insertAfter_up].
Qed.

(** With a comparator that orders the elements by a rank, the engine's
    sort gives the array the stable insertion sort gives. *)
Theorem engineSort_sort (l : list A) :
  Forall P l -> engineSort compare l = sort le l.
Proof.
  intros HP. rewrite <- (fold_insertAfter_sort l HP).
  unfold engineSort.
  pose proof (countAndMakeRun_fold l HP) as Hrun.
  pose proof (countAndMakeRun_perm l) as Hperm.
  destruct (countAndMakeRun compare l) as [run rest] eqn:E. simpl in Hperm.
  assert (HPall : Forall P (run ++ rest)).
  { apply Forall_forall. intros z Hz. rewrite Forall_forall in HP. apply HP.
    now apply (Permutation_in _ Hperm). }
  apply Forall_app in HPall as [HPrun HPrest].
  rewrite Hrun. apply binaryInsertionSort_fold; try assumption.
  destruct l as [|a [|b tl]].
  - injection E as <- <-. constructor.
  - injection E as <- <-. repeat constructor.
  - unfold countAndMakeRun in E. cbv zeta in E.
    set (n := 2 + runTail compare (compare b a <? 0)%Z b tl) in *.
    assert (Hfold : run = fold_left (fun acc y => insertAfter compare y acc)
                                    (firstn n (a :: b :: tl)) []).
    { assert (HPn : Forall P (firstn n (a :: b :: tl))).
      { apply Forall_forall. intros z Hz. rewrite Forall_forall in HP. apply HP.
        rewrite <- (firstn_skipn n (a :: b :: tl)). apply in_or_app. now left. }
      inversion HP as [|? ? Ha HP']; subst. inversion HP' as [|? ? Hb _]; subst.
      destruct (compare b a <? 0)%Z eqn:Ec; injection E as <- _.
      - rewrite (fold_insertAfter_down _ []); [now rewrite app_nil_r | exact HPn |].
        subst n. cbn [plus firstn rev app].
        apply Sorted_StronglySorted; [apply rankDown_trans|].
        constructor; [now apply runTail_down|]. constructor. unfold rankDown.
        rewrite ltb_rank in Ec by assumption. now apply Z.ltb_lt in Ec.
      - symmetry. apply (fold_insertAfter_up _ []); [exact HPn|].
        subst n. cbn [plus firstn app].
        apply Sorted_StronglySorted; [apply rankUp_trans|].
        constructor; [now apply runTail_up|]. constructor. unfold rankUp.
        rewrite ltb_rank in Ec by assumption. apply Z.ltb_ge in Ec. lia. }
    rewrite Hfold. apply fold_insertAfter_sorted; [|constructor|constructor].
    apply Forall_forall. intros z Hz. rewrite Forall_forall in HP. apply HP.
    rewrite <- (firstn_skipn n (a :: b :: tl)). apply in_or_app. now left.
Qed.
End EngineSortFacts.

Section SortedFacts.
Context {A : Type} (R : A -> A -> Prop).

Lemma sorted_firstn k l : StronglySorted R l -> StronglySorted R (firstn k l).
Proof.
  revert k. induction l as [|x l IH]; intros [|k] Hs; simpl; try constructor.
  - apply IH. now apply StronglySorted_inv in Hs.
  - apply StronglySorted_inv in Hs as [_ Hx].
    rewrite Forall_forall in *. intros z Hz. apply Hx.
    rewrite <- (firstn_skipn k l). apply in_or_app. now left.
Qed.

(** In a sorted array, what [slice(0, k)] keeps stands before what it
    drops. *)
Lemma sorted_firstn_skipn k l x y :
  StronglySorted R l -> In x (firstn k l) -> In y (skipn k l) -> R x y.
Proof.
  revert k. induction l as [|a l IH]; intros [|k] Hs Hx Hy; simpl in *;
    try contradiction.
  apply StronglySorted_inv in Hs as [Hs Ha].
  destruct Hx as [<- | Hx].
  - rewrite Forall_forall in Ha. apply Ha.
    rewrite <- (firstn_skipn k l). apply in_or_app. now right.
  - now apply (IH k).
Qed.
End SortedFacts.

(** ** Summarizer *)

Lemma map_snd_mapi_from (l : list nat) i :
  map snd (mapi_from i (fun score index => (score, index)) l) = seq i (List.length l).
Proof. revert i. induction l as [|x l IH]; intros i; simpl; [reflexivity | now rewrite IH]. Qed.

Lemma indexed_sorted (l : list nat) i :
  StronglySorted (fun a b : nat * nat => snd a < snd b)
                 (mapi_from i (fun score index => (score, index)) l).
Proof.
  revert i. induction l as [|x l IH]; intros i; simpl; constructor; [apply IH|].
  apply Forall_forall. intros y Hy.
  apply in_mapi_from in Hy as (k & s & _ & ->). simpl. lia.
Qed.

Lemma in_indexed (l : list nat) s j :
  In (s, j) (mapi (fun score index => (score, index)) l) <-> nth_error l j = Some s.
Proof.
  rewrite in_mapi. split.
  - intros (k & x & Hk & E). now injection E as -> ->.
  - intros H. now exists j, s.
Qed.

Lemma combinedScores_length keyTerms sentences :
  List.length (combinedScores keyTerms sentences) = List.length sentences.
Proof. apply mapi_length. Qed.

(** The combined score of the sentence at [i]: position score times term
    score plus one. *)
Lemma combinedScores_nth keyTerms sentences i :
  i < List.length sentences ->
  nth i (combinedScores keyTerms sentences) 0 =
  positionScore (List.length sentences) i
  * (termScore keyTerms (nth i sentences EmptyString) + 1).
Proof.
  intros Hi. unfold combinedScores, positionScores, termScores, mapi.
  destruct (nth_error sentences i) as [x|] eqn:Hx.
  2:{ apply nth_error_None in Hx. lia. }
  rewrite (nth_mapi_from _ _ _ _ _ _ Hx). simpl.
  rewrite (nth_mapi_from _ _ _ _ _ _ Hx). simpl.
  rewrite (nth_error_nth _ _ _ Hx).
  now rewrite (nth_error_nth _ _ _ (map_nth_error (termScore keyTerms) _ _ Hx)).
Qed.

Lemma higherScoreFirst_total a b :
  higherScoreFirst a b = true \/ higherScoreFirst b a = true.
Proof. unfold higherScoreFirst. rewrite !Nat.leb_le. lia. Qed.

Lemma higherScoreFirst_trans a b c :
  higherScoreFirst a b = true -> higherScoreFirst b c = true ->
  higherScoreFirst a c = true.
Proof. unfold higherScoreFirst. rewrite !Nat.leb_le. lia. Qed.

Lemma leb_total a b : Nat.leb a b = true \/ Nat.leb b a = true.
Proof. rewrite !Nat.leb_le. lia. Qed.

Lemma leb_trans a b c : Nat.leb a b = true -> Nat.leb b c = true -> Nat.leb a c = true.
Proof. rewrite !Nat.leb_le. lia. Qed.

Lemma sorted_any {A : Type} (l : list A) : StronglySorted (fun _ _ => True) l.
Proof.
  induction l; constructor; [assumption|]. now apply Forall_forall.
Qed.

Lemma sorted_strict (l : list nat) :
  StronglySorted (stable_lt Nat.leb (fun _ _ => True)) l -> NoDup l ->
  StronglySorted lt l.
Proof.
  induction l as [|x l IH]; intros Hs Hn; constructor.
  - apply IH; [now apply StronglySorted_inv in Hs | now inversion Hn].
  - apply StronglySorted_inv in Hs as [_ Hx]. inversion Hn as [|? ? Hnx _]; subst.
    rewrite Forall_forall in *. intros y Hy.
    destruct (Hx y Hy) as [Hle _]. apply Nat.leb_le in Hle.
    assert (x <> y) by (intros ->; contradiction). lia.
Qed.

Lemma NoDup_firstn {A : Type} k (l : list A) : NoDup l -> NoDup (firstn k l).
Proof.
  intros H. rewrite <- (firstn_skipn k l) in H. now apply NoDup_app_remove_r in H.
Qed.

Lemma ceil_quarter n : n <= 4 * ((n + 3) / 4) < n + 4.
Proof.
  pose proof (Nat.div_mod_eq (n + 3) 4) as E.
  pose proof (Nat.mod_upper_bound (n + 3) 4 ltac:(lia)) as B.
  lia.
Qed.

Section Selection.
Variables (keyTerms : list string) (sentences : list string).

Lemma rankedScores_sorted :
StronglySorted (stable_lt higherScoreFirst (fun a b => snd a < snd b))
               (rankedScores keyTerms sentences).
Proof.
apply sort_sorted;
  [apply higherScoreFirst_total | apply higherScoreFirst_trans | apply indexed_sorted].
Qed.

Lemma in_rankedScores s j :
In (s, j) (rankedScores keyTerms sentences)
<-> j < List.length sentences /\ s = nth j (combinedScores keyTerms sentences) 0.
Proof.
unfold rankedScores. rewrite sort_In. unfold indexedScores. rewrite in_indexed.
split.
- intros H. split.
  + assert (Hsome : nth_error (combinedScores keyTerms sentences) j <> None)
      by congruence.
    apply nth_error_Some in Hsome. now rewrite combinedScores_length in Hsome.
  + now rewrite (nth_error_nth _ _ _ H).
- intros [Hj ->]. apply nth_error_nth'. now rewrite combinedScores_length.
Qed.

Lemma kept_ranked x :
In x (keptScores keyTerms sentences) -> In x (rankedScores keyTerms sentences).
Proof.
intros H. unfold keptScores in H.
rewrite <- (firstn_skipn (summaryLength (List.length sentences))
                         (rankedScores keyTerms sentences)).
apply in_or_app. now left.
Qed.

Lemma in_topIndexes j :
In j (topIndexes keyTerms sentences)
<-> In (nth j (combinedScores keyTerms sentences) 0, j) (keptScores keyTerms sentences).
Proof.
unfold topIndexes. rewrite sort_In, in_map_iff. split.
- intros ([s j'] & E & H). simpl in E. subst j'.
  destruct (proj1 (in_rankedScores s j) (kept_ranked _ H)) as [_ ->]. exact H.
- intros H. now exists (nth j (combinedScores keyTerms sentences) 0, j).
Qed.

Lemma topIndexes_length :
3 < List.length sentences ->
List.length (topIndexes keyTerms sentences) = summaryLength (List.length sentences).
Proof.
intros Hn. unfold topIndexes, keptScores, rankedScores, indexedScores.
rewrite sort_length, length_map, length_firstn, sort_length, mapi_length.
rewrite combinedScores_length.
unfold summaryLength. pose proof (ceil_quarter (List.length sentences)). lia.
Qed.

Lemma topIndexes_NoDup : NoDup (topIndexes keyTerms sentences).
Proof.
unfold topIndexes.
apply (Permutation_NoDup (Permutation_sym (sort_perm Nat.leb _))).
unfold keptScores. rewrite <- firstn_map. apply NoDup_firstn.
unfold rankedScores.
apply (Permutation_NoDup
         (Permutation_map snd (Permutation_sym (sort_perm higherScoreFirst _)))).
unfold indexedScores, mapi. rewrite map_snd_mapi_from. apply seq_NoDup.
Qed.

Lemma topIndexes_ascending : StronglySorted lt (topIndexes keyTerms sentences).
Proof.
apply sorted_strict; [|apply topIndexes_NoDup].
unfold topIndexes.
apply sort_sorted; [apply leb_total | apply leb_trans | apply sorted_any].
Qed.

Lemma topIndexes_bound :
Forall (fun i => i < List.length sentences) (topIndexes keyTerms sentences).
Proof.
apply Forall_forall. intros j Hj. apply in_topIndexes in Hj.
now apply kept_ranked, in_rankedScores in Hj.
Qed.

(** A sentence that beats a selected one, by its score or by coming
  first at equal score, is selected too. *)
Lemma topIndexes_closed i j :
i < List.length sentences -> In j (topIndexes keyTerms sentences) ->
nth j (combinedScores keyTerms sentences) 0 < nth i (combinedScores keyTerms sentences) 0
\/ (nth i (combinedScores keyTerms sentences) 0
    = nth j (combinedScores keyTerms sentences) 0 /\ i < j) ->
In i (topIndexes keyTerms sentences).
Proof.
intros Hi Hj Hbeats. apply in_topIndexes. apply in_topIndexes in Hj.
assert (Hr : In (nth i (combinedScores keyTerms sentences) 0, i)
                (rankedScores keyTerms sentences))
  by now apply in_rankedScores.
rewrite <- (firstn_skipn (summaryLength (List.length sentences))
                         (rankedScores keyTerms sentences)) in Hr.
apply in_app_or in Hr as [Hr | Hr]; [exact Hr | exfalso].
destruct (sorted_firstn_skipn _ _ _ _ _ rankedScores_sorted Hj Hr) as [Hle Hback].
unfold higherScoreFirst in Hle, Hback. simpl in Hle, Hback.
apply Nat.leb_le in Hle. rewrite Nat.leb_le in Hback.
destruct Hbeats as [Hlt | [Heq Hlt]]; [lia|].
assert (j < i) by (apply Hback; lia). lia.
Qed.
End Selection.

(** C6: with more than three sentences the summary is made of exactly
    max(ceil(n / 4), 3) of them, taken in ascending order of their index,
    and the selection prefers a higher combined score and, at equal
    score, the earlier sentence. *)
Theorem generateSummary_selection (keyTerms : list string) (text : string) :
  let sentences := splitSentences text in
  let n := List.length sentences in
  let scores := combinedScores keyTerms sentences in
  let selected := topIndexes keyTerms sentences in
  3 < n ->
  generateSummary keyTerms text
  = (join ". " (map (fun index => nth index sentences EmptyString) selected) ++ ".")%string
  /\ (exists k, n <= 4 * k < n + 4 /\ List.length selected = Nat.max k 3)
  /\ StronglySorted lt selected
  /\ Forall (fun i => i < n) selected
  /\ (forall i j, i < n -> In j selected ->
                  nth i scores 0 = nth j scores 0 -> i < j -> In i selected)
  /\ (forall i j, i < n -> In j selected ->
                  nth j scores 0 < nth i scores 0 -> In i selected).
Proof.
  intros sentences n scores selected Hn. repeat split.
  - unfold generateSummary. fold sentences. fold n.
    destruct (n <=? 3) eqn:E; [apply Nat.leb_le in E; lia | reflexivity].
  - exists ((n + 3) / 4). split; [apply ceil_quarter|].
    now apply topIndexes_length.
  - apply topIndexes_ascending.
  - apply topIndexes_bound.
  - intros i j Hi Hj Heq Hlt. apply (topIndexes_closed _ _ i j); auto.
  - intros i j Hi Hj Hlt. apply (topIndexes_closed _ _ i j); auto.
Qed.

Lemma generateSummary_selection_witness :
  let sentences := splitSentences "One. Two. Three. Four. Five key terms. Six." in
  let selected := topIndexes ["key terms"; "five"] sentences in
  3 < List.length sentences
  /\ generateSummary ["key terms"; "five"] "One. Two. Three. Four. Five key terms. Six."
     = (join ". " (map (fun index => nth index sentences EmptyString) selected) ++ ".")%string
  /\ StronglySorted lt selected.
Proof.
  assert (H : 3 < List.length
                    (splitSentences "One. Two. Three. Four. Five key terms. Six."))
    by (vm_compute; lia).
  split; [exact H|].
  pose proof (generateSummary_selection ["key terms"; "five"]
                "One. Two. Three. Four. Five key terms. Six." H) as (E & _ & S & _).
  split; [exact E | exact S].
Defined.

(** ** Objects *)

Section ObjFacts.
Context {V : Type}.
Implicit Types (o : Obj.t V) (k : string) (v : V).

Lemma get_set o k v k' :
  Obj.get (Obj.set o k v) k' = if String.eqb k k' then Some v else Obj.get o k'.
Proof.
  induction o as [|[k0 v0] o IH]; simpl.
  - reflexivity.
  - destruct (String.eqb_spec k0 k) as [->|Hne]; simpl.
    + destruct (String.eqb k k'); reflexivity.
    + rewrite IH. destruct (String.eqb_spec k0 k') as [->|Hne'].
      * destruct (String.eqb_spec k k'); congruence.
      * reflexivity.
Qed.

Lemma in_keys_set o k v k' :
  In k' (map fst (Obj.set o k v)) <-> k' = k \/ In k' (map fst o).
Proof.
  induction o as [|[k0 v0] o IH]; simpl.
  - intuition.
  - destruct (String.eqb_spec k0 k) as [->|Hne]; simpl; [intuition|].
    rewrite IH. intuition.
Qed.

Lemma NoDup_keys_set o k v :
  NoDup (map fst o) -> NoDup (map fst (Obj.set o k v)).
Proof.
  induction o as [|[k0 v0] o IH]; simpl; intros H.
  - constructor; [intros []|constructor].
  - inversion H as [|? ? Hn Ho]; subst.
    destruct (String.eqb_spec k0 k) as [->|Hne]; simpl.
    + now constructor.
    + constructor; [|now apply IH].
      rewrite in_keys_set. intros [->|Hin]; [congruence | contradiction].
Qed.

Lemma get_in_keys o k : In k (map fst o) -> exists v, Obj.get o k = Some v.
Proof.
  induction o as [|[k0 v0] o IH]; simpl; [contradiction|].
  intros [->|Hin].
  - rewrite String.eqb_refl. now eexists.
  - destruct (String.eqb k0 k); [now eexists | now apply IH].
Qed.

Lemma map_snd_indexed o :
  map snd (Obj.indexed o)
  = filter (fun kv => match Obj.array_index (fst kv) with
                      | Some _ => true | None => false end) o.
Proof.
  induction o as [|[k0 v0] o IH]; simpl; [reflexivity|].
  destruct (Obj.array_index k0); simpl; now rewrite IH.
Qed.

Lemma filter_split {A : Type} (f g : A -> bool) (l : list A) :
  (forall x, g x = negb (f x)) -> Permutation (filter f l ++ filter g l) l.
Proof.
  intros Hfg. induction l as [|x l IH]; simpl; [reflexivity|].
  rewrite Hfg. destruct (f x); simpl.
  - now constructor.
  - rewrite <- Permutation_middle. now constructor.
Qed.

(** Enumeration reorders the own properties and loses none. *)
Lemma entries_perm o : Permutation (Obj.entries o) o.
Proof.
  unfold Obj.entries, Obj.named.
  rewrite (Permutation_map snd (sort_perm Obj.index_le (Obj.indexed o))).
  rewrite map_snd_indexed. apply filter_split.
  intros [k v]. simpl. now destruct (Obj.array_index k).
Qed.

Lemma keys_perm o : Permutation (Obj.keys o) (map fst o).
Proof. unfold Obj.keys. apply Permutation_map, entries_perm. Qed.
End ObjFacts.

(** ** MCQ generator *)

Lemma filter_nonempty {A : Type} (f : A -> bool) (l : list A) :
(0 <? List.length (filter f l)) = existsb f l.
Proof.
induction l as [|x l IH]; simpl; [reflexivity|].
destruct (f x); simpl; [reflexivity | exact IH].
Qed.

Lemma filter_head_find {A : Type} (f : A -> bool) (l : list A) x r :
filter f l = x :: r -> find f l = Some x.
Proof.
induction l as [|y l IH]; simpl; [discriminate|].
destruct (f y); [now intros [= ->] | exact IH].
Qed.

Section TermSentences.
Variable sentences : list string.

Lemma step_cases o term :
  (stored sentences term = true
   /\ storeTerm sentences o term = Obj.set o term (filter (mentions term) sentences))
  \/ (stored sentences term = false /\ storeTerm sentences o term = o).
Proof.
  unfold storeTerm, stored, matched, Obj.assign. rewrite filter_nonempty.
  destruct (existsb (mentions term) sentences); simpl; [|now right].
  destruct (String.eqb term "__proto__"); simpl; [now right | now left].
Qed.

Lemma fold_step_keys keyTerms o k :
  In k (map fst (fold_left (storeTerm sentences) keyTerms o)) <->
  In k (map fst o) \/ (In k keyTerms /\ stored sentences k = true).
Proof.
  revert o. induction keyTerms as [|t ts IH]; intros o; simpl.
  - intuition.
  - rewrite IH. destruct (step_cases o t) as [[Hs ->] | [Hs ->]].
    + rewrite in_keys_set. intuition (subst; auto).
    + intuition (subst; auto). congruence.
Qed.

Lemma fold_step_NoDup keyTerms o :
  NoDup (map fst o) -> NoDup (map fst (fold_left (storeTerm sentences) keyTerms o)).
Proof.
  revert o. induction keyTerms as [|t ts IH]; intros o Ho; simpl; [exact Ho|].
  apply IH. destruct (step_cases o t) as [[_ ->] | [_ ->]];
    [now apply NoDup_keys_set | exact Ho].
Qed.

Lemma fold_step_well_stored keyTerms o :
  well_stored sentences o -> well_stored sentences (fold_left (storeTerm sentences) keyTerms o).
Proof.
  revert o. induction keyTerms as [|t ts IH]; intros o Ho; simpl; [exact Ho|].
  apply IH. destruct (step_cases o t) as [[Hs ->] | [_ ->]]; [|exact Ho].
  intros k v. rewrite get_set. destruct (String.eqb_spec t k) as [->|_].
  - intros [= <-]. split; [reflexivity|].
    unfold stored, matched in Hs. apply andb_prop in Hs as [Hm _].
    rewrite <- filter_nonempty in Hm.
    destruct (filter (mentions k) sentences); [discriminate | discriminate].
  - apply Ho.
Qed.

Lemma termSentencesOf_keys keyTerms k :
  In k (map fst (termSentencesOf sentences keyTerms)) <->
  In k keyTerms /\ stored sentences k = true.
Proof.
  unfold termSentencesOf. rewrite fold_step_keys. simpl. intuition.
Qed.

Lemma termSentencesOf_NoDup keyTerms :
  NoDup (map fst (termSentencesOf sentences keyTerms)).
Proof. apply (fold_step_NoDup keyTerms []). constructor. Qed.

Lemma termSentencesOf_well_stored keyTerms :
  well_stored sentences (termSentencesOf sentences keyTerms).
Proof. apply (fold_step_well_stored keyTerms []). intros k v. discriminate. Qed.

(** The entries are the distinct stored key terms. *)
Lemma termSentencesOf_length keyTerms :
  List.length (termSentencesOf sentences keyTerms)
  = List.length (nodup string_dec (filter (stored sentences) keyTerms)).
Proof.
  rewrite <- (length_map fst). apply Permutation_length.
  apply NoDup_Permutation; [apply termSentencesOf_NoDup | apply NoDup_nodup|].
  intros k. rewrite termSentencesOf_keys, nodup_In, filter_In. reflexivity.
Qed.
End TermSentences.

Lemma indexOf_In (l : list string) x :
In x l -> at_index l (indexOf l x) = Some x.
Proof.
unfold at_index. induction l as [|y l IH]; simpl; [contradiction|].
intros Hin. destruct (String.eqb_spec y x) as [->|Hne]; [reflexivity|].
destruct Hin as [->|Hin]; [congruence|]. specialize (IH Hin).
destruct (indexOf l x <? 0)%Z eqn:Hneg; [discriminate|].
apply Z.ltb_ge in Hneg.
replace (indexOf l x + 1 <? 0)%Z with false by (symmetry; apply Z.ltb_ge; lia).
replace (Z.to_nat (indexOf l x + 1)) with (S (Z.to_nat (indexOf l x))) by lia.
exact IH.
Qed.

(** C5: whatever rearrangement the shuffle makes, every generated item has
  four options, and the option at [correctAnswer] is the trimmed target
  sentence of the item's term: the first sentence that mentions it. *)
Theorem generateMCQs_correctAnswer
      (shuffle : nat -> list string -> list string)
      (Hshuffle : forall index l, Permutation l (shuffle index l))
      (text : string) (keyTerms : list string) :
Forall (fun q =>
          List.length (mcq_options q) = 4
          /\ exists term targetSentence,
              In term keyTerms
              /\ mcq_question q = questionAbout term
              /\ find (mentions term) (splitSentences text) = Some targetSentence
              /\ at_index (mcq_options q) (mcq_correctAnswer q)
                 = Some (trim targetSentence))
       (generateMCQs shuffle text keyTerms).
Proof.
apply Forall_forall. intros q Hq. unfold generateMCQs in Hq.
apply in_mapi in Hq as (index & term & Hterm & ->).
set (sentences := splitSentences text) in *.
set (o := termSentencesOf sentences keyTerms) in *.
apply nth_error_In in Hterm.
assert (Hkey : In term (map fst o)).
{ apply (Permutation_in _ (keys_perm o)).
  rewrite <- (firstn_skipn (Nat.min (List.length keyTerms) 10) (Obj.keys o)).
  apply in_or_app. now left. }
destruct (get_in_keys o term Hkey) as [v Hv].
destruct (termSentencesOf_well_stored sentences keyTerms term v Hv) as [Ev Hne].
apply termSentencesOf_keys in Hkey as [Hin _].
destruct v as [|target rest]; [congruence|].
symmetry in Ev. apply filter_head_find in Ev.
unfold makeMCQ. rewrite Hv. cbn [hd mcq_options mcq_correctAnswer mcq_question].
set (options := if isPhrase term then phraseOptions term target
                else wordOptions term target).
assert (H0 : nth 0 options EmptyString = trim target)
  by (subst options; destruct (isPhrase term); reflexivity).
assert (H4 : List.length options = 4)
  by (subst options; destruct (isPhrase term); reflexivity).
rewrite H0. split.
- now rewrite <- (Permutation_length (Hshuffle _ _)).
- exists term, target. repeat split; try assumption.
  apply indexOf_In. apply (Permutation_in _ (Hshuffle _ _)).
  rewrite <- H0. apply nth_In. lia.
Qed.

Lemma generateMCQs_correctAnswer_witness :
Forall (fun q =>
          List.length (mcq_options q) = 4
          /\ exists term targetSentence,
              In term ["cats"; "nothing"; "dogs bark"]
              /\ mcq_question q = questionAbout term
              /\ find (mentions term)
                      (splitSentences "Cats purr. Dogs bark loudly. Cats sleep.")
                 = Some targetSentence
              /\ at_index (mcq_options q) (mcq_correctAnswer q)
                 = Some (trim targetSentence))
       (generateMCQs (fun _ l => rev l)
                     "Cats purr. Dogs bark loudly. Cats sleep."
                     ["cats"; "nothing"; "dogs bark"]).
Proof.
apply (generateMCQs_correctAnswer (fun _ l => rev l)).
intros _ l. apply Permutation_rev.
Defined.

(** The number of items for any list of key terms: a term listed twice
  has one entry in [termSentences], the name [__proto__] has none. *)
Lemma items_of_distinct_terms
      (shuffle : nat -> list string -> list string)
      (text : string) (keyTerms : list string) :
List.length (generateMCQs shuffle text keyTerms)
= Nat.min 10 (List.length
                (nodup string_dec
                       (filter (stored (splitSentences text)) keyTerms))).
Proof.
unfold generateMCQs. rewrite mapi_length, length_firstn.
rewrite (Permutation_length (keys_perm _)), length_map.
rewrite termSentencesOf_length.
set (l := filter _ keyTerms).
assert (List.length (nodup string_dec l) <= List.length keyTerms).
{ transitivity (List.length l).
  - apply NoDup_incl_length; [apply NoDup_nodup|].
    intros x Hx. now apply nodup_In in Hx.
  - apply filter_length_le. }
lia.
Qed.

(** C8: for a list of key terms as [extractKeyTerms] returns them, with
  no term listed twice and without the name [__proto__], the number of
  items is the smaller of 10 and the number of key terms that some
  sentence mentions; a key term that no sentence mentions takes no
  place. *)
Theorem generateMCQs_count
      (shuffle : nat -> list string -> list string)
      (text : string) (keyTerms : list string) :
NoDup keyTerms ->
~ In "__proto__" keyTerms ->
List.length (generateMCQs shuffle text keyTerms)
= Nat.min 10 (List.length (filter (matched (splitSentences text)) keyTerms)).
Proof.
intros Hnodup Hproto. rewrite items_of_distinct_terms.
rewrite nodup_fixed_point by (now apply NoDup_filter).
do 2 f_equal. apply filter_ext_in. intros term Hin. unfold stored.
destruct (String.eqb_spec term "__proto__") as [->|Hne]; [contradiction|].
apply andb_true_r.
Qed.

(** ** Q&A generator *)

Lemma in_somes {A : Type} (l : list (option A)) x : In x (somes l) <-> In (Some x) l.
Proof.
induction l as [|[y|] l IH]; simpl.
- reflexivity.
- rewrite IH. split; intros [H|H]; auto; left; congruence.
- rewrite IH. split; [auto | intros [H|H]; [discriminate | assumption]].
Qed.

Lemma variant_not_generic term k :
nth k (questionVariants term) EmptyString <> mainTopicQuestion
/\ nth k (questionVariants term) EmptyString <> conclusionQuestion.
Proof.
unfold mainTopicQuestion, conclusionQuestion.
destruct k as [|[|[|[|k]]]]; simpl; try (destruct k; simpl);
  split; intros H; discriminate H.
Qed.

Lemma termQnA_question paragraphs term termIndex q :
termQnA paragraphs term termIndex = Some q ->
qna_question q <> mainTopicQuestion /\ qna_question q <> conclusionQuestion.
Proof.
unfold termQnA.
destruct (filter _ paragraphs); [discriminate|].
intros [= <-]. cbn [qna_question]. apply variant_not_generic.
Qed.

Lemma termItems_not_generic paragraphs keyTerms :
let result := somes (mapi (termQnA paragraphs) keyTerms) in
filter (asks mainTopicQuestion) result = []
/\ filter (asks conclusionQuestion) result = [].
Proof.
intros result.
assert (H : forall q, In q result ->
                      asks mainTopicQuestion q = false
                      /\ asks conclusionQuestion q = false).
{ intros q Hq. apply in_somes, in_mapi in Hq as (k & term & _ & E).
  symmetry in E. apply termQnA_question in E as [E1 E2].
  unfold asks. now rewrite !String.eqb_neq. }
split.
- induction result as [|q r IH]; [reflexivity|]. simpl.
  destruct (H q (or_introl eq_refl)) as [-> _]. apply IH.
  intros q' Hq'. apply H. now right.
- induction result as [|q r IH]; [reflexivity|]. simpl.
  destruct (H q (or_introl eq_refl)) as [_ ->]. apply IH.
  intros q' Hq'. apply H. now right.
Qed.

Lemma filter_nil_In {A : Type} (f : A -> bool) (l : list A) x :
filter f l = [] -> In x l -> f x = false.
Proof.
intros H Hx. destruct (f x) eqn:E; [|reflexivity].
assert (In x (filter f l)) by now apply filter_In.
rewrite H in *. contradiction.
Qed.

(** C9: the items asking the "main topic" question are one item, answered
  by the first three sentences joined, when there are more than five
  sentences, and none otherwise; the items asking the "conclusion"
  question are one item, answered by the last three sentences joined,
  when there are more than ten sentences, and none otherwise. *)
Theorem generateQnA_generic (text : string) (keyTerms : list string) :
let sentences := splitSentences text in
let result := generateQnA text keyTerms in
((exists q, In q result /\ qna_question q = mainTopicQuestion)
 <-> 5 < List.length sentences)
/\ map qna_answer (filter (asks mainTopicQuestion) result)
   = (if 5 <? List.length sentences then [join " " (firstn 3 sentences)] else [])
/\ ((exists q, In q result /\ qna_question q = conclusionQuestion)
    <-> 10 < List.length sentences)
/\ map qna_answer (filter (asks conclusionQuestion) result)
   = (if 10 <? List.length sentences then [join " " (lastn 3 sentences)] else []).
Proof.
intros sentences result.
assert (Hmain : map qna_answer (filter (asks mainTopicQuestion) result)
                = (if 5 <? List.length sentences
                   then [join " " (firstn 3 sentences)] else [])
                /\ map qna_answer (filter (asks conclusionQuestion) result)
                   = (if 10 <? List.length sentences
                      then [join " " (lastn 3 sentences)] else [])).
{ subst result. unfold generateQnA. fold sentences.
  destruct (termItems_not_generic (groupParagraphs sentences []) (firstn 8 keyTerms))
    as [E1 E2].
  set (items := somes _) in *.
  destruct (5 <? List.length sentences) eqn:H5.
  - destruct (10 <? List.length sentences) eqn:H10.
    + rewrite !filter_app, E1, E2. split; reflexivity.
    + rewrite !filter_app, E1, E2. split; reflexivity.
  - rewrite E1, E2.
    destruct (10 <? List.length sentences) eqn:H10; [|split; reflexivity].
    apply Nat.ltb_lt in H10. apply Nat.ltb_ge in H5. lia. }
destruct Hmain as [Hm Hc].
assert (Hex : forall question,
           (exists q, In q result /\ qna_question q = question)
           <-> filter (asks question) result <> []).
{ intros question. split.
  - intros (q & Hq & E) Hnil.
    apply (filter_nil_In _ _ q Hnil) in Hq. unfold asks in Hq.
    apply String.eqb_neq in Hq. contradiction.
  - intros Hne. destruct (filter (asks question) result) as [|q r] eqn:E;
      [contradiction|].
    assert (Hq : In q (filter (asks question) result))
      by (rewrite E; now left).
    apply filter_In in Hq as [Hq Ha]. exists q. split; [assumption|].
    now apply String.eqb_eq. }
repeat split; try assumption.
- intros H. apply Hex in H.
  destruct (5 <? List.length sentences) eqn:H5; [now apply Nat.ltb_lt|].
  destruct (filter (asks mainTopicQuestion) result); [contradiction | discriminate].
- intros H. apply Hex. apply Nat.ltb_lt in H. rewrite H in Hm.
  intros Hnil. rewrite Hnil in Hm. discriminate.
- intros H. apply Hex in H.
  destruct (10 <? List.length sentences) eqn:H10; [now apply Nat.ltb_lt|].
  destruct (filter (asks conclusionQuestion) result); [contradiction | discriminate].
- intros H. apply Hex. apply Nat.ltb_lt in H. rewrite H in Hc.
  intros Hnil. rewrite Hnil in Hc. discriminate.
Qed.

(** C3 does not hold of the code: a term item takes its id from the
  place of its term among the first eight key terms, skipped ones
  counted, and a generic item from the number of items.  Here the
  third and fourth key terms straddle a sentence end and are skipped:
  the ids 3 and 4 are missing and the id 7 is given twice. *)
Lemma generateQnA_ids_gap_and_repeat :
let text := "Solar panels convert light. Wind turbines spin fast. It is so. We do it. Go on up. He is in." in
forall engineOrder,
  map qna_id (generateQnA text (extractKeyTerms engineOrder text))
  = [1; 2; 5; 6; 7; 8; 7].
Proof. intros text engineOrder. vm_compute. reflexivity. Qed.

(** ** Handlers *)

Lemma resetAll_idempotent (st : State) : resetAll (resetAll st) = resetAll st.
Proof. reflexivity. Qed.

(** What a run of the pipeline stores: the summary is computed from the
  key terms of the snapshot, the questions from the terms just
  extracted. *)
Lemma processDocument_outputs engineOrder shuffle snapshot st text :
let st' := processDocument engineOrder shuffle snapshot st text in
let terms := extractKeyTerms engineOrder text in
keyTerms st' = terms
/\ summary st' = generateSummary (keyTerms snapshot) text
/\ mcqs st' = generateMCQs shuffle text terms
/\ qna st' = generateQnA text terms.
Proof. repeat split; reflexivity. Qed.

(** C2 does not hold of the code: [generateSummary] is called with the
  text alone and reads the [keyTerms] of the component state it was
  created with.  On a first upload that field is empty: every term
  score is 0 and the summary is the first three sentences, where the
  terms of the text select its fourth sentence. *)
Lemma processDocument_summary_ignores_terms :
forall engineOrder,
let terms := extractKeyTerms engineOrder sampleText in
let st' := processDocument engineOrder reverseShuffle initialState initialState sampleText in
  keyTerms st' = terms
  /\ summary st' = generateSummary [] sampleText
  /\ summary st' = "A cat is in.  It is on a mat.  We see it."
  /\ generateSummary terms sampleText
     = "A cat is in.  It is on a mat.  Mammals have warm blood."
  /\ map (termScore terms) (splitSentences sampleText) = [0; 0; 0; 5]
  /\ map (termScore (keyTerms initialState)) (splitSentences sampleText) = [0; 0; 0; 0].
Proof. intros engineOrder terms st'. repeat split; vm_compute; reflexivity. Qed.

(** The MCQs and the Q&A of a run depend on the text, on the engine and
  on the shuffle alone. *)
Lemma processDocument_questions_deterministic engineOrder shuffle snap1 st1 snap2 st2 text :
let r1 := processDocument engineOrder shuffle snap1 st1 text in
let r2 := processDocument engineOrder shuffle snap2 st2 text in
keyTerms r1 = keyTerms r2 /\ mcqs r1 = mcqs r2 /\ qna r1 = qna r2.
Proof. repeat split; reflexivity. Qed.

(** C10: the handler resets the outputs and the error message before it
  looks at the file, so its result does not depend on them; when the
  dialog was cancelled or the type of the file is not a supported one,
  the summary, the MCQs, the Q&A and the key terms are left empty, and
  the error message is empty in the first case and the rejection message
  in the second. *)
Theorem handleFileUpload_clears_first (st : State) (event : option File) :
(forall uploadedFile, event = Some uploadedFile ->
                      ~ In (file_type uploadedFile) validTypes) ->
let st' := handleFileUpload st event in
handleFileUpload (resetAll st) event = st'
/\ summary st' = EmptyString
/\ mcqs st' = []
/\ qna st' = []
/\ keyTerms st' = []
/\ errorMessage st'
   = match event with None => EmptyString | Some _ => uploadRejected end.
Proof.
intros Hbad st'. subst st'. split; [reflexivity|].
unfold handleFileUpload. destruct event as [f|]; [|repeat split].
destruct (existsb (String.eqb (file_type f)) validTypes) eqn:E.
- exfalso. apply existsb_exists in E as (x & Hx & Ex).
  apply String.eqb_eq in Ex. subst x. exact (Hbad f eq_refl Hx).
- repeat split.
Qed.

Lemma handleFileUpload_clears_first_witness :
let st' := handleFileUpload sampleState (Some (mkFile "image/png" (inl "pixels"))) in
summary st' = EmptyString /\ mcqs st' = [] /\ qna st' = [] /\ keyTerms st' = []
/\ errorMessage st' = uploadRejected.
Proof.
assert (Hbad : forall uploadedFile,
           Some (mkFile "image/png" (inl "pixels")) = Some uploadedFile ->
           ~ In (file_type uploadedFile) validTypes).
{ intros f [= <-]. simpl. intros [H|[H|[H|[H|[]]]]]; discriminate H. }
exact (proj2 (handleFileUpload_clears_first sampleState _ Hbad)).
Defined.

(** ** Term extraction *)

Lemma lower_char_word c : is_word c = true -> is_word (lower_char c) = true.
Proof. by_cases_on_char c. Qed.

Lemma lower_char_idempotent c : lower_char (lower_char c) = lower_char c.
Proof. by_cases_on_char c. Qed.

Lemma word_not_space c : is_word c = true -> is_space c = false.
Proof. by_cases_on_char c. Qed.

Lemma word_is_kept c : is_word c = true -> is_word c || is_space c = true.
Proof. intros ->. reflexivity. Qed.

Lemma toLowerCase_word w :
forall_chars is_word w = true -> forall_chars is_word (toLowerCase w) = true.
Proof.
unfold toLowerCase. induction w as [|c w IH]; simpl; [reflexivity|].
intros H. apply andb_prop in H as [Hc Hw]. now rewrite lower_char_word, IH.
Qed.

Lemma toLowerCase_idempotent w : toLowerCase (toLowerCase w) = toLowerCase w.
Proof.
unfold toLowerCase. induction w as [|c w IH]; simpl; [reflexivity|].
now rewrite lower_char_idempotent, IH.
Qed.

Lemma toLowerCase_length w : String.length (toLowerCase w) = String.length w.
Proof.
unfold toLowerCase. induction w as [|c w IH]; simpl; [reflexivity | now rewrite IH].
Qed.

Lemma join_repeat_S sep w n :
join sep (repeat w (S (S n))) = (w ++ sep ++ join sep (repeat w (S n)))%string.
Proof. reflexivity. Qed.

Lemma toLowerCase_join_repeat w n :
toLowerCase (join " " (repeat w (S n))) = join " " (repeat (toLowerCase w) (S n)).
Proof.
induction n as [|n IH]; [reflexivity|].
rewrite !join_repeat_S. unfold toLowerCase in *.
now rewrite !map_chars_append, IH.
Qed.

Lemma join_repeat_chars f w n :
forall_chars f w = true -> f " "%char = true ->
forall_chars f (join " " (repeat w (S n))) = true.
Proof.
intros Hw Hsp. induction n as [|n IH]; [exact Hw|].
rewrite join_repeat_S, !forall_chars_append, Hw, IH. simpl. now rewrite Hsp.
Qed.

Lemma split_on_word d a s :
forall_chars (fun c => negb (d c)) a = true ->
split_on d (a ++ s)
= match split_on d s with
  | p :: ps => (a ++ p)%string :: ps
  | [] => [a]
  end.
Proof.
induction a as [|c a IH]; simpl; intros H.
- destruct (split_on_head d s) as (p & ps & _ & -> & _). reflexivity.
- apply andb_prop in H as [Hc Ha]. apply negb_true_iff in Hc.
  rewrite Hc, (IH Ha). now destruct (split_on d s).
Qed.

Lemma split_on_join_repeat d w n :
forall_chars (fun c => negb (d c)) w = true -> w <> EmptyString ->
d " "%char = true ->
split_on d (join " " (repeat w (S n))) = repeat w (S n).
Proof.
intros Hw Hne Hsp. induction n as [|n IH].
- change (join " " (repeat w 1)) with w.
  rewrite <- (append_empty_r w) at 1. rewrite (split_on_word _ _ _ Hw).
  simpl. now rewrite append_empty_r.
- rewrite join_repeat_S, (split_on_word _ _ _ Hw).
  assert (Hhead : exists c r, join " " (repeat w (S n)) = String c r /\ d c = false).
  { destruct w as [|c w']; [congruence|]. simpl in Hw.
    apply andb_prop in Hw as [Hc _]. apply negb_true_iff in Hc.
    exists c. destruct n; simpl; eexists; (split; [reflexivity | exact Hc]). }
  destruct Hhead as (c & r & E & Hc).
  change (" " ++ join " " (repeat w (S n)))%string
    with (String " "%char (join " " (repeat w (S n)))).
  cbn [split_on]. rewrite Hsp. rewrite E at 1. rewrite Hc.
  rewrite IH, append_empty_r. reflexivity.
Qed.

Lemma filter_repeat {A : Type} (f : A -> bool) x n :
f x = true -> filter f (repeat x n) = repeat x n.
Proof. intros H. induction n as [|n IH]; simpl; [reflexivity | now rewrite H, IH]. Qed.

(** The words of a text made of one word, repeated and separated by
  single spaces. *)
Lemma tokenize_repeat w n :
forall_chars is_word w = true -> w <> EmptyString ->
tokenize (join " " (repeat w (S n))) = repeat (toLowerCase w) (S n).
Proof.
intros Hw Hne. unfold tokenize.
pose proof (toLowerCase_word w Hw) as Hlw.
assert (Hlne : toLowerCase w <> EmptyString) by (destruct w; [congruence | discriminate]).
rewrite toLowerCase_join_repeat.
rewrite filter_chars_all.
2:{ apply join_repeat_chars; [|reflexivity].
    revert Hlw. apply forall_chars_impl. apply word_is_kept. }
rewrite split_on_join_repeat; [| |assumption|reflexivity].
2:{ revert Hlw. apply forall_chars_impl. intros c Hc.
    now rewrite (word_not_space c Hc). }
apply filter_repeat. destruct (toLowerCase w); [congruence | reflexivity].
Qed.

Lemma inherited_no_space k : Obj.inherited k = true -> no_space k = true.
Proof.
intros H. apply existsb_exists in H as (x & Hx & E).
apply String.eqb_eq in E. subst x. unfold Obj.inherited_names in Hx. simpl in Hx.
repeat (destruct Hx as [<- | Hx]; [reflexivity|]). contradiction.
Qed.

Lemma array_index_no_space k n : Obj.array_index k = Some n -> no_space k = true.
Proof.
unfold Obj.array_index. destruct k as [|c r]; [discriminate|].
destruct (forall_chars is_digit (String c r)) eqn:Hd; [|discriminate].
intros _. revert Hd. apply forall_chars_impl. intros a. by_cases_on_char a.
Qed.

Lemma spaced_not_inherited k : no_space k = false -> Obj.inherited k = false.
Proof.
intros H. destruct (Obj.inherited k) eqn:E; [|reflexivity].
apply inherited_no_space in E. congruence.
Qed.

Lemma spaced_not_index k : no_space k = false -> Obj.array_index k = None.
Proof.
intros H. destruct (Obj.array_index k) eqn:E; [|reflexivity].
apply array_index_no_space in E. congruence.
Qed.

Lemma bump_new o k w :
Obj.get o k = None -> Obj.inherited k = false -> bump o k w = Obj.set o k (Num w).
Proof.
intros Hget Hinh. unfold bump. rewrite Hget, Hinh.
destruct (String.eqb_spec k "__proto__") as [->|_]; [discriminate Hinh | reflexivity].
Qed.

Lemma bump_old o k n w :
Obj.get o k = Some (Num n) -> bump o k w = Obj.set o k (Num (n + w)).
Proof. intros Hget. unfold bump. now rewrite Hget. Qed.

Lemma neq_by_length (a b : string) : String.length a <> String.length b -> String.eqb a b = false.
Proof. intros H. apply String.eqb_neq. intros ->. contradiction. Qed.

Lemma compareEntries_rank (a b : string * Count) :
  is_text a = false -> is_text b = false ->
  (compareEntries a b < 0 <-> - Z.of_nat (score a) < - Z.of_nat (score b))%Z.
Proof.
  destruct a as [ka [x|]], b as [kb [y|]]; unfold is_text, compareEntries, score;
    simpl; intros Ha Hb; try discriminate.
  lia.
Qed.

Lemma byScoreDesc_rank (a b : string * Count) :
  is_text a = false -> is_text b = false ->
  (byScoreDesc a b = true <-> - Z.of_nat (score a) <= - Z.of_nat (score b))%Z.
Proof. intros _ _. unfold byScoreDesc. rewrite Nat.leb_le. lia. Qed.

(** When every counter is a number, the engine written above leaves the
    entries in the order the language fixes. *)
Lemma engineSort_entries (es : list (string * Count)) :
  existsb is_text es = false -> engineSort compareEntries es = sort byScoreDesc es.
Proof.
  intros H.
  apply (engineSort_sort compareEntries (fun kv => is_text kv = false)
                         (fun kv => (- Z.of_nat (score kv))%Z) byScoreDesc
                         compareEntries_rank byScoreDesc_rank).
  apply Forall_forall. intros kv Hin. destruct (is_text kv) eqn:E; [|reflexivity].
  rewrite <- H. symmetry. apply existsb_exists. now exists kv.
Qed.

(** So with that engine the sort of the entries is the engine's sort on
    every array. *)
Lemma sortByScore_engineSort (es : list (string * Count)) :
  sortByScore engineSortOrder es = engineSort compareEntries es.
Proof.
  unfold sortByScore, engineSortOrder.
  destruct (existsb is_text es) eqn:E; [reflexivity|].
  symmetry. now apply engineSort_entries.
Qed.

(** A counter that holds a string.  In the first text nothing has to
    move; in the second the engine puts the trigram after the word, which
    compares as equal to everything, and before the bigram. *)
Example extractKeyTerms_constructor :
  extractKeyTerms engineSortOrder "constructor exam"
  = ["constructor"; "exam"; "constructor exam"]
  /\ extractKeyTerms engineSortOrder (join " " (repeat "constructor" 21))
     = ["constructor"; "constructor constructor constructor"; "constructor constructor"].
Proof. split; vm_compute; reflexivity. Qed.

Section RepeatedWord.
Variable lw : string.
Hypothesis lw_qualifies : qualifies lw = true.
Hypothesis lw_not_stop : isStopWord lw = false.
Hypothesis lw_not_inherited : Obj.inherited lw = false.

Lemma bi_spaced : no_space (bigram lw lw) = false.
Proof.
  unfold bigram, no_space. rewrite forall_chars_append. simpl.
  apply andb_false_r.
Qed.

Lemma tri_spaced : no_space (trigram lw lw lw) = false.
Proof.
  unfold trigram, no_space. rewrite forall_chars_append. simpl.
  apply andb_false_r.
Qed.

Lemma lw_bi : String.eqb lw (bigram lw lw) = false.
Proof.
  apply neq_by_length. unfold bigram.
  rewrite ?length_append; simpl; rewrite ?length_append; simpl; lia.
Qed.

Lemma lw_tri : String.eqb lw (trigram lw lw lw) = false.
Proof.
  apply neq_by_length. unfold trigram.
  rewrite ?length_append; simpl; rewrite ?length_append; simpl; lia.
Qed.

Lemma bi_tri : String.eqb (bigram lw lw) (trigram lw lw lw) = false.
Proof.
  apply neq_by_length. unfold bigram, trigram.
  rewrite ?length_append; simpl; rewrite ?length_append; simpl; lia.
Qed.

Lemma countWords_repeat n : countWords (repeat lw (S n)) = [(lw, Num (S n))].
Proof.
  unfold countWords.
  assert (Hstep : forall k m,
             fold_left
               (fun wordCounts word =>
                  if negb (isStopWord word) && qualifies word
                  then bump wordCounts word 1 else wordCounts)
               (repeat lw k) [(lw, Num m)] = [(lw, Num (m + k))]).
  { induction k as [|k IH]; intros m; cbn [repeat fold_left].
    - now rewrite Nat.add_0_r.
    - rewrite lw_not_stop, lw_qualifies. cbn [negb andb].
      rewrite (bump_old _ _ m) by (cbn [Obj.get]; now rewrite String.eqb_refl).
      cbn [Obj.set]. rewrite String.eqb_refl, IH. do 3 f_equal. lia. }
  cbn [repeat fold_left]. rewrite lw_not_stop, lw_qualifies. cbn [negb andb].
  rewrite bump_new by (reflexivity || assumption).
  cbn [Obj.set]. now rewrite Hstep.
Qed.

Lemma bump_bi a b : bump (phraseCounts lw a b) (bigram lw lw) 1 = phraseCounts lw (a + 1) b.
Proof.
  rewrite (bump_old _ _ a) by (unfold phraseCounts; cbn [Obj.get]; now rewrite String.eqb_refl).
  unfold phraseCounts. cbn [Obj.set]. now rewrite String.eqb_refl.
Qed.

Lemma bump_tri a b : bump (phraseCounts lw a b) (trigram lw lw lw) 3 = phraseCounts lw a (b + 3).
Proof.
  rewrite (bump_old _ _ b)
    by (unfold phraseCounts; cbn [Obj.get]; now rewrite bi_tri, String.eqb_refl).
  unfold phraseCounts. cbn [Obj.set]. now rewrite bi_tri, String.eqb_refl.
Qed.

Lemma countPhrases_two phrases :
  countPhrases [lw; lw] phrases = bump phrases (bigram lw lw) 1.
Proof.
  cbn [countPhrases]. rewrite lw_qualifies, lw_not_stop. reflexivity.
Qed.

Lemma countPhrases_three rest phrases :
  countPhrases (lw :: lw :: lw :: rest) phrases
  = countPhrases (lw :: lw :: rest) (bump (bump phrases (bigram lw lw) 1) (trigram lw lw lw) 3).
Proof.
  cbn [countPhrases]. rewrite lw_qualifies, lw_not_stop. reflexivity.
Qed.

Lemma countPhrases_more n a b :
  countPhrases (lw :: lw :: repeat lw n) (phraseCounts lw a b) = phraseCounts lw (a + n + 1) (b + 3 * n).
Proof.
  revert a b. induction n as [|n IH]; intros a b; cbn [repeat].
  - rewrite countPhrases_two, bump_bi. unfold phraseCounts. do 4 f_equal; lia.
  - rewrite countPhrases_three, bump_bi, bump_tri, IH.
    unfold phraseCounts. do 4 f_equal; lia.
Qed.

Lemma countPhrases_repeat n :
  countPhrases (repeat lw (S (S (S n)))) [] = phraseCounts lw (n + 2) (3 * n + 3).
Proof.
  cbn [repeat]. rewrite countPhrases_three.
  rewrite (bump_new [] (bigram lw lw) 1)
    by (reflexivity || apply spaced_not_inherited, bi_spaced).
  cbn [Obj.set].
  rewrite (bump_new [((bigram lw lw), Num 1)] (trigram lw lw lw) 3)
    by (cbn [Obj.get]; try rewrite bi_tri; reflexivity
        || apply spaced_not_inherited, tri_spaced).
  cbn [Obj.set]. rewrite bi_tri.
  change [(bigram lw lw, Num 1); (trigram lw lw lw, Num 3)] with (phraseCounts lw 1 3).
  rewrite countPhrases_more. unfold phraseCounts.
  replace (1 + n + 1) with (n + 2) by lia.
  replace (3 + 3 * n) with (3 * n + 3) by lia. reflexivity.
Qed.

Lemma entries_word (c : Count) : Obj.entries [(lw, c)] = [(lw, c)].
Proof.
  unfold Obj.entries, Obj.named. cbn [Obj.indexed filter fst].
  destruct (Obj.array_index lw); reflexivity.
Qed.

Lemma entries_both a b : Obj.entries (phraseCounts lw a b) = phraseCounts lw a b.
Proof.
  unfold Obj.entries, Obj.named, phraseCounts. cbn [Obj.indexed filter fst].
  now rewrite (spaced_not_index _ bi_spaced), (spaced_not_index _ tri_spaced).
Qed.

Lemma entries_all (c : Count) a b :
  Obj.entries ((lw, c) :: phraseCounts lw a b) = (lw, c) :: phraseCounts lw a b.
Proof.
  unfold Obj.entries, Obj.named, phraseCounts. cbn [Obj.indexed filter fst].
  rewrite (spaced_not_index _ bi_spaced), (spaced_not_index _ tri_spaced).
  destruct (Obj.array_index lw); reflexivity.
Qed.

Lemma spread_word_both (c : Count) a b :
  Obj.spread [(lw, c)] (phraseCounts lw a b) = (lw, c) :: phraseCounts lw a b.
Proof.
  unfold Obj.spread. rewrite entries_word, entries_both.
  unfold phraseCounts. cbn [app fold_left fst snd Obj.set].
  rewrite lw_bi. cbn [Obj.set]. rewrite lw_tri. cbn [Obj.set].
  now rewrite bi_tri.
Qed.

Lemma extractKeyTerms_of_repeat engineOrder text :
  tokenize text = repeat lw 21 ->
  extractKeyTerms engineOrder text = [(trigram lw lw lw); lw; (bigram lw lw)].
Proof.
  intros Htok. unfold extractKeyTerms, sortByScore. rewrite Htok.
  rewrite (countWords_repeat 20), (countPhrases_repeat 18).
  rewrite spread_word_both, entries_all. reflexivity.
Qed.
End RepeatedWord.

Lemma lowercase_not_inherited lw :
toLowerCase lw = lw -> lw <> "constructor" -> lw <> "__proto__" ->
Obj.inherited lw = false.
Proof.
intros Hlow Hc Hp. destruct (Obj.inherited lw) eqn:E; [exfalso | reflexivity].
apply existsb_exists in E as (x & Hx & E).
apply String.eqb_eq in E. subst x. unfold Obj.inherited_names in Hx. simpl in Hx.
repeat (destruct Hx as [<- | Hx];
        [first [ now apply Hc | now apply Hp | discriminate Hlow ] |]).
contradiction.
Qed.

(** C1, as stated, fails: the pairs and the triples of adjacent words
  are counted too, so a word repeated 21 times comes with its bigram
  (20 times) and its trigram (19 times, weighted 3). *)
Lemma repeated_word_brings_phrases :
extractKeyTerms engineSortOrder (join " " (repeat "exam" 21)) <> ["exam"].
Proof. vm_compute. discriminate. Qed.

(** C1, amended: for a word [w] made of letters, digits and underscores,
  longer than 3, whose lower-case form is not a stop word and is
  neither [constructor] nor [__proto__], the key terms of the text made
  of [w] 21 times, separated by single spaces, are three, on every
  engine: the trigram of the lower-cased word, the word, and its bigram,
  in that order. *)
Theorem extractKeyTerms_repeated_word
      (engineOrder : list (string * Count) -> list (string * Count)) (w : string) :
forall_chars is_word w = true ->
3 < String.length w ->
isStopWord (toLowerCase w) = false ->
toLowerCase w <> "constructor" ->
toLowerCase w <> "__proto__" ->
let lw := toLowerCase w in
extractKeyTerms engineOrder (join " " (repeat w 21))
= [ (lw ++ " " ++ lw ++ " " ++ lw)%string; lw; (lw ++ " " ++ lw)%string ].
Proof.
intros Hw Hlen Hstop Hc Hp lw.
apply extractKeyTerms_of_repeat.
- unfold qualifies. subst lw. rewrite toLowerCase_length. now apply Nat.ltb_lt.
- exact Hstop.
- apply lowercase_not_inherited; [apply toLowerCase_idempotent | exact Hc | exact Hp].
- apply tokenize_repeat; [exact Hw|]. intros ->. simpl in Hlen. lia.
Qed.

Lemma extractKeyTerms_repeated_word_witness :
extractKeyTerms engineSortOrder (join " " (repeat "Exam" 21))
= ["exam exam exam"; "exam"; "exam exam"].
Proof.
apply (extractKeyTerms_repeated_word engineSortOrder "Exam").
- reflexivity.
- simpl. lia.
- reflexivity.
- discriminate.
- discriminate.
Defined.

(* ================================================================== *)
(** * Further properties                                               *)
(* ================================================================== *)

(** ** Trimming and blank texts *)

Lemma forall_chars_piece f (text s : string) :
  forall_chars f text = true -> piece_of text s -> forall_chars f s = true.
Proof.
  intros H (pre & post & ->). rewrite !forall_chars_append in H.
  apply andb_prop in H as [_ H]. now apply andb_prop in H as [H _].
Qed.

Lemma trimStart_spaces (s : string) :
  forall_chars is_space s = true -> trimStart s = EmptyString.
Proof.
  induction s as [|c s IH]; simpl; [reflexivity|].
  intros H. apply andb_prop in H as [Hc Hs]. rewrite Hc. now apply IH.
Qed.

Lemma trimStart_chars f (s : string) :
  forall_chars f s = true -> forall_chars f (trimStart s) = true.
Proof.
  induction s as [|c s IH]; simpl; [reflexivity|].
  intros H. destruct (is_space c); [|exact H].
  apply andb_prop in H as [_ Hs]. now apply IH.
Qed.

Lemma trimEnd_chars f (s : string) :
  forall_chars f s = true -> forall_chars f (trimEnd s) = true.
Proof.
  induction s as [|c s IH]; simpl; [reflexivity|].
  intros H. apply andb_prop in H as [Hc Hs]. specialize (IH Hs).
  destruct (trimEnd s) as [|c' t].
  - destruct (is_space c); simpl; [reflexivity | now rewrite Hc].
  - simpl in *. now rewrite Hc, IH.
Qed.

Lemma trim_chars f (s : string) :
  forall_chars f s = true -> forall_chars f (trim s) = true.
Proof. intros H. unfold trim. now apply trimEnd_chars, trimStart_chars. Qed.

Lemma trimStart_clean (s : string) :
  match trimStart s with
  | EmptyString => True
  | String c _ => is_space c = false
  end.
Proof.
  induction s as [|c s IH]; simpl; [exact I|].
  destruct (is_space c) eqn:E; [exact IH | exact E].
Qed.

Lemma trimEnd_head (s : string) c r :
  s = String c r -> is_space c = false -> exists r', trimEnd s = String c r'.
Proof.
  intros -> Hc. simpl. destruct (trimEnd r); [rewrite Hc|]; now eexists.
Qed.

Lemma trimEnd_idempotent (s : string) : trimEnd (trimEnd s) = trimEnd s.
Proof.
  induction s as [|c s IH]; simpl; [reflexivity|].
  destruct (trimEnd s) as [|c' t] eqn:E.
  - destruct (is_space c) eqn:Hc; simpl; [reflexivity | now rewrite Hc].
  - change (trimEnd (String c (String c' t))
            = String c (String c' t)).
    cbn [trimEnd]. cbn [trimEnd] in IH.
    destruct (trimEnd t) as [|c'' t'] eqn:Et.
    + destruct (is_space c'); [discriminate IH|]. now rewrite IH.
    + now rewrite IH.
Qed.

(** Trimming twice is trimming once: what [trim] returns has no white
    space left at its ends. *)
Lemma trim_idempotent (s : string) : trim (trim s) = trim s.
Proof.
  unfold trim. pose proof (trimStart_clean s) as Hclean.
  destruct (trimStart s) as [|c r] eqn:E; [reflexivity|].
  destruct (trimEnd_head _ c r eq_refl Hclean) as [r' Hr'].
  rewrite Hr'. cbn [trimStart]. rewrite Hclean, <- Hr'.
  apply trimEnd_idempotent.
Qed.

Lemma blank_piece_dropped (s : string) :
  forall_chars blank_or_delim s = true ->
  forall_chars (fun c => negb (is_sentence_end c)) s = true ->
  (0 <? String.length (trim s)) = false.
Proof.
  intros Hb Hd.
  assert (Hs : forall_chars is_space s = true).
  { clear - Hb Hd. induction s as [|c s IH]; simpl in *; [reflexivity|].
    apply andb_prop in Hb as [Hc Hb]. apply andb_prop in Hd as [Hc' Hd].
    rewrite (IH Hb Hd), andb_true_r. unfold blank_or_delim in Hc.
    destruct (is_sentence_end c); [discriminate Hc'|].
    now rewrite orb_false_r in Hc. }
  unfold trim. now rewrite (trimStart_spaces s Hs).
Qed.

Lemma blank_text_no_sentences (text : string) :
  forall_chars blank_or_delim text = true -> splitSentences text = [].
Proof.
  intros Hb. unfold splitSentences.
  pose proof (split_on_pieces is_sentence_end text) as Hall.
  induction (split_on is_sentence_end text) as [|p ps IH]; [reflexivity|].
  inversion Hall as [|? ? [Hd Hp] Hps]; subst. simpl.
  rewrite (blank_piece_dropped p (forall_chars_piece _ _ _ Hb Hp) Hd).
  now apply IH.
Qed.

Lemma somes_none {A B : Type} (f : A -> nat -> option B) (l : list A) i :
  (forall x k, f x k = None) -> somes (mapi_from i f l) = [].
Proof.
  intros H. revert i. induction l as [|x l IH]; intros i; simpl; [reflexivity|].
  now rewrite H, IH.
Qed.

Lemma no_sentences_no_entries (keyTerms : list string) : termSentencesOf [] keyTerms = [].
Proof.
  destruct (termSentencesOf [] keyTerms) as [|[k v] o] eqn:E; [reflexivity|].
  assert (Hk : In k (map fst (termSentencesOf [] keyTerms)))
    by (rewrite E; now left).
  apply termSentencesOf_keys in Hk as [_ Hk]. discriminate Hk.
Qed.

(** X1: a text made of white space and sentence delimiters only (the
    empty text too) has no sentence; its summary is the lone full stop,
    and it gives no MCQ and no Q&A item, whatever the key terms. *)
Theorem blank_text_outputs
        (shuffle : nat -> list string -> list string)
        (stateTerms keyTerms : list string) (text : string) :
  forall_chars blank_or_delim text = true ->
  splitSentences text = []
  /\ generateSummary stateTerms text = "."
  /\ generateMCQs shuffle text keyTerms = []
  /\ generateQnA text keyTerms = [].
Proof.
  intros Hb. pose proof (blank_text_no_sentences text Hb) as Hs.
  repeat split.
  - exact Hs.
  - unfold generateSummary. now rewrite Hs.
  - unfold generateMCQs. rewrite Hs, no_sentences_no_entries.
    now rewrite firstn_nil.
  - unfold generateQnA. rewrite Hs. simpl. unfold mapi.
    now rewrite somes_none.
Qed.

Lemma blank_text_outputs_witness :
  generateSummary ["stale"] " ...  ?! " = "."
  /\ generateMCQs reverseShuffle " ...  ?! " ["term"] = []
  /\ generateQnA " ...  ?! " ["term"] = [].
Proof.
  exact (proj2 (blank_text_outputs reverseShuffle ["stale"] ["term"] " ...  ?! " eq_refl)).
Defined.

(** ** MCQ items *)

(** What every item of [generateMCQs] is made of. *)
Lemma generateMCQs_items shuffle text keyTerms q :
  In q (generateMCQs shuffle text keyTerms) ->
  exists index term targetSentence,
    In term keyTerms
    /\ find (mentions term) (splitSentences text) = Some targetSentence
    /\ mcq_id q = index + 1
    /\ mcq_question q = questionAbout term
    /\ mcq_options q = shuffle index (optionsFor term targetSentence)
    /\ mcq_correctAnswer q = indexOf (mcq_options q) (trim targetSentence).
Proof.
  intros Hq. unfold generateMCQs in Hq.
  apply in_mapi in Hq as (index & term & Hterm & ->).
  set (sentences := splitSentences text) in *.
  set (o := termSentencesOf sentences keyTerms) in *.
  apply nth_error_In in Hterm.
  assert (Hkey : In term (map fst o)).
  { apply (Permutation_in _ (keys_perm o)).
    rewrite <- (firstn_skipn (Nat.min (List.length keyTerms) 10) (Obj.keys o)).
    apply in_or_app. now left. }
  destruct (get_in_keys o term Hkey) as [v Hv].
  destruct (termSentencesOf_well_stored sentences keyTerms term v Hv) as [Ev Hne].
  apply termSentencesOf_keys in Hkey as [Hin _].
  destruct v as [|target rest]; [congruence|].
  symmetry in Ev. apply filter_head_find in Ev.
  exists index, term, target. unfold makeMCQ. rewrite Hv.
  cbn [hd mcq_options mcq_correctAnswer mcq_question mcq_id].
  repeat split; try assumption.
  unfold optionsFor. now destruct (isPhrase term).
Qed.

Lemma map_id_mapi_from shuffle sentences o (l : list string) i :
  map mcq_id (mapi_from i (makeMCQ shuffle sentences o) l)
  = seq (i + 1) (List.length l).
Proof.
  revert i. induction l as [|x l IH]; intros i; simpl; [reflexivity|].
  rewrite IH. reflexivity.
Qed.

(** X2: the ids of the MCQ items are 1, 2, 3, ... in the order of the
    items, with no gap: terms that no sentence mentions are dropped
    before the items are numbered. *)
Theorem generateMCQs_ids
        (shuffle : nat -> list string -> list string)
        (text : string) (keyTerms : list string) :
  map mcq_id (generateMCQs shuffle text keyTerms)
  = seq 1 (List.length (generateMCQs shuffle text keyTerms)).
Proof.
  unfold generateMCQs, mapi. rewrite map_id_mapi_from, mapi_from_length.
  reflexivity.
Qed.

Lemma sentence_has_no_delimiter text s :
  In s (splitSentences text) -> forall_chars (fun c => negb (is_sentence_end c)) s = true.
Proof.
  intros Hs. unfold splitSentences in Hs. apply filter_In in Hs as [Hs _].
  pose proof (split_on_pieces is_sentence_end text) as Hall.
  rewrite Forall_forall in Hall. now destruct (Hall s Hs).
Qed.

Lemma indexOf_bound (l : list string) x :
  (-1 <= indexOf l x < Z.of_nat (List.length l))%Z.
Proof.
  induction l as [|y l IH]; simpl; [lia|].
  destruct (String.eqb y x); [lia|].
  destruct (indexOf l x <? 0)%Z eqn:E; [lia|]. apply Z.ltb_ge in E. lia.
Qed.

Lemma indexOf_found (l : list string) x :
  In x l -> (0 <= indexOf l x)%Z.
Proof.
  induction l as [|y l IH]; simpl; [contradiction|].
  intros Hin. destruct (String.eqb_spec y x) as [->|Hne]; [lia|].
  destruct Hin as [->|Hin]; [congruence|]. specialize (IH Hin).
  destruct (indexOf l x <? 0)%Z eqn:E; [apply Z.ltb_lt in E; lia | lia].
Qed.

Lemma distractors_differ term targetSentence :
  forall_chars (fun c => negb (is_sentence_end c)) targetSentence = true ->
  count_occ string_dec (optionsFor term targetSentence) (trim targetSentence) = 1.
Proof.
  intros Hd. apply (trim_chars _ _) in Hd.
  assert (Hne : forall body : string,
             (term ++ body ++ ".")%string <> trim targetSentence).
  { intros body E. rewrite <- E in Hd. rewrite !forall_chars_append in Hd.
    simpl in Hd. now rewrite !andb_false_r in Hd. }
  unfold optionsFor, phraseOptions, wordOptions.
  destruct (isPhrase term); cbn [count_occ];
    (destruct (string_dec (trim targetSentence) (trim targetSentence)) as [_|N];
     [|congruence]);
    repeat match goal with
           | |- context [string_dec ?a ?b] =>
               destruct (string_dec a b) as [E|_]; [exfalso|]
           end; try reflexivity.
  - exact (Hne " refers to an unrelated concept not covered in this document" E).
  - exact (Hne " is a contradictory element in the document" E).
  - exact (Hne " is mentioned but not significant to the main topic" E).
  - exact (Hne " is not relevant to the main subject of this document" E).
  - exact (Hne " represents an opposing viewpoint to the document's main argument" E).
  - exact (Hne " is a minor concept that appears only once in the document" E).
Qed.

(** X3: when the shuffle rearranges its argument, [correctAnswer] is an
    index from 0 to 3 and the trimmed target sentence occurs exactly once
    among the options of the item: no distractor can equal it, since every
    distractor ends with a full stop and a sentence holds none. *)
Theorem generateMCQs_one_correct_option
        (shuffle : nat -> list string -> list string)
        (Hshuffle : forall index l, Permutation l (shuffle index l))
        (text : string) (keyTerms : list string) :
  Forall (fun q =>
            (0 <= mcq_correctAnswer q < 4)%Z
            /\ exists targetSentence,
                In targetSentence (splitSentences text)
                /\ at_index (mcq_options q) (mcq_correctAnswer q)
                   = Some (trim targetSentence)
                /\ count_occ string_dec (mcq_options q) (trim targetSentence) = 1)
         (generateMCQs shuffle text keyTerms).
Proof.
  apply Forall_forall. intros q Hq.
  apply generateMCQs_items in Hq
    as (index & term & target & _ & Hfind & _ & _ & Hopts & Hca).
  apply find_some in Hfind as [Hin _].
  pose proof (sentence_has_no_delimiter _ _ Hin) as Hd.
  assert (Hlen : List.length (mcq_options q) = 4).
  { rewrite Hopts, <- (Permutation_length (Hshuffle _ _)).
    unfold optionsFor. now destruct (isPhrase term). }
  assert (Hmem : In (trim target) (mcq_options q)).
  { rewrite Hopts. apply (Permutation_in _ (Hshuffle _ _)).
    unfold optionsFor. destruct (isPhrase term); now left. }
  split.
  - rewrite Hca. pose proof (indexOf_bound (mcq_options q) (trim target)).
    pose proof (indexOf_found _ _ Hmem). lia.
  - exists target. repeat split; [exact Hin | |].
    + rewrite Hca. now apply indexOf_In.
    + rewrite Hopts.
      rewrite <- (proj1 (Permutation_count_occ string_dec _ _) (Hshuffle index _)).
      now apply distractors_differ.
Qed.

Lemma generateMCQs_one_correct_option_witness :
  Forall (fun q =>
            (0 <= mcq_correctAnswer q < 4)%Z
            /\ exists targetSentence,
                In targetSentence
                   (splitSentences "Cats purr. Dogs bark loudly. Cats sleep.")
                /\ at_index (mcq_options q) (mcq_correctAnswer q)
                   = Some (trim targetSentence)
                /\ count_occ string_dec (mcq_options q) (trim targetSentence) = 1)
         (generateMCQs reverseShuffle "Cats purr. Dogs bark loudly. Cats sleep."
                       ["cats"; "nothing"; "dogs bark"]).
Proof.
  apply (generateMCQs_one_correct_option reverseShuffle).
  intros index l. apply Permutation_rev.
Defined.

(** ** Paragraphs and Q&A items *)

Lemma groupParagraphs_concat (sentences currentParagraph : list string) :
  List.concat (groupParagraphs sentences currentParagraph) = currentParagraph ++ sentences.
Proof.
  revert currentParagraph.
  induction sentences as [|s rest IH]; intros cur; cbn [groupParagraphs].
  - destruct cur; simpl; [reflexivity | now rewrite !app_nil_r].
  - assert (Hlen : (0 <? List.length (cur ++ [s])) = true)
      by (rewrite length_app; simpl; apply Nat.ltb_lt; lia).
    rewrite Hlen. destruct (includes s newline || (String.length s <? 20)).
    + cbn [List.concat]. rewrite IH. now rewrite <- app_assoc.
    + rewrite IH. now rewrite <- app_assoc.
Qed.

Lemma groupParagraphs_shape (sentences currentParagraph : list string) :
  Forall (fun s => closesParagraph s = false) currentParagraph ->
  let paragraphs := groupParagraphs sentences currentParagraph in
  Forall (fun p => p <> []
                   /\ Forall (fun s => closesParagraph s = false) (removelast p))
         paragraphs
  /\ Forall (fun p => closesParagraph (last p EmptyString) = true)
            (removelast paragraphs).
Proof.
  revert currentParagraph.
  induction sentences as [|s rest IH]; intros cur Hcur; cbn [groupParagraphs].
  - destruct cur as [|c cur']; simpl; [split; constructor|].
    split; [|constructor]. constructor; [|constructor]. split; [discriminate|].
    change (Forall (fun s => closesParagraph s = false) (removelast (c :: cur'))).
    rewrite Forall_forall in *. intros x Hx. apply Hcur.
    destruct (exists_last (l := c :: cur') ltac:(discriminate)) as (l' & a & E).
    rewrite E in *. rewrite removelast_last in Hx. apply in_or_app. now left.
  - assert (Hlen : (0 <? List.length (cur ++ [s])) = true)
      by (rewrite length_app; simpl; apply Nat.ltb_lt; lia).
    rewrite Hlen. fold (closesParagraph s).
    destruct (closesParagraph s) eqn:Hs.
    + destruct (IH [] (Forall_nil _)) as [H1 H2]. split.
      * constructor; [|exact H1]. split; [now destruct cur|].
        now rewrite removelast_last.
      * cbn [removelast].
        destruct (groupParagraphs rest []) as [|p ps] eqn:E; [constructor|].
        constructor; [|exact H2]. now rewrite last_last.
    + apply IH. apply Forall_app. split; [exact Hcur|]. now constructor.
Qed.

(** X4: the paragraphs of [generateQnA] are a partition of the sentence
    list: put end to end they give the sentences back, in order; none
    is empty; a sentence that holds a line break or is shorter than 20
    characters can only be the last of its paragraph, and every paragraph
    but the last ends with such a sentence. *)
Theorem groupParagraphs_partition (sentences : list string) :
  let paragraphs := groupParagraphs sentences [] in
  List.concat paragraphs = sentences
  /\ Forall (fun p => p <> []
                      /\ Forall (fun s => closesParagraph s = false) (removelast p))
            paragraphs
  /\ Forall (fun p => closesParagraph (last p EmptyString) = true)
            (removelast paragraphs).
Proof.
  split; [apply groupParagraphs_concat|].
  apply groupParagraphs_shape. constructor.
Qed.

Lemma existsb_concat {A : Type} (f : A -> bool) (ls : list (list A)) :
  existsb (existsb f) ls = existsb f (List.concat ls).
Proof.
  induction ls as [|l ls IH]; simpl; [reflexivity|].
  now rewrite existsb_app, IH.
Qed.

Lemma paragraphs_mention sentences term :
  existsb (mentionedIn term) (groupParagraphs sentences []) = matched sentences term.
Proof.
  unfold mentionedIn, matched. rewrite existsb_concat.
  now rewrite groupParagraphs_concat.
Qed.

Lemma filter_find {A : Type} (f : A -> bool) (l : list A) :
  find f l = match filter f l with x :: _ => Some x | [] => None end.
Proof.
  induction l as [|y l IH]; simpl; [reflexivity|]. now destruct (f y).
Qed.

Lemma find_existsb {A : Type} (f : A -> bool) (l : list A) :
  existsb f l = match find f l with Some _ => true | None => false end.
Proof.
  induction l as [|y l IH]; simpl; [reflexivity|]. now destruct (f y).
Qed.

(** The item of a key term, in terms of the first paragraph that
    mentions it. *)
Lemma termQnA_find paragraphs term termIndex :
  termQnA paragraphs term termIndex
  = match find (mentionedIn term) paragraphs with
    | Some paragraph =>
        Some (mkQnA (termIndex + 1)
                    (nth (termIndex mod 4) (questionVariants term) EmptyString)
                    (trim (join " " paragraph)))
    | None => None
    end.
Proof.
  unfold termQnA. rewrite filter_find. fold (mentionedIn term).
  now destruct (filter (mentionedIn term) paragraphs).
Qed.

Lemma termQnA_some sentences term termIndex :
  match termQnA (groupParagraphs sentences []) term termIndex with
  | Some _ => true
  | None => false
  end = matched sentences term.
Proof.
  rewrite termQnA_find, <- paragraphs_mention, find_existsb.
  now destruct (find (mentionedIn term) (groupParagraphs sentences [])).
Qed.

Lemma generateQnA_parts (text : string) (keyTerms : list string) :
  let sentences := splitSentences text in
  let items := termItems sentences keyTerms in
  generateQnA text keyTerms
  = items
    ++ (if 5 <? List.length sentences
        then mkQnA (List.length items + 1) mainTopicQuestion
                   (join " " (firstn 3 sentences))
             :: (if 10 <? List.length sentences
                 then [mkQnA (List.length items + 2) conclusionQuestion
                             (join " " (lastn 3 sentences))]
                 else [])
        else []).
Proof.
  intros sentences items. unfold generateQnA. fold sentences.
  fold (termItems sentences keyTerms). fold items.
  destruct (5 <? List.length sentences); [|now rewrite app_nil_r].
  destruct (10 <? List.length sentences); [|reflexivity].
  rewrite <- app_assoc. cbn [app]. rewrite length_app. cbn [List.length].
  do 4 f_equal. lia.
Qed.

Lemma somes_length sentences (l : list string) i :
  List.length (somes (mapi_from i (termQnA (groupParagraphs sentences [])) l))
  = List.length (filter (matched sentences) l).
Proof.
  revert i. induction l as [|term l IH]; intros i; simpl; [reflexivity|].
  pose proof (termQnA_some sentences term i) as H.
  destruct (termQnA (groupParagraphs sentences []) term i);
    rewrite <- H; simpl; now rewrite IH.
Qed.

(** X5: the number of Q&A items is the number of entries among the
    first eight key terms that some sentence mentions, a term listed
    twice counted twice, plus one when there are more than 5 sentences and
    one more when there are more than 10; it is at most 10. *)
Theorem generateQnA_length (text : string) (keyTerms : list string) :
  let sentences := splitSentences text in
  List.length (generateQnA text keyTerms)
  = List.length (filter (matched sentences) (firstn 8 keyTerms))
    + genericCount (List.length sentences)
  /\ List.length (generateQnA text keyTerms) <= 10.
Proof.
  intros sentences.
  assert (E : List.length (generateQnA text keyTerms)
              = List.length (filter (matched sentences) (firstn 8 keyTerms))
                + genericCount (List.length sentences)).
  { rewrite generateQnA_parts. fold sentences. rewrite length_app.
    unfold termItems, mapi. rewrite somes_length. unfold genericCount.
    destruct (5 <? List.length sentences) eqn:H5;
      destruct (10 <? List.length sentences) eqn:H10; simpl; try lia.
    apply Nat.ltb_lt in H10. apply Nat.ltb_ge in H5. lia. }
  split; [exact E|]. rewrite E.
  pose proof (filter_length_le (matched sentences) (firstn 8 keyTerms)).
  pose proof (firstn_le_length 8 keyTerms).
  unfold genericCount.
  destruct (5 <? List.length sentences); destruct (10 <? List.length sentences); lia.
Qed.

Lemma isGeneric_term_item paragraphs term termIndex q :
  termQnA paragraphs term termIndex = Some q -> isGeneric q = false.
Proof.
  intros H. apply termQnA_question in H as [H1 H2].
  unfold isGeneric, asks. apply String.eqb_neq in H1, H2. now rewrite H1, H2.
Qed.

Lemma in_termItems sentences keyTerms q :
  In q (termItems sentences keyTerms) <->
  exists i term,
    i < 8 /\ nth_error keyTerms i = Some term
    /\ termQnA (groupParagraphs sentences []) term i = Some q.
Proof.
  unfold termItems. rewrite in_somes, in_mapi. split.
  - intros (i & term & Hi & E). exists i, term.
    assert (Hlt : i < List.length (firstn 8 keyTerms))
      by (apply nth_error_Some; congruence).
    rewrite length_firstn in Hlt.
    rewrite nth_error_firstn in Hi.
    destruct (i <? 8) eqn:E8; [|discriminate Hi].
    apply Nat.ltb_lt in E8. repeat split; [exact E8 | exact Hi | now symmetry].
  - intros (i & term & Hi & Hn & E). exists i, term. split; [|now symmetry].
    rewrite nth_error_firstn. apply Nat.ltb_lt in Hi. now rewrite Hi.
Qed.

Lemma nongeneric_items (text : string) (keyTerms : list string) (q : QnA) :
  (In q (generateQnA text keyTerms) /\ isGeneric q = false)
  <->
  (exists i term paragraph,
      i < 8
      /\ nth_error keyTerms i = Some term
      /\ find (mentionedIn term) (groupParagraphs (splitSentences text) [])
         = Some paragraph
      /\ q = mkQnA (i + 1)
                   (nth (i mod 4) (questionVariants term) EmptyString)
                   (trim (join " " paragraph))).
Proof.
  rewrite generateQnA_parts. cbv zeta. rewrite in_app_iff, in_termItems.
  set (sentences := splitSentences text). split.
  - intros [[(i & term & Hi & Hn & E) | Hgen] Hq].
    + exists i, term. rewrite termQnA_find in E.
      destruct (find (mentionedIn term) (groupParagraphs sentences []))
        as [paragraph|]; [|discriminate E].
      exists paragraph. injection E as <-. now repeat split.
    + exfalso.
      destruct (5 <? List.length sentences); [|contradiction].
      destruct Hgen as [<- | Hgen]; [discriminate Hq|].
      destruct (10 <? List.length sentences); [|contradiction].
      destruct Hgen as [<- | []]. discriminate Hq.
  - intros (i & term & paragraph & Hi & Hn & Hf & ->).
    assert (E : termQnA (groupParagraphs sentences []) term i
                = Some (mkQnA (i + 1)
                              (nth (i mod 4) (questionVariants term) EmptyString)
                              (trim (join " " paragraph))))
      by (rewrite termQnA_find; now rewrite Hf).
    split; [left; now exists i, term | exact (isGeneric_term_item _ _ _ _ E)].
Qed.

(** X6: the Q&A items that do not ask a generic question are exactly
    the items of the key terms at the places 0 to 7 that some paragraph
    mentions: the item of the term at place [i] has the id [i + 1], asks
    the template number [i mod 4] about the term, and answers with the
    first paragraph that mentions the term, its sentences joined by a
    space and the result trimmed. *)
Theorem generateQnA_term_items (text : string) (keyTerms : list string) (q : QnA) :
  (In q (generateQnA text keyTerms) /\ isGeneric q = false)
  <->
  (exists i term paragraph,
      i < 8
      /\ nth_error keyTerms i = Some term
      /\ find (mentionedIn term) (groupParagraphs (splitSentences text) [])
         = Some paragraph
      /\ q = mkQnA (i + 1)
                   (nth (i mod 4) (questionVariants term) EmptyString)
                   (trim (join " " paragraph))).
Proof. apply nongeneric_items. Qed.

Lemma mapi_from_app {A B : Type} (f : A -> nat -> B) (l1 l2 : list A) i :
  mapi_from i f (l1 ++ l2)
  = mapi_from i f l1 ++ mapi_from (i + List.length l1) f l2.
Proof.
  revert i. induction l1 as [|x l1 IH]; intros i; simpl.
  - now rewrite Nat.add_0_r.
  - rewrite IH. do 3 f_equal. lia.
Qed.

Lemma somes_app {A : Type} (l1 l2 : list (option A)) :
  somes (l1 ++ l2) = somes l1 ++ somes l2.
Proof.
  induction l1 as [|[x|] l1 IH]; simpl; [reflexivity | now rewrite IH | exact IH].
Qed.

Lemma termItems_all_matched sentences (l : list string) i :
  forallb (matched sentences) l = true ->
  map qna_id (somes (mapi_from i (termQnA (groupParagraphs sentences [])) l))
  = seq (i + 1) (List.length l).
Proof.
  revert i. induction l as [|term l IH]; intros i; simpl; [reflexivity|].
  intros H. apply andb_prop in H as [Ht Hl].
  pose proof (termQnA_some sentences term i) as Hs. rewrite Ht in Hs.
  rewrite termQnA_find in *.
  destruct (find (mentionedIn term) (groupParagraphs sentences []));
    [|discriminate Hs].
  simpl. now rewrite (IH _ Hl).
Qed.

Lemma termItems_none_matched sentences (l : list string) i :
  forallb (fun term => negb (matched sentences term)) l = true ->
  somes (mapi_from i (termQnA (groupParagraphs sentences [])) l) = [].
Proof.
  revert i. induction l as [|term l IH]; intros i; simpl; [reflexivity|].
  intros H. apply andb_prop in H as [Ht Hl]. apply negb_true_iff in Ht.
  pose proof (termQnA_some sentences term i) as Hs. rewrite Ht in Hs.
  destruct (termQnA (groupParagraphs sentences []) term i); [discriminate Hs|].
  now apply IH.
Qed.

(** X7: when the key terms that no sentence mentions all come after the
    mentioned ones among the first eight (in particular when none is
    skipped), the ids of the Q&A items are 1, 2, 3, ... with no gap and
    no repeat, the generic items included. *)
Theorem generateQnA_ids_when_no_gap (text : string) (keyTerms : list string) (m : nat) :
  let sentences := splitSentences text in
  forallb (matched sentences) (firstn m (firstn 8 keyTerms)) = true ->
  forallb (fun term => negb (matched sentences term))
          (skipn m (firstn 8 keyTerms)) = true ->
  map qna_id (generateQnA text keyTerms)
  = seq 1 (List.length (generateQnA text keyTerms)).
Proof.
  intros sentences Hyes Hno.
  assert (Hids : map qna_id (termItems sentences keyTerms)
                 = seq 1 (List.length (firstn m (firstn 8 keyTerms)))).
  { unfold termItems, mapi.
    rewrite <- (firstn_skipn m (firstn 8 keyTerms)) at 1.
    rewrite mapi_from_app, somes_app.
    rewrite (termItems_none_matched _ _ _ Hno), app_nil_r.
    now rewrite (termItems_all_matched _ _ _ Hyes). }
  assert (Hlen : List.length (termItems sentences keyTerms)
                 = List.length (firstn m (firstn 8 keyTerms))).
  { rewrite <- (length_map qna_id), Hids. apply length_seq. }
  rewrite generateQnA_parts. fold sentences.
  rewrite map_app, length_app, Hids, Hlen.
  set (k := List.length (firstn m (firstn 8 keyTerms))).
  destruct (5 <? List.length sentences); [|simpl; now rewrite app_nil_r, Nat.add_0_r].
  destruct (10 <? List.length sentences); cbn [List.length map qna_id].
  - rewrite seq_app. f_equal. cbn [seq].
    replace (k + 1) with (1 + k) by lia.
    now replace (k + 2) with (S (1 + k)) by lia.
  - rewrite seq_app. f_equal. cbn [seq].
    now replace (k + 1) with (1 + k) by lia.
Qed.

Lemma generateQnA_ids_when_no_gap_witness :
  map qna_id (generateQnA "Solar panels convert light. Wind turbines spin fast. It is so. We do it. Go on up. He is in."
                          ["solar"; "wind"; "coal"])
  = seq 1 (List.length
             (generateQnA "Solar panels convert light. Wind turbines spin fast. It is so. We do it. Go on up. He is in."
                          ["solar"; "wind"; "coal"])).
Proof.
  apply (generateQnA_ids_when_no_gap _ _ 2); reflexivity.
Defined.

(** X8: the answer of a Q&A item that does not ask a generic question
    has no white space at its ends: trimming it changes nothing. *)
Theorem generateQnA_answers_trimmed (text : string) (keyTerms : list string) :
  Forall (fun q => isGeneric q = true \/ trim (qna_answer q) = qna_answer q)
         (generateQnA text keyTerms).
Proof.
  apply Forall_forall. intros q Hq.
  destruct (isGeneric q) eqn:Hg; [now left | right].
  destruct (proj1 (nongeneric_items text keyTerms q) (conj Hq Hg))
    as (i & term & paragraph & _ & _ & _ & ->).
  cbn [qna_answer]. apply trim_idempotent.
Qed.

(** ** The summary when no key term counts *)

Lemma positionScore_head n i : i < 3 -> positionScore n i = 6.
Proof.
  intros Hi. unfold positionScore.
  destruct (i <? 3) eqn:E; [reflexivity | apply Nat.ltb_ge in E; lia].
Qed.

Lemma positionScore_tail n i : 3 <= i -> positionScore n i <= 4.
Proof.
  intros Hi. unfold positionScore.
  destruct (i <? 3) eqn:E; [apply Nat.ltb_lt in E; lia|].
  destruct (10 * i <? n); [lia|]. destruct (8 * n <? 10 * i); lia.
Qed.

Lemma combinedScores_unscored keyTerms sentences i :
  forallb (fun s => termScore keyTerms s =? 0) sentences = true ->
  i < List.length sentences ->
  nth i (combinedScores keyTerms sentences) 0 = positionScore (List.length sentences) i.
Proof.
  intros H0 Hi. rewrite combinedScores_nth by exact Hi.
  rewrite forallb_forall in H0.
  specialize (H0 (nth i sentences EmptyString) (nth_In _ _ Hi)).
  apply Nat.eqb_eq in H0. rewrite H0. lia.
Qed.

Lemma topIndexes_head keyTerms sentences :
  forallb (fun s => termScore keyTerms s =? 0) sentences = true ->
  3 < List.length sentences ->
  exists rest, topIndexes keyTerms sentences = 0 :: 1 :: 2 :: rest.
Proof.
  intros H0 Hn.
  pose proof (topIndexes_length keyTerms sentences Hn) as Hlen.
  pose proof (topIndexes_ascending keyTerms sentences) as Hsorted.
  pose proof (topIndexes_bound keyTerms sentences) as Hbound.
  pose proof (topIndexes_closed keyTerms sentences) as Hclosed.
  assert (Hk : 3 <= summaryLength (List.length sentences))
    by (unfold summaryLength; lia).
  destruct (topIndexes keyTerms sentences) as [|a [|b [|c rest]]];
    simpl in Hlen; try lia.
  apply StronglySorted_inv in Hsorted as [Hsorted Ha].
  apply StronglySorted_inv in Hsorted as [Hsorted Hb].
  apply StronglySorted_inv in Hsorted as [_ Hc].
  inversion Ha as [|? ? Hab Ha']; subst. inversion Ha' as [|? ? Hac Ha'']; subst.
  inversion Hb as [|? ? Hbc Hb']; subst.
  inversion Hbound as [|? ? Han Hbound']; subst.
  inversion Hbound' as [|? ? Hbn Hbound'']; subst.
  inversion Hbound'' as [|? ? Hcn _]; subst.
  rewrite Forall_forall in Ha'', Hb', Hc.
  assert (Hin : forall i, i < 3 -> In i (a :: b :: c :: rest)).
  { intros i Hi. destruct (Nat.eq_dec c 2) as [->|Hc2].
    - assert (b = 1) by lia. assert (a = 0) by lia. subst. simpl.
      destruct i as [|[|[|]]]; auto; lia.
    - apply (Hclosed i c); [lia | simpl; auto|]. left.
      rewrite !combinedScores_unscored by (assumption || lia).
      rewrite (positionScore_head _ i Hi).
      pose proof (positionScore_tail (List.length sentences) c ltac:(lia)). lia. }
  assert (a = 0).
  { destruct (Hin 0 ltac:(lia)) as [E|[E|[E|E]]]; try lia.
    specialize (Ha'' 0 E). lia. }
  assert (b = 1).
  { destruct (Hin 1 ltac:(lia)) as [E|[E|[E|E]]]; try lia.
    specialize (Hb' 1 E). lia. }
  assert (c = 2).
  { destruct (Hin 2 ltac:(lia)) as [E|[E|[E|E]]]; try lia.
    specialize (Hc 2 E). lia. }
  subst. now exists rest.
Qed.

(** X9: when no key term read by the summarizer occurs in any sentence
    (always so on a first upload, where the list read is empty), a
    summary of more than three sentences starts with the first three
    sentences of the text, and is exactly those three when the text has
    at most 12 sentences. *)
Theorem generateSummary_without_terms (keyTerms : list string) (text : string) :
  let sentences := splitSentences text in
  forallb (fun s => termScore keyTerms s =? 0) sentences = true ->
  3 < List.length sentences ->
  (exists rest,
      generateSummary keyTerms text
      = (join ". " (firstn 3 sentences
                    ++ map (fun index => nth index sentences EmptyString) rest)
         ++ ".")%string
      /\ (List.length sentences <= 12 -> rest = [])).
Proof.
  intros sentences H0 Hn.
  destruct (topIndexes_head keyTerms sentences H0 Hn) as [rest Hrest].
  exists rest. split.
  - unfold generateSummary. fold sentences.
    destruct (List.length sentences <=? 3) eqn:E; [apply Nat.leb_le in E; lia|].
    rewrite Hrest.
    destruct sentences as [|s0 [|s1 [|s2 more]]]; simpl in Hn; try lia.
    reflexivity.
  - intros H12.
    pose proof (topIndexes_length keyTerms sentences Hn) as Hlen.
    rewrite Hrest in Hlen. cbn [List.length] in Hlen. unfold summaryLength in Hlen.
    assert ((List.length sentences + 3) / 4 < 4).
    { apply Nat.Div0.div_lt_upper_bound. lia. }
    destruct rest; [reflexivity | cbn [List.length] in Hlen; lia].
Qed.

Lemma generateSummary_without_terms_witness :
  exists rest,
    generateSummary [] sampleText
    = (join ". " (firstn 3 (splitSentences sampleText)
                  ++ map (fun index => nth index (splitSentences sampleText) EmptyString)
                         rest)
       ++ ".")%string
    /\ (List.length (splitSentences sampleText) <= 12 -> rest = []).
Proof.
  apply (generateSummary_without_terms [] sampleText).
  - reflexivity.
  - vm_compute. lia.
Defined.

(** ** Key terms *)

Lemma in_set {V : Type} (o : Obj.t V) k v k' v' :
  In (k', v') (Obj.set o k v) -> (k' = k /\ v' = v) \/ In (k', v') o.
Proof.
  induction o as [|[k0 v0] o IH]; simpl.
  - intros [[= <- <-]|[]]. now left.
  - destruct (String.eqb_spec k0 k) as [->|Hne]; simpl.
    + intros [[= <- <-]|H]; [now left | right; now right].
    + intros [H|H]; [right; now left|].
      destruct (IH H) as [?|?]; [now left | right; now right].
Qed.

Lemma get_In {V : Type} (o : Obj.t V) k v : Obj.get o k = Some v -> In (k, v) o.
Proof.
  induction o as [|[k0 v0] o IH]; simpl; [discriminate|].
  destruct (String.eqb_spec k0 k) as [->|Hne].
  - intros [= ->]. now left.
  - intros H. right. now apply IH.
Qed.

Lemma bump_cases o k w :
  bump o k w = o \/ exists c, bump o k w = Obj.set o k c
                              /\ (c = Text -> Obj.inherited k = true \/ In (k, Text) o).
Proof.
  unfold bump. destruct (Obj.get o k) as [[n|]|] eqn:E.
  - right. exists (Num (n + w)). split; [reflexivity | discriminate].
  - right. exists Text. split; [reflexivity|]. intros _. right. now apply get_In.
  - destruct (String.eqb k "__proto__"); [now left|].
    destruct (Obj.inherited k) eqn:Hi; right.
    + exists Text. split; [reflexivity | now left].
    + exists (Num w). split; [reflexivity | discriminate].
Qed.

Lemma bump_keys o k w k' :
  In k' (map fst (bump o k w)) -> k' = k \/ In k' (map fst o).
Proof.
  destruct (bump_cases o k w) as [-> | (c & -> & _)]; [now right|].
  now rewrite in_keys_set.
Qed.

Lemma bump_NoDup o k w : NoDup (map fst o) -> NoDup (map fst (bump o k w)).
Proof.
  destruct (bump_cases o k w) as [-> | (c & -> & _)]; [auto|].
  apply NoDup_keys_set.
Qed.

Lemma bump_texts o k w : texts_inherited o -> texts_inherited (bump o k w).
Proof.
  intros Ho. destruct (bump_cases o k w) as [-> | (c & -> & Hc)]; [exact Ho|].
  intros k' Hk'. apply in_set in Hk' as [[-> <-] | Hk']; [|now apply Ho].
  destruct (Hc eq_refl) as [H|H]; [exact H | now apply Ho].
Qed.

Lemma countWords_fold words o k :
  In k (map fst (fold_left
                   (fun wordCounts word =>
                      if negb (isStopWord word) && qualifies word
                      then bump wordCounts word 1 else wordCounts)
                   words o)) ->
  In k (map fst o) \/ (In k words /\ counted k = true).
Proof.
  revert o. induction words as [|w ws IH]; intros o; simpl; [now left|].
  intros H. apply IH in H as [H | [H1 H2]]; [|right; split; [now right | exact H2]].
  fold (counted w) in H. destruct (counted w) eqn:Hw; [|now left].
  apply bump_keys in H as [-> | H]; [right; split; [now left | exact Hw] | now left].
Qed.

Lemma countWords_keys words k :
  In k (map fst (countWords words)) -> In k words /\ counted k = true.
Proof.
  intros H. apply countWords_fold in H as [[] | H]. exact H.
Qed.

Lemma countWords_invariant words :
  NoDup (map fst (countWords words)) /\ texts_inherited (countWords words).
Proof.
  unfold countWords.
  assert (H : forall o, NoDup (map fst o) /\ texts_inherited o ->
                        NoDup (map fst (fold_left
                          (fun wordCounts word =>
                             if negb (isStopWord word) && qualifies word
                             then bump wordCounts word 1 else wordCounts) words o))
                        /\ texts_inherited (fold_left
                          (fun wordCounts word =>
                             if negb (isStopWord word) && qualifies word
                             then bump wordCounts word 1 else wordCounts) words o)).
  { induction words as [|w ws IH]; intros o [H1 H2]; simpl; [now split|].
    apply IH. destruct (negb (isStopWord w) && qualifies w); [|now split].
    split; [now apply bump_NoDup | now apply bump_texts]. }
  apply H. split; [constructor | intros k []].
Qed.

Lemma countPhrases_keys words o k :
  In k (map fst (countPhrases words o)) ->
  In k (map fst o)
  \/ (exists w0 w1,
         In w0 words /\ In w1 words /\ qualifies w0 = true /\ qualifies w1 = true
         /\ k = bigram w0 w1)
  \/ (exists w0 w1 w2,
         In w0 words /\ In w1 words /\ In w2 words
         /\ qualifies w0 = true /\ qualifies w1 = true /\ qualifies w2 = true
         /\ k = trigram w0 w1 w2).
Proof.
  revert o. induction words as [|w0 tl IH]; intros o; [simpl; now left|].
  destruct tl as [|w1 rest]; [simpl; now left|].
  cbn [countPhrases]. intros H. apply IH in H.
  destruct H as [H | [(a & b & Ha & Hb & HP) | (a & b & c & Ha & Hb & Hc & HP)]].
  2:{ right. left. exists a, b. repeat split; try apply HP; now right. }
  2:{ right. right. exists a, b, c. repeat split; try apply HP; now right. }
  assert (H1 : forall o1,
             In k (map fst
                     (if qualifies w0 && qualifies w1
                         && negb (isStopWord w0) && negb (isStopWord w1)
                      then bump o1 (bigram w0 w1) 1 else o1)) ->
             In k (map fst o1)
             \/ (qualifies w0 = true /\ qualifies w1 = true /\ k = bigram w0 w1)).
  { intros o1 Hk.
    destruct (qualifies w0) eqn:Q0; [|now left].
    destruct (qualifies w1) eqn:Q1; [|now left].
    destruct (negb (isStopWord w0) && negb (isStopWord w1)) eqn:S;
      cbn [andb] in Hk; rewrite S in Hk; [|now left].
    apply bump_keys in Hk as [-> | Hk]; [right; now repeat split | now left]. }
  destruct rest as [|w2 rest'].
  - apply H1 in H as [H | (Q0 & Q1 & ->)]; [now left|].
    right. left. exists w0, w1. repeat split; simpl; auto.
  - assert (H2 : In k (map fst
                         (if qualifies w0 && qualifies w1
                             && negb (isStopWord w0) && negb (isStopWord w1)
                          then bump o (bigram w0 w1) 1 else o))
                 \/ (qualifies w0 = true /\ qualifies w1 = true
                     /\ qualifies w2 = true /\ k = trigram w0 w1 w2)).
    { destruct (qualifies w0) eqn:Q0; [|left; exact H].
      destruct (qualifies w1) eqn:Q1; [|left; exact H].
      destruct (qualifies w2) eqn:Q2; [|left; exact H].
      destruct (negb (isStopWord w0) && negb (isStopWord w2)) eqn:S;
        cbn [andb] in H; rewrite S in H; [|left; exact H].
      apply bump_keys in H as [-> | H]; [right; now repeat split | left; exact H]. }
    destruct H2 as [H2 | (Q0 & Q1 & Q2 & ->)].
    + apply H1 in H2 as [H2 | (Q0 & Q1 & ->)]; [now left|].
      right. left. exists w0, w1. repeat split; simpl; auto.
    + right. right. exists w0, w1, w2. repeat split; simpl; auto.
Qed.

Lemma countPhrases_invariant words o :
  NoDup (map fst o) /\ texts_inherited o ->
  NoDup (map fst (countPhrases words o)) /\ texts_inherited (countPhrases words o).
Proof.
  revert o. induction words as [|w0 tl IH]; intros o Ho; [exact Ho|].
  destruct tl as [|w1 rest]; [exact Ho|].
  cbn [countPhrases]. apply IH.
  assert (H1 : NoDup (map fst
                        (if qualifies w0 && qualifies w1
                            && negb (isStopWord w0) && negb (isStopWord w1)
                         then bump o (bigram w0 w1) 1 else o))
               /\ texts_inherited
                    (if qualifies w0 && qualifies w1
                        && negb (isStopWord w0) && negb (isStopWord w1)
                     then bump o (bigram w0 w1) 1 else o)).
  { destruct (qualifies w0 && qualifies w1
              && negb (isStopWord w0) && negb (isStopWord w1)); [|exact Ho].
    destruct Ho. split; [now apply bump_NoDup | now apply bump_texts]. }
  destruct rest as [|w2 rest']; [exact H1|].
  destruct (qualifies w0 && qualifies w1 && qualifies w2
            && negb (isStopWord w0) && negb (isStopWord w2)); [|exact H1].
  destruct H1. split; [now apply bump_NoDup | now apply bump_texts].
Qed.

Lemma fold_set_In {V : Type} (l : list (string * V)) (o : Obj.t V) k c :
  In (k, c) (fold_left (fun o kv => Obj.set o (fst kv) (snd kv)) l o) ->
  In (k, c) o \/ In (k, c) l.
Proof.
  revert o. induction l as [|[k0 v0] l IH]; intros o; simpl; [now left|].
  intros H. apply IH in H as [H | H]; [|right; now right].
  apply in_set in H as [[-> ->] | H]; [right; now left | now left].
Qed.

Lemma fold_set_NoDup {V : Type} (l : list (string * V)) (o : Obj.t V) :
  NoDup (map fst o) ->
  NoDup (map fst (fold_left (fun o kv => Obj.set o (fst kv) (snd kv)) l o)).
Proof.
  revert o. induction l as [|[k0 v0] l IH]; intros o Ho; simpl; [exact Ho|].
  apply IH. now apply NoDup_keys_set.
Qed.

Lemma spread_In {V : Type} (a b : Obj.t V) k c :
  In (k, c) (Obj.spread a b) -> In (k, c) a \/ In (k, c) b.
Proof.
  intros H. apply fold_set_In in H as [[] | H].
  apply in_app_or in H as [H | H]; [left | right];
    now apply (Permutation_in _ (entries_perm _)).
Qed.

Lemma spread_NoDup {V : Type} (a b : Obj.t V) : NoDup (map fst (Obj.spread a b)).
Proof. apply fold_set_NoDup. constructor. Qed.

Section KeyTermFacts.
Variable engineOrder : list (string * Count) -> list (string * Count).
Hypothesis engineOrder_perm : forall es, Permutation (engineOrder es) es.

(** The sort rearranges the entries, also when the order is the
    engine's. *)
Lemma sortByScore_perm es : Permutation (sortByScore engineOrder es) es.
Proof.
  unfold sortByScore.
  destruct (existsb is_text es); [apply engineOrder_perm | apply sort_perm].
Qed.

Lemma keyTerm_entry text term :
  In term (extractKeyTerms engineOrder text) ->
  exists c, In (term, c) (countWords (tokenize text))
            \/ In (term, c) (countPhrases (tokenize text) []).
Proof.
  unfold extractKeyTerms. cbv zeta. intros Hin.
  apply in_map_iff in Hin as ([k c] & <- & Hin). exists c. simpl.
  apply spread_In. apply (Permutation_in _ (entries_perm _)).
  apply (Permutation_in _ (sortByScore_perm _)).
  rewrite <- (firstn_skipn 20 (sortByScore _ _)). apply in_or_app. now left.
Qed.

Lemma extractKeyTerms_length text : List.length (extractKeyTerms engineOrder text) <= 20.
Proof.
  unfold extractKeyTerms. cbv zeta. rewrite length_map, length_firstn. lia.
Qed.

Lemma extractKeyTerms_NoDup text : NoDup (extractKeyTerms engineOrder text).
Proof.
  unfold extractKeyTerms. cbv zeta.
  rewrite <- firstn_map. apply NoDup_firstn.
  apply (Permutation_NoDup
           (Permutation_map fst (Permutation_sym (sortByScore_perm _)))).
  apply (Permutation_NoDup (Permutation_sym (keys_perm _))).
  apply spread_NoDup.
Qed.

(** X10: the key terms are at most 20 and no term is returned twice, for
    every text and on every engine, the texts whose counters make the
    comparator inconsistent included. *)
Theorem extractKeyTerms_distinct (text : string) :
  List.length (extractKeyTerms engineOrder text) <= 20
  /\ NoDup (extractKeyTerms engineOrder text).
Proof. split; [apply extractKeyTerms_length | apply extractKeyTerms_NoDup]. Qed.
End KeyTermFacts.

Lemma extractKeyTerms_distinct_witness :
  List.length (extractKeyTerms engineSortOrder "The constructor builds. A constructor exam.")
  <= 20
  /\ NoDup (extractKeyTerms engineSortOrder "The constructor builds. A constructor exam.").
Proof.
  apply (extractKeyTerms_distinct engineSortOrder).
  intros es. apply engineSort_perm.
Defined.

(** *** Tokens *)

Lemma forall_chars_true f (s : string) :
  (forall c, f c = true) -> forall_chars f s = true.
Proof. intros H. induction s as [|c s IH]; simpl; [reflexivity | now rewrite H, IH]. Qed.

Lemma forall_chars_map g f (s : string) :
  forall_chars g (map_chars f s) = forall_chars (fun c => g (f c)) s.
Proof. induction s as [|c s IH]; simpl; [reflexivity | now rewrite IH]. Qed.

Lemma forall_chars_filtered f (s : string) : forall_chars f (filter_chars f s) = true.
Proof.
  induction s as [|c s IH]; simpl; [reflexivity|].
  destruct (f c) eqn:E; simpl; [now rewrite E, IH | exact IH].
Qed.

Lemma forall_chars_filter g f (s : string) :
  forall_chars g s = true -> forall_chars g (filter_chars f s) = true.
Proof.
  induction s as [|c s IH]; simpl; [reflexivity|].
  intros H. apply andb_prop in H as [Hc Hs].
  destruct (f c); simpl; [now rewrite Hc, IH | now apply IH].
Qed.

Lemma forall_chars_and f g (s : string) :
  forall_chars f s = true -> forall_chars g s = true ->
  forall_chars (fun c => f c && g c) s = true.
Proof.
  induction s as [|c s IH]; simpl; [reflexivity|].
  intros Hf Hg. apply andb_prop in Hf as [-> Hf]. apply andb_prop in Hg as [-> Hg].
  now rewrite IH.
Qed.

Lemma lowercase_fixed (s : string) : lowercase s = true -> toLowerCase s = s.
Proof.
  unfold lowercase, toLowerCase. induction s as [|c s IH]; simpl; [reflexivity|].
  intros H. apply andb_prop in H as [Hc Hs]. apply Ascii.eqb_eq in Hc.
  now rewrite Hc, IH.
Qed.

Lemma lowercase_append (a b : string) :
  lowercase (a ++ b) = lowercase a && lowercase b.
Proof. apply forall_chars_append. Qed.

(** A token is not empty, holds letters, digits and underscores only,
    and is in lower case. *)
Lemma tokenize_tokens text w :
  In w (tokenize text) ->
  w <> EmptyString /\ forall_chars is_word w = true /\ lowercase w = true.
Proof.
  unfold tokenize. intros H. apply filter_In in H as [H Hlen].
  set (clean := filter_chars (fun c => is_word c || is_space c) (toLowerCase text)) in *.
  pose proof (split_on_pieces is_space clean) as Hall.
  rewrite Forall_forall in Hall. destruct (Hall w H) as [Hns Hp].
  assert (Hkeep : forall_chars (fun c => is_word c || is_space c) clean = true)
    by apply forall_chars_filtered.
  assert (Hlow : lowercase clean = true).
  { unfold lowercase, clean. apply forall_chars_filter.
    unfold toLowerCase. rewrite forall_chars_map. apply forall_chars_true.
    intros c. apply Ascii.eqb_eq. apply lower_char_idempotent. }
  repeat split.
  - intros ->. discriminate Hlen.
  - pose proof (forall_chars_and _ _ _ Hns (forall_chars_piece _ _ _ Hkeep Hp)) as Hw.
    revert Hw. apply forall_chars_impl. intros c Hc.
    apply andb_prop in Hc as [Hc1 Hc2]. apply negb_true_iff in Hc1.
    rewrite Hc1 in Hc2. now rewrite orb_false_r in Hc2.
  - exact (forall_chars_piece _ _ _ Hlow Hp).
Qed.

Lemma word_no_space (w : string) : forall_chars is_word w = true -> no_space w = true.
Proof.
  apply forall_chars_impl. intros c Hc. now rewrite (word_not_space c Hc).
Qed.

Lemma no_space_not_phrase (w : string) : no_space w = true -> isPhrase w = false.
Proof.
  unfold isPhrase, no_space. induction w as [|c w IH]; [reflexivity|].
  cbn [forall_chars]. intros H. apply andb_prop in H as [Hc Hw].
  cbn [includes]. rewrite (IH Hw), orb_false_r. cbn [prefix].
  destruct (ascii_dec " " c) as [<-|_]; [discriminate Hc | reflexivity].
Qed.

Lemma spaced_phrase (a b : string) : isPhrase (a ++ " " ++ b) = true.
Proof.
  unfold isPhrase. induction a as [|c a IH].
  - destruct b; reflexivity.
  - change ((String c a ++ " " ++ b)%string) with (String c (a ++ " " ++ b)).
    cbn [includes]. rewrite IH. apply orb_true_r.
Qed.

Lemma spaced_no_space (a b : string) : no_space (a ++ " " ++ b) = false.
Proof.
  unfold no_space. rewrite forall_chars_append. simpl. apply andb_false_r.
Qed.

Lemma stopWord_no_space k : isStopWord k = true -> no_space k = true.
Proof.
  intros H. apply existsb_exists in H as (x & Hx & E).
  apply String.eqb_eq in E. subst x. unfold stopWords in Hx. simpl in Hx.
  repeat (destruct Hx as [<- | Hx]; [reflexivity|]). contradiction.
Qed.

Lemma spaced_not_stop (a b : string) : isStopWord (a ++ " " ++ b) = false.
Proof.
  destruct (isStopWord (a ++ " " ++ b)) eqn:E; [|reflexivity].
  apply stopWord_no_space in E. now rewrite spaced_no_space in E.
Qed.

Lemma qualifies_length w : qualifies w = true -> 3 < String.length w.
Proof. unfold qualifies. apply Nat.ltb_lt. Qed.

Lemma bump_no_proto o k w :
  ~ In "__proto__" (map fst o) -> ~ In "__proto__" (map fst (bump o k w)).
Proof.
  intros Ho H. apply Ho. unfold bump in H.
  destruct (Obj.get o k) as [c|] eqn:E.
  - assert (Hk : In k (map fst o)) by (apply get_In in E; now apply (in_map fst) in E).
    destruct c; apply in_keys_set in H as [-> | H]; assumption.
  - destruct (String.eqb_spec k "__proto__") as [->|Hne]; [exact H|].
    destruct (Obj.inherited k); apply in_keys_set in H as [E' | H];
      try assumption; congruence.
Qed.

Lemma countWords_no_proto words : ~ In "__proto__" (map fst (countWords words)).
Proof.
  unfold countWords.
  assert (H : forall o, ~ In "__proto__" (map fst o) ->
                        ~ In "__proto__"
                            (map fst (fold_left
                               (fun wordCounts word =>
                                  if negb (isStopWord word) && qualifies word
                                  then bump wordCounts word 1 else wordCounts)
                               words o))).
  { induction words as [|w ws IH]; intros o Ho; simpl; [exact Ho|].
    apply IH. destruct (negb (isStopWord w) && qualifies w); [|exact Ho].
    now apply bump_no_proto. }
  apply H. intros [].
Qed.

Section KeyTermShape.
Variable engineOrder : list (string * Count) -> list (string * Count).
Hypothesis engineOrder_perm : forall es, Permutation (engineOrder es) es.

Lemma keyTerms_shape (text : string) :
  Forall (fun term =>
            madeOf (tokenize text) term
            /\ 3 < String.length term
            /\ isStopWord term = false
            /\ toLowerCase term = term)
         (extractKeyTerms engineOrder text).
Proof.
  apply Forall_forall. intros term Hin.
  destruct (keyTerm_entry engineOrder engineOrder_perm _ _ Hin) as [c [Hc | Hc]].
  - apply (in_map fst) in Hc. simpl in Hc.
    apply countWords_keys in Hc as [Htok Hcnt].
    destruct (tokenize_tokens _ _ Htok) as (_ & Hw & Hlow).
    unfold counted in Hcnt. apply andb_prop in Hcnt as [Hstop Hq].
    apply negb_true_iff in Hstop.
    repeat split.
    + left. split; [exact Htok|]. now apply no_space_not_phrase, word_no_space.
    + now apply qualifies_length.
    + exact Hstop.
    + now apply lowercase_fixed.
  - apply (in_map fst) in Hc. simpl in Hc.
    apply countPhrases_keys in Hc
      as [[] | [(w0 & w1 & H0 & H1 & Q0 & Q1 & ->)
               | (w0 & w1 & w2 & H0 & H1 & H2 & Q0 & Q1 & Q2 & ->)]].
    + destruct (tokenize_tokens _ _ H0) as (_ & _ & L0).
      destruct (tokenize_tokens _ _ H1) as (_ & _ & L1).
      apply qualifies_length in Q0 as Q0', Q1 as Q1'.
      repeat split.
      * right. left. now exists w0, w1.
      * unfold bigram. rewrite !length_append. lia.
      * apply spaced_not_stop.
      * apply lowercase_fixed. unfold bigram.
        rewrite !lowercase_append, L0, L1. reflexivity.
    + destruct (tokenize_tokens _ _ H0) as (_ & _ & L0).
      destruct (tokenize_tokens _ _ H1) as (_ & _ & L1).
      destruct (tokenize_tokens _ _ H2) as (_ & _ & L2).
      apply qualifies_length in Q0 as Q0', Q1 as Q1', Q2 as Q2'.
      repeat split.
      * right. right. now exists w0, w1, w2.
      * unfold trigram. rewrite !length_append. lia.
      * apply spaced_not_stop.
      * apply lowercase_fixed. unfold trigram.
        rewrite !lowercase_append, L0, L1, L2. reflexivity.
Qed.

(** The name [__proto__] is never a key term: it gets no counter of its
    own, and a phrase holds a space. *)
Lemma extractKeyTerms_no_proto (text : string) :
  ~ In "__proto__" (extractKeyTerms engineOrder text).
Proof.
  intros Hin.
  destruct (keyTerm_entry engineOrder engineOrder_perm _ _ Hin) as [c [Hc | Hc]].
  - apply (in_map fst) in Hc. simpl in Hc. exact (countWords_no_proto _ Hc).
  - apply (in_map fst) in Hc. simpl in Hc.
    apply countPhrases_keys in Hc
      as [[] | [(w0 & w1 & _ & _ & _ & _ & E)
               | (w0 & w1 & w2 & _ & _ & _ & _ & _ & _ & E)]].
    + apply (f_equal no_space) in E. unfold bigram in E.
      rewrite spaced_no_space in E. discriminate E.
    + apply (f_equal no_space) in E. unfold trigram in E.
      rewrite spaced_no_space in E. discriminate E.
Qed.

(** X11: every key term is a word of the cleaned text that is not a
    stop word, or two or three words longer than 3 characters joined by
    single spaces; it is longer than 3 characters, it is not a stop word,
    and it is in lower case.  So stop words and words of at most 3
    characters are never returned on their own.  This holds of every text
    and on every engine. *)
Theorem extractKeyTerms_terms (text : string) :
  Forall (fun term =>
            madeOf (tokenize text) term
            /\ 3 < String.length term
            /\ isStopWord term = false
            /\ toLowerCase term = term)
         (extractKeyTerms engineOrder text).
Proof. apply keyTerms_shape. Qed.

Lemma termScore_fold keyTerms sentence acc :
  fold_left
    (fun score term => if includes (toLowerCase sentence) term then score + 1 else score)
    keyTerms acc
  = acc + List.length (filter (fun term => includes (toLowerCase sentence) term) keyTerms).
Proof.
  revert acc. induction keyTerms as [|t ts IH]; intros acc; simpl; [lia|].
  rewrite IH. destruct (includes (toLowerCase sentence) t); simpl; lia.
Qed.

(** X12: for the key terms that [extractKeyTerms] returns, for this text
    or an earlier one, on any engine, the term score of a sentence is the
    number of terms the sentence mentions, letter case ignored: the terms
    are in lower case already, so the test of the summarizer and the test
    of the MCQ and Q&A generators agree. *)
Theorem termScore_counts_mentions (text : string) (sentence : string) :
  termScore (extractKeyTerms engineOrder text) sentence
  = List.length (filter (fun term => mentions term sentence)
                        (extractKeyTerms engineOrder text)).
Proof.
  unfold termScore. rewrite termScore_fold. simpl. f_equal.
  apply filter_ext_in. intros term Hin. unfold mentions.
  pose proof (keyTerms_shape text) as Hall.
  rewrite Forall_forall in Hall. destruct (Hall term Hin) as (_ & _ & _ & ->).
  reflexivity.
Qed.
End KeyTermShape.

Lemma extractKeyTerms_terms_witness :
  Forall (fun term =>
            madeOf (tokenize "The constructor builds. A constructor exam.") term
            /\ 3 < String.length term
            /\ isStopWord term = false
            /\ toLowerCase term = term)
         (extractKeyTerms engineSortOrder "The constructor builds. A constructor exam.").
Proof.
  apply (extractKeyTerms_terms engineSortOrder).
  intros es. apply engineSort_perm.
Defined.

Lemma generateMCQs_count_witness :
  let text := "The constructor builds. A constructor exam." in
  let keyTerms := extractKeyTerms engineSortOrder text in
  List.length (generateMCQs reverseShuffle text keyTerms)
  = Nat.min 10 (List.length (filter (matched (splitSentences text)) keyTerms)).
Proof.
  apply generateMCQs_count.
  - apply extractKeyTerms_NoDup. intros es. apply engineSort_perm.
  - apply extractKeyTerms_no_proto. intros es. apply engineSort_perm.
Defined.

Lemma termScore_counts_mentions_witness :
  termScore (extractKeyTerms engineSortOrder "The constructor builds. A constructor exam.")
            " A Constructor EXAM"
  = List.length
      (filter (fun term => mentions term " A Constructor EXAM")
              (extractKeyTerms engineSortOrder
                               "The constructor builds. A constructor exam.")).
Proof.
  apply (termScore_counts_mentions engineSortOrder).
  intros es. apply engineSort_perm.
Defined.

Lemma countWords_none words :
  forallb (fun w => negb (counted w)) words = true -> countWords words = [].
Proof.
  unfold countWords. generalize (@nil (string * Count)).
  induction words as [|w ws IH]; intros o; simpl; [reflexivity|].
  intros H. apply andb_prop in H as [Hw Hws]. apply negb_true_iff in Hw.
  unfold counted in Hw. rewrite Hw. now apply IH.
Qed.

Lemma countPhrases_none words o :
  forallb (fun w => negb (counted w)) words = true -> countPhrases words o = o.
Proof.
  revert o. induction words as [|w0 tl IH]; intros o; [reflexivity|].
  destruct tl as [|w1 rest]; [reflexivity|].
  intros H. cbn [forallb] in H. apply andb_prop in H as [H0 Htl].
  apply negb_true_iff in H0. unfold counted in H0.
  cbn [countPhrases].
  assert (E1 : qualifies w0 && qualifies w1
               && negb (isStopWord w0) && negb (isStopWord w1) = false).
  { destruct (qualifies w0), (isStopWord w0); simpl in *;
      try discriminate; try reflexivity; now rewrite ?andb_false_r. }
  rewrite E1. destruct rest as [|w2 rest'].
  - now apply IH.
  - assert (E2 : qualifies w0 && qualifies w1 && qualifies w2
                 && negb (isStopWord w0) && negb (isStopWord w2) = false).
    { destruct (qualifies w0), (isStopWord w0); simpl in *;
        try discriminate; try reflexivity; now rewrite ?andb_false_r. }
    rewrite E2. now apply IH.
Qed.

(** X13: a text none of whose words is both longer than 3 characters
    and not a stop word (the empty text, a text of short words) has no key
    term at all. *)
Theorem extractKeyTerms_nothing_counted
        (engineOrder : list (string * Count) -> list (string * Count)) (text : string) :
  forallb (fun w => negb (counted w)) (tokenize text) = true ->
  extractKeyTerms engineOrder text = [].
Proof.
  intros H. unfold extractKeyTerms.
  rewrite (countWords_none _ H), (countPhrases_none _ [] H). reflexivity.
Qed.

Lemma extractKeyTerms_nothing_counted_witness :
  extractKeyTerms engineSortOrder "It is on a mat, and we see it: the cat is in!" = [].
Proof.
  apply extractKeyTerms_nothing_counted. reflexivity.
Defined.

Lemma no_constructor_no_text (text : string) :
  ~ In "constructor" (tokenize text) ->
  existsb is_text
          (Obj.entries (Obj.spread (countWords (tokenize text))
                                   (countPhrases (tokenize text) [])))
  = false.
Proof.
  intros Hno.
  set (words := tokenize text) in *.
  set (es := Obj.entries (Obj.spread (countWords words) (countPhrases words []))).
  destruct (existsb is_text es) eqn:E; [exfalso | reflexivity].
  apply existsb_exists in E as ([k c] & Hin & Hc).
  unfold is_text in Hc. simpl in Hc. destruct c; [discriminate|].
  apply (Permutation_in _ (entries_perm _)) in Hin.
  apply spread_In in Hin as [Hin | Hin].
  - pose proof (proj2 (countWords_invariant words) k Hin) as Hinh.
    pose proof (in_map fst _ _ Hin) as Hk. simpl in Hk.
    pose proof (countWords_no_proto words) as Hproto.
    apply countWords_keys in Hk as Hk'. destruct Hk' as [Htok _].
    destruct (tokenize_tokens _ _ Htok) as (_ & _ & Hlow).
    rewrite lowercase_not_inherited in Hinh; [discriminate Hinh| | |].
    + now apply lowercase_fixed.
    + intros ->. contradiction.
    + intros ->. contradiction.
  - assert (Hinv : texts_inherited (countPhrases words []))
      by (apply countPhrases_invariant; split; [constructor | intros ? []]).
    pose proof (Hinv k Hin) as Hinh.
    apply (in_map fst) in Hin. simpl in Hin.
    apply countPhrases_keys in Hin
      as [[] | [(w0 & w1 & _ & _ & _ & _ & ->)
               | (w0 & w1 & w2 & _ & _ & _ & _ & _ & _ & ->)]].
    + unfold bigram in Hinh.
      rewrite (spaced_not_inherited _ (spaced_no_space w0 w1)) in Hinh.
      discriminate Hinh.
    + unfold trigram in Hinh.
      rewrite (spaced_not_inherited _ (spaced_no_space w0 _)) in Hinh.
      discriminate Hinh.
Qed.

(** X14: for every text in which the word `constructor` does not occur,
    every counter is a number, the comparator of the sort never sees a
    value that is not one, and the key terms are the same on every
    engine: the keys of the first twenty entries in the order the
    language fixes, by falling count, entries of equal count in the order
    of [Object.entries]. *)
Theorem extractKeyTerms_engine_independent
        (engineOrder : list (string * Count) -> list (string * Count)) (text : string) :
  ~ In "constructor" (tokenize text) ->
  let entries :=
    Obj.entries (Obj.spread (countWords (tokenize text))
                            (countPhrases (tokenize text) [])) in
  existsb is_text entries = false
  /\ extractKeyTerms engineOrder text = map fst (firstn 20 (sort byScoreDesc entries)).
Proof.
  intros Hno entries. subst entries.
  pose proof (no_constructor_no_text text Hno) as Htext.
  split; [exact Htext|].
  unfold extractKeyTerms, sortByScore. cbv zeta. now rewrite Htext.
Qed.

Lemma extractKeyTerms_engine_independent_witness :
  let entries :=
    Obj.entries (Obj.spread (countWords (tokenize sampleText))
                            (countPhrases (tokenize sampleText) [])) in
  existsb is_text entries = false
  /\ extractKeyTerms engineSortOrder sampleText
     = map fst (firstn 20 (sort byScoreDesc entries)).
Proof.
  apply (extractKeyTerms_engine_independent engineSortOrder sampleText). vm_compute.
  intros H. repeat (destruct H as [H | H]; [discriminate H|]). exact H.
Defined.

(** ** Uploads *)

Lemma valid_type_accepted (f : File) :
  In (file_type f) validTypes ->
  existsb (String.eqb (file_type f)) validTypes = true.
Proof.
  intros H. apply existsb_exists. exists (file_type f). split; [exact H|].
  apply String.eqb_refl.
Qed.

(** X15: a file of a supported type never reaches the pipeline: the
    call [setFileContent(text)] throws, since the name is bound to the
    state value and not to its setter.  The handler ends with the file
    recorded, the loading flag off, no summary, MCQ, Q&A item or key
    term, and an error message that is never empty: the message of the
    thrown error when the text was read, the message of the reader
    otherwise. *)
Theorem handleFileUpload_supported (st : State) (uploadedFile : File) :
  In (file_type uploadedFile) validTypes ->
  let st' := handleFileUpload st (Some uploadedFile) in
  file st' = Some uploadedFile
  /\ isLoading st' = false
  /\ noOutput st'
  /\ errorMessage st' <> EmptyString
  /\ errorMessage st'
     = match file_text uploadedFile with
       | inl _ => setFileContentError
       | inr message =>
           ("Failed to extract text from " ++ file_type uploadedFile
            ++ " file: " ++ message)%string
       end.
Proof.
  intros Hvalid st'. subst st'. unfold handleFileUpload.
  rewrite (valid_type_accepted _ Hvalid). cbn [negb].
  unfold extractTextFromFile.
  destruct (file_text uploadedFile) as [text | message].
  - destruct (filter _ (lines text)); repeat split; discriminate.
  - repeat split; discriminate.
Qed.

Lemma handleFileUpload_supported_witness :
  let st' := handleFileUpload initialState
               (Some (mkFile "text/plain" (inl sampleText))) in
  file st' = Some (mkFile "text/plain" (inl sampleText))
  /\ isLoading st' = false
  /\ noOutput st'
  /\ errorMessage st' <> EmptyString
  /\ errorMessage st' = setFileContentError.
Proof.
  apply (handleFileUpload_supported initialState (mkFile "text/plain" (inl sampleText))).
  simpl. now left.
Defined.

(** X16: the document title is never cleared.  After an upload it is
    the trimmed first line of the text that is not blank, when the file
    has a supported type, its text was read and has such a line; in every
    other case (dialog closed, type rejected, reader failed, blank text)
    it is the title that was there before. *)
Theorem handleFileUpload_title (st : State) (event : option File) :
  documentTitle (handleFileUpload st event)
  = match event with
    | Some uploadedFile =>
        if existsb (String.eqb (file_type uploadedFile)) validTypes then
          match file_text uploadedFile with
          | inl text =>
              match find nonBlank (lines text) with
              | Some line => trim line
              | None => documentTitle st
              end
          | inr _ => documentTitle st
          end
        else documentTitle st
    | None => documentTitle st
    end
  /\ (documentTitle (handleFileUpload st event) = documentTitle st
      \/ (documentTitle (handleFileUpload st event) <> EmptyString
          /\ trim (documentTitle (handleFileUpload st event))
             = documentTitle (handleFileUpload st event))).
Proof.
  assert (E : documentTitle (handleFileUpload st event)
              = match event with
                | Some uploadedFile =>
                    if existsb (String.eqb (file_type uploadedFile)) validTypes then
                      match file_text uploadedFile with
                      | inl text =>
                          match find nonBlank (lines text) with
                          | Some line => trim line
                          | None => documentTitle st
                          end
                      | inr _ => documentTitle st
                      end
                    else documentTitle st
                | None => documentTitle st
                end).
  { unfold handleFileUpload. destruct event as [f|]; [|reflexivity].
    destruct (existsb (String.eqb (file_type f)) validTypes); [|reflexivity].
    cbn [negb]. unfold extractTextFromFile.
    destruct (file_text f) as [text|message]; [|reflexivity].
    rewrite (filter_find nonBlank). fold nonBlank.
    now destruct (filter nonBlank (lines text)). }
  split; [exact E|]. rewrite E.
  destruct event as [f|]; [|now left].
  destruct (existsb _ validTypes); [|now left].
  destruct (file_text f) as [text|message]; [|now left].
  destruct (find nonBlank (lines text)) as [line|] eqn:Hf; [|now left].
  right. apply find_some in Hf as [_ Hf]. split.
  - unfold nonBlank in Hf. intros Hempty. rewrite Hempty in Hf. discriminate Hf.
  - apply trim_idempotent.
Qed.

(** ** Sessions *)

Lemma handleFileUpload_noOutput (st : State) (event : option File) :
  noOutput (handleFileUpload st event)
  /\ isLoading (handleFileUpload st event) = isLoading st && negb (
       match event with
       | Some f => existsb (String.eqb (file_type f)) validTypes
       | None => false
       end).
Proof.
  unfold handleFileUpload. destruct event as [f|].
  - destruct (existsb (String.eqb (file_type f)) validTypes); cbn [negb].
    + unfold extractTextFromFile. destruct (file_text f) as [text|message].
      * destruct (filter _ (lines text)); repeat split;
          cbn; now rewrite andb_false_r.
      * repeat split; cbn; now rewrite andb_false_r.
    + repeat split; cbn; now rewrite andb_true_r.
  - repeat split; cbn; now rewrite andb_true_r.
Qed.

Lemma handleFileUpload_error_with_file (st : State) (event : option File) :
  hasFile st = false ->
  hasFile (handleFileUpload st event) = true ->
  errorShown (handleFileUpload st event) = true.
Proof.
  unfold handleFileUpload, hasFile, errorShown. intros Hst.
  destruct event as [f|].
  - destruct (existsb (String.eqb (file_type f)) validTypes); cbn [negb].
    + unfold extractTextFromFile. destruct (file_text f) as [text|message].
      * now destruct (filter _ (lines text)).
      * intros _. cbn. reflexivity.
    + cbn. intros H. rewrite H in Hst. discriminate Hst.
  - cbn. intros H. rewrite H in Hst. discriminate Hst.
Qed.

Lemma react_quiet (ui : UI) (e : Event) :
  quiet ui -> enabled ui e = true -> quiet (react ui e).
Proof.
  intros (Hout & Hload & Htab & Herr) Hen. destruct e as [chosen | tab |].
  - cbn [react enabled] in *. unfold uploadBoxShown in Hen.
    apply andb_prop in Hen as [Hfile _]. apply negb_true_iff in Hfile.
    destruct (handleFileUpload_noOutput (ui_state ui) chosen) as [Hno Hl].
    unfold quiet. cbn [ui_state ui_activeTab]. repeat split; try apply Hno.
    + rewrite Hl, Hload. reflexivity.
    + exact Htab.
    + now apply handleFileUpload_error_with_file.
  - cbn [react enabled] in *. apply andb_prop in Hen as [_ Hin].
    unfold quiet. cbn [ui_state ui_activeTab]. repeat split; try apply Hout; auto.
    apply existsb_exists in Hin as (x & Hx & E). apply String.eqb_eq in E.
    now subst x.
  - exact (conj Hout (conj Hload (conj Htab Herr))).
Qed.

Lemma session_keeps_quiet (events : list Event) (ui ui' : UI) :
  quiet ui -> session ui events = Some ui' -> quiet ui'.
Proof.
  revert ui. induction events as [|e rest IH]; intros ui Hq; cbn [session].
  - now intros [= <-].
  - destruct (enabled ui e) eqn:Hen; [|discriminate].
    apply IH. now apply react_quiet.
Qed.

(** X17: whatever the user does from the moment the component is
    mounted (choosing files of any kind, closing the dialog, switching
    tabs, downloading), the component never holds a summary, an MCQ, a
    Q&A item or a key term, and is never left loading; whenever the
    document panel and the tabs are rendered, an error message is rendered
    too. *)
Theorem session_never_shows_results (events : list Event) (ui : UI) :
  session initialUI events = Some ui ->
  noOutput (ui_state ui)
  /\ isLoading (ui_state ui) = false
  /\ In (ui_activeTab ui) tabNames
  /\ (documentShown (ui_state ui) = true -> errorShown (ui_state ui) = true).
Proof.
  intros H.
  assert (Hq : quiet initialUI).
  { repeat split; try reflexivity; [now left | discriminate]. }
  destruct (session_keeps_quiet _ _ _ Hq H) as (Hout & Hload & Htab & Herr).
  repeat split; try apply Hout; try assumption.
  unfold documentShown. intros Hd. apply andb_prop in Hd as [Hd _]. now apply Herr.
Qed.

Lemma session_never_shows_results_witness :
  exists ui,
    session initialUI sampleSession = Some ui
    /\ noOutput (ui_state ui)
    /\ isLoading (ui_state ui) = false
    /\ In (ui_activeTab ui) tabNames
    /\ (documentShown (ui_state ui) = true -> errorShown (ui_state ui) = true).
Proof.
  eexists. split; [vm_compute; reflexivity|].
  apply (session_never_shows_results sampleSession). vm_compute. reflexivity.
Defined.

(** X18: once a file is recorded, the upload box is not rendered any
    more and no event reaches [handleFileUpload]: for the rest of the
    session the state of the component stays what it is, and only the
    active tab can change.  A session accepts one file at most. *)
Theorem session_after_file (events : list Event) (ui ui' : UI) :
  hasFile (ui_state ui) = true ->
  session ui events = Some ui' ->
  ui_state ui' = ui_state ui.
Proof.
  intros Hfile. revert ui Hfile.
  induction events as [|e rest IH]; intros ui Hfile; cbn [session].
  - now intros [= <-].
  - destruct (enabled ui e) eqn:Hen; [|discriminate].
    destruct e as [chosen | tab |]; cbn [enabled react] in *.
    + unfold uploadBoxShown in Hen. rewrite Hfile in Hen. discriminate Hen.
    + intros H. now apply IH in H.
    + now apply IH.
Qed.

Lemma session_after_file_witness :
  let ui := react initialUI (SelectFile (Some (mkFile "text/plain" (inl sampleText)))) in
  exists ui',
    session ui [SelectTab "qna"; Download; SelectTab "summary"] = Some ui'
    /\ ui_state ui' = ui_state ui.
Proof.
  eexists. split; [vm_compute; reflexivity|].
  apply (session_after_file [SelectTab "qna"; Download; SelectTab "summary"]);
    vm_compute; reflexivity.
Defined.

(** ** Runs of the pipeline *)

(** A render that the mounted component can reach holds no key term. *)
Lemma session_keyTerms (events : list Event) (ui : UI) :
  session initialUI events = Some ui -> keyTerms (ui_state ui) = [].
Proof.
  intros H.
  assert (Hq : quiet initialUI).
  { repeat split; try reflexivity; [now left | discriminate]. }
  destruct (session_keeps_quiet _ _ _ Hq H) as (Hout & _).
  apply Hout.
Qed.

Lemma generateMCQs_correct_option
      (shuffle : nat -> list string -> list string)
      (Hshuffle : forall index l, Permutation l (shuffle index l))
      (text : string) (keyTerms : list string) (q : MCQ) :
  In q (generateMCQs shuffle text keyTerms) ->
  exists term targetSentence,
    In term keyTerms
    /\ mcq_question q = questionAbout term
    /\ find (mentions term) (splitSentences text) = Some targetSentence
    /\ at_index (mcq_options q) (mcq_correctAnswer q) = Some (trim targetSentence).
Proof.
  intros Hq.
  destruct (generateMCQs_items _ _ _ _ Hq)
    as (index & term & target & Hin & Hfind & _ & Hquestion & Hopts & Hcorrect).
  exists term, target. repeat split; try assumption.
  rewrite Hcorrect. apply indexOf_In. rewrite Hopts.
  apply (Permutation_in _ (Hshuffle _ _)).
  unfold optionsFor. destruct (isPhrase term); now left.
Qed.

(** C4: two runs of the pipeline on the same text with the same shuffle,
    each one started in a render that the mounted component can reach.
    The two summaries are the same, the Q&A items are the same, the key
    terms and the MCQs are the same, and in both runs the option at
    [correctAnswer] of every MCQ is the same string: the trimmed first
    sentence that mentions the term of the item.  (The summarizer reads
    the key terms of the render the run was started in; a render with the
    file input holds none, so it reads the empty list in both runs.) *)
Theorem processDocument_twice
        (engineOrder : list (string * Count) -> list (string * Count))
        (shuffle : nat -> list string -> list string)
        (events1 events2 : list Event) (ui1 ui2 : UI) (st1 st2 : State)
        (text : string) :
  (forall index l, Permutation l (shuffle index l)) ->
  session initialUI events1 = Some ui1 ->
  session initialUI events2 = Some ui2 ->
  let first := processDocument engineOrder shuffle (ui_state ui1) st1 text in
  let second := processDocument engineOrder shuffle (ui_state ui2) st2 text in
  summary first = summary second
  /\ qna first = qna second
  /\ keyTerms first = keyTerms second
  /\ mcqs first = mcqs second
  /\ Forall (fun q =>
               exists term targetSentence,
                 In term (extractKeyTerms engineOrder text)
                 /\ mcq_question q = questionAbout term
                 /\ find (mentions term) (splitSentences text) = Some targetSentence
                 /\ at_index (mcq_options q) (mcq_correctAnswer q)
                    = Some (trim targetSentence))
            (mcqs first).
Proof.
  intros Hshuffle H1 H2 first second.
  destruct (processDocument_outputs engineOrder shuffle (ui_state ui1) st1 text)
    as (K1 & S1 & M1 & Q1).
  destruct (processDocument_outputs engineOrder shuffle (ui_state ui2) st2 text)
    as (K2 & S2 & M2 & Q2).
  fold first in K1, S1, M1, Q1. fold second in K2, S2, M2, Q2.
  rewrite (session_keyTerms _ _ H1) in S1. rewrite (session_keyTerms _ _ H2) in S2.
  repeat split; try congruence.
  apply Forall_forall. intros q Hq. rewrite M1 in Hq.
  now apply (generateMCQs_correct_option shuffle Hshuffle text).
Qed.

Lemma processDocument_twice_witness :
  exists ui2,
    session initialUI sampleSession = Some ui2
    /\ let first :=
         processDocument engineSortOrder reverseShuffle initialState initialState
                         sampleText in
       let second :=
         processDocument engineSortOrder reverseShuffle (ui_state ui2)
                         (resetAll (ui_state ui2)) sampleText in
       summary first = summary second
       /\ qna first = qna second
       /\ keyTerms first = keyTerms second
       /\ mcqs first = mcqs second
       /\ Forall (fun q =>
                    exists term targetSentence,
                      In term (extractKeyTerms engineSortOrder sampleText)
                      /\ mcq_question q = questionAbout term
                      /\ find (mentions term) (splitSentences sampleText)
                         = Some targetSentence
                      /\ at_index (mcq_options q) (mcq_correctAnswer q)
                         = Some (trim targetSentence))
                 (mcqs first).
Proof.
  eexists. split; [vm_compute; reflexivity|].
  apply (processDocument_twice engineSortOrder reverseShuffle [] sampleSession initialUI).
  - intros index l. apply Permutation_rev.
  - reflexivity.
  - vm_compute. reflexivity.
Defined.

(** ** Export *)

Lemma length_four {A : Type} (l : list A) :
  List.length l = 4 -> exists a b c d, l = [a; b; c; d].
Proof.
  destruct l as [|a [|b [|c [|d [|e l]]]]]; try discriminate. intros _.
  now exists a, b, c, d.
Qed.

(** X20: in the exported MCQ file, and on the MCQ tab, the options of
    a generated item are lettered A, B, C, D in their shuffled order, and
    the letter given as the correct answer is the letter of the option
    that is the trimmed target sentence. *)
Theorem mcqBlock_correct_letter
        (shuffle : nat -> list string -> list string)
        (Hshuffle : forall index l, Permutation l (shuffle index l))
        (text : string) (keyTerms : list string) :
  Forall (fun q =>
            exists a b c d n letter targetSentence,
              mcq_options q = [a; b; c; d]
              /\ In targetSentence (splitSentences text)
              /\ nth_error optionLetters n = Some letter
              /\ nth_error (mcq_options q) n = Some (trim targetSentence)
              /\ mcqBlock q
                 = Some (decimal (mcq_id q) ++ ". " ++ mcq_question q ++ newline
                         ++ join newline [ ("   A. " ++ a)%string;
                                           ("   B. " ++ b)%string;
                                           ("   C. " ++ c)%string;
                                           ("   D. " ++ d)%string ]
                         ++ newline ++ newline
                         ++ "Correct Answer: " ++ letter ++ newline)%string)
         (generateMCQs shuffle text keyTerms).
Proof.
  apply Forall_forall. intros q Hq.
  apply generateMCQs_items in Hq
    as (index & term & target & _ & Hfind & _ & _ & Hopts & Hca).
  apply find_some in Hfind as [Hin _].
  assert (Hlen : List.length (mcq_options q) = 4).
  { rewrite Hopts, <- (Permutation_length (Hshuffle _ _)).
    unfold optionsFor. now destruct (isPhrase term). }
  assert (Hmem : In (trim target) (mcq_options q)).
  { rewrite Hopts. apply (Permutation_in _ (Hshuffle _ _)).
    unfold optionsFor. destruct (isPhrase term); now left. }
  pose proof (indexOf_In _ _ Hmem) as Hat. rewrite <- Hca in Hat.
  pose proof (indexOf_bound (mcq_options q) (trim target)) as Hb.
  pose proof (indexOf_found _ _ Hmem) as Hf. rewrite <- Hca in Hb, Hf.
  rewrite Hlen in Hb.
  destruct (length_four _ Hlen) as (a & b & c & d & E).
  unfold at_index in Hat.
  destruct (mcq_correctAnswer q <? 0)%Z eqn:Hneg; [discriminate Hat|].
  exists a, b, c, d, (Z.to_nat (mcq_correctAnswer q)).
  assert (Hcases : mcq_correctAnswer q = 0%Z \/ mcq_correctAnswer q = 1%Z
                   \/ mcq_correctAnswer q = 2%Z \/ mcq_correctAnswer q = 3%Z) by lia.
  unfold mcqBlock. rewrite E in *.
  destruct Hcases as [Hc | [Hc | [Hc | Hc]]]; rewrite Hc in *;
    [exists "A" | exists "B" | exists "C" | exists "D"];
    exists target; repeat split; try assumption; reflexivity.
Qed.

Lemma mcqBlock_correct_letter_witness :
  Forall (fun q =>
            exists a b c d n letter targetSentence,
              mcq_options q = [a; b; c; d]
              /\ In targetSentence (splitSentences "Cats purr. Dogs bark.")
              /\ nth_error optionLetters n = Some letter
              /\ nth_error (mcq_options q) n = Some (trim targetSentence)
              /\ mcqBlock q
                 = Some (decimal (mcq_id q) ++ ". " ++ mcq_question q ++ newline
                         ++ join newline [ ("   A. " ++ a)%string;
                                           ("   B. " ++ b)%string;
                                           ("   C. " ++ c)%string;
                                           ("   D. " ++ d)%string ]
                         ++ newline ++ newline
                         ++ "Correct Answer: " ++ letter ++ newline)%string)
         (generateMCQs reverseShuffle "Cats purr. Dogs bark." ["dogs"; "cats"]).
Proof.
  apply (mcqBlock_correct_letter reverseShuffle).
  intros index l. apply Permutation_rev.
Defined.
